(** * Pacman (pygame): a shallow embedding of [pacman.py]

    The simulation core of [pacman.py] is embedded as Rocq functions:
    the static maze table, the grid queries, the motion of the player
    and of the ghosts, pellet consumption, collision resolution and the
    body of the main loop ([advance]).

    Conventions of the embedding.
    - Python [int] is [Z].  Python [float] (positions, [dt], timers) is
      idealised as exact rational arithmetic, [Q]: rounding is abstracted,
      comparisons, [int()] truncation and [//] floor division are exact.
    - Objects are records; a method becomes a function returning the
      updated record.  [Pacman] and [Ghost] flatten the fields inherited
      from [Entity]; the [color] field is carried by the drawing code only
      and is left out.
    - The list [ghosts] is a [list Ghost]; the aliases kept in [hits]
      by [check_collisions] are indices into that list.
    - A Python exception is [None] in the [option] monad.
    - The fields of a [Rect] are [Z]; pygame stores them in C ints, so
      the embedding follows the code for rectangles whose edges lie in
      that range ([rect_fits]), which covers every position in or near
      the window.
    - [random.choice] takes its index from an oracle argument. *)

From Stdlib Require Import ZArith QArith Qround Qabs Lia Lqa Ascii String.
From stdpp Require Import base option list gmap strings.

Local Open Scope Z_scope.

(** ** Python helpers *)

(** [l[i]] for a Python sequence: negative indices count from the end,
    an index outside [-len, len) raises IndexError ([None]). *)
Definition py_index {A : Type} (l : list A) (i : Z) : option A :=
  let n := Z.of_nat (length l) in
  if 0 <=? i then l !! Z.to_nat i
  else if - n <=? i then l !! Z.to_nat (n + i)
  else None.

(** [range(a, b)] *)
Definition range (a b : Z) : list Z :=
  map (fun i => a + Z.of_nat i) (seq 0 (Z.to_nat (b - a))).

(** [int(q)] on a float: truncation toward zero. *)
Definition py_int (q : Q) : Z :=
  if Qle_bool 0 q then Qfloor q else Qceiling q.

(** [a // b] on a float [a] and an int [b]. *)
Definition py_floordiv (a : Q) (b : Z) : Z :=
  Qfloor (a / inject_Z b).

Definition Qltb (a b : Q) : bool := negb (Qle_bool b a).

(** [max(a, b)]: Python returns [b] only when [b > a]. *)
Definition py_max (a b : Q) : Q := if Qltb a b then b else a.

(** ** Game constants *)

Definition SCREEN_WIDTH : Z := 800.
Definition SCREEN_HEIGHT : Z := 600.

Definition MAZE_LAYOUT : list string := [
    "1111111111111111111111111111";
    "1222222222111222222222222221";
    "1211112112111211112111111121";
    "1320002112222211002110000121";
    "1211112112111211112111111121";
    "1222222222222222222222222221";
    "121111211111H1111112111111121";
    "1211112111111111112111111121";
    "1222222222111222222222222221";
    "1111112111111111111112111111";
    "0000012112222222222112110000";
    "1111012112111111112112111111";
    "1222212112133333312112222221";
    "1111012112111111112112011111";
    "0000012112222222222112000000";
    "1111112111111111111112111111";
    "1222222222111222222222222221";
    "1211112112111211112111111121";
    "1320002112222211002110000121";
    "1211112112111211112111111121";
    "1222222222222222222222222221";
    "121111211111H1111112111111121";
    "1211112111111111112111111121";
    "1222222222111222222222222221";
    "1111111111111111111111111111";
    "1000000000000000000000000001";
    "1333333333333333333333333331";
    "1222222222222222222222222221";
    "1211111111111111111111111121";
    "1222222222222222222222222221";
    "1111111111111111111111111111"
  ]%string.

(** [layout[r][c]]; [None] is IndexError. *)
Definition char_at (layout : list string) (r c : Z) : option ascii :=
  row ← py_index layout r; py_index (list_ascii_of_string row) c.

(** [len(layout)] and [len(layout[0])] for an arbitrary table. *)
Definition ROWS_of (layout : list string) : Z := Z.of_nat (length layout).
Definition COLS_of (layout : list string) : option Z :=
  row ← py_index layout 0; Some (Z.of_nat (String.length row)).

Definition ROWS : Z := Eval vm_compute in ROWS_of MAZE_LAYOUT.
Definition COLS : Z := Eval vm_compute in default 0 (COLS_of MAZE_LAYOUT).

Definition TILE_SIZE : Z :=
  Eval vm_compute in Z.min (SCREEN_WIDTH / COLS) (SCREEN_HEIGHT / ROWS).
Definition MAZE_WIDTH : Z := COLS * TILE_SIZE.
Definition MAZE_HEIGHT : Z := ROWS * TILE_SIZE.
Definition OFFSET_X : Z := Eval vm_compute in (SCREEN_WIDTH - MAZE_WIDTH) / 2.
Definition OFFSET_Y : Z := Eval vm_compute in (SCREEN_HEIGHT - MAZE_HEIGHT) / 2.

Definition PACMAN_SPEED : Z := 100.
Definition GHOST_SPEED : Z := 90.
Definition VULNERABLE_SPEED : Z := 70.
Definition POWER_DURATION : Q := 7.
Definition START_LIVES : Z := 3.
Definition DOT_SCORE : Z := 10.
Definition POWER_SCORE : Z := 50.
Definition GHOST_SCORE : Z := 200.

(** [MAZE_LAYOUT[r][c]] where the source guards the indices; the guards
    keep every such lookup inside the table (lemma [MAZE_in_bounds]),
    so the default is never produced. *)
Definition MAZE (r c : Z) : ascii :=
  default "1"%char (char_at MAZE_LAYOUT r c).

(** ** Rectangles (pygame.Rect) *)

Record Rect := mkRect { r_left : Z; r_top : Z; r_width : Z; r_height : Z }.

Definition r_right (a : Rect) : Z := r_left a + r_width a.
Definition r_bottom (a : Rect) : Z := r_top a + r_height a.

(** [Rect.colliderect] as pygame computes it. *)
Definition colliderect (a b : Rect) : bool :=
  if (r_width a =? 0) || (r_height a =? 0) || (r_width b =? 0) || (r_height b =? 0)
  then false
  else (Z.min (r_left a) (r_right a) <? Z.max (r_left b) (r_right b))
    && (Z.min (r_top a) (r_bottom a) <? Z.max (r_top b) (r_bottom b))
    && (Z.max (r_left a) (r_right a) >? Z.min (r_left b) (r_right b))
    && (Z.max (r_top a) (r_bottom a) >? Z.min (r_top b) (r_bottom b)).

(** ** Grid queries *)

Definition grid_to_world (col row : Z) : Z * Z :=
  (OFFSET_X + col * TILE_SIZE + TILE_SIZE / 2,
   OFFSET_Y + row * TILE_SIZE + TILE_SIZE / 2).

Definition rect_for_cell (col row : Z) : Rect :=
  mkRect (OFFSET_X + col * TILE_SIZE) (OFFSET_Y + row * TILE_SIZE) TILE_SIZE TILE_SIZE.

Definition is_inside_grid (col row : Z) : bool :=
  (0 <=? row) && (row <? ROWS) && (0 <=? col) && (col <? COLS).

Definition is_char (ch : ascii) (r c : Z) : bool :=
  bool_decide (MAZE r c = ch).

Definition is_wall (col row : Z) : bool :=
  if is_inside_grid col row
  then is_char "1" row col || is_char "H" row col
  else true.

Definition is_door (col row : Z) : bool :=
  if is_inside_grid col row then is_char "H" row col else false.

Definition DIRS : list (Z * Z) := [(1, 0); (-1, 0); (0, 1); (0, -1)].

Definition neighbors (col row : Z) : list (Z * Z) :=
  omap (fun d : Z * Z =>
          let nc := col + d.1 in
          let nr := row + d.2 in
          if is_inside_grid nc nr && negb (is_wall nc nr)
          then Some (nc, nr) else None) DIRS.

(** The tile range scanned by [hits_wall] and [hits_wall_eyes]. *)
Definition tile_span (rect : Rect) : list Z * list Z :=
  let left := Z.max 0 ((r_left rect - OFFSET_X) / TILE_SIZE) in
  let right := Z.min (COLS - 1) ((r_right rect - 1 - OFFSET_X) / TILE_SIZE) in
  let top := Z.max 0 ((r_top rect - OFFSET_Y) / TILE_SIZE) in
  let bottom := Z.min (ROWS - 1) ((r_bottom rect - 1 - OFFSET_Y) / TILE_SIZE) in
  (range top (bottom + 1), range left (right + 1)).

(** The two nested [for] loops with their early [return True]. *)
Definition scan_tiles (blocking : Z -> Z -> bool) (rect : Rect) : bool :=
  let '(rows, cols) := tile_span rect in
  existsb (fun r =>
    existsb (fun c =>
      blocking r c && colliderect rect (rect_for_cell c r)) cols) rows.

Definition hits_wall (rect : Rect) : bool :=
  scan_tiles (fun r c => is_char "1" r c || is_char "H" r c) rect.

Definition hits_wall_eyes (rect : Rect) : bool :=
  scan_tiles (fun r c => is_char "1" r c) rect.

(** The maze rule that [hits_wall] adds to [hits_wall_eyes]: the
    rectangle overlaps the tile of a door cell. *)
Definition overlaps_door (rect : Rect) : bool :=
  scan_tiles (fun r c => is_door c r) rect.

(** ** Entities *)

(** [Entity.rect] *)
Definition entity_rect (x y : Q) (radius : Z) : Rect :=
  mkRect (py_int (x - inject_Z radius)) (py_int (y - inject_Z radius))
         (radius * 2) (radius * 2).

(** [Entity.grid_pos] *)
Definition grid_pos (x y : Q) : Z * Z :=
  (py_floordiv (x - inject_Z OFFSET_X) TILE_SIZE,
   py_floordiv (y - inject_Z OFFSET_Y) TILE_SIZE).

(** The centre of a cell as a position ([float(x)], [float(y)]). *)
Definition world (cell : Z * Z) : Q * Q :=
  (inject_Z (grid_to_world cell.1 cell.2).1, inject_Z (grid_to_world cell.1 cell.2).2).

(** [abs(x - cx) <= 2] *)
Definition near (x : Q) (cx : Z) : bool :=
  Qle_bool (Qabs (x - inject_Z cx)) 2.

Record Pacman := mkPacman {
  p_col : Z; p_row : Z;
  p_x : Q; p_y : Q;
  p_radius : Z;
  p_dir : Z * Z;
  p_target_dir : Z * Z;
  lives : Z;
  score : Z;
  power_timer : Q
}.

Inductive Mode := normal | vulnerable | eyes.
Inductive Behavior := chase | random.

#[global] Instance Mode_eq_dec : EqDecision Mode.
Proof. solve_decision. Defined.
#[global] Instance Behavior_eq_dec : EqDecision Behavior.
Proof. solve_decision. Defined.

Record Ghost := mkGhost {
  g_col : Z; g_row : Z;
  g_x : Q; g_y : Q;
  g_radius : Z;
  g_dir : Z * Z;
  g_target_dir : Z * Z;
  spawn : Z * Z;
  home : Z * Z;
  mode : Mode;
  behavior : Behavior;
  flash_timer : Q
}.

Definition pacman_rect (p : Pacman) : Rect := entity_rect (p_x p) (p_y p) (p_radius p).
Definition ghost_rect (g : Ghost) : Rect := entity_rect (g_x g) (g_y g) (g_radius g).

(** [Pacman.__init__] *)
Definition Pacman_init (col row : Z) : Pacman :=
  let '(x, y) := grid_to_world col row in
  mkPacman col row (inject_Z x) (inject_Z y) (TILE_SIZE / 2 - 2)
           (0, 0) (0, 0) START_LIVES 0 0.

(** [Ghost.__init__] *)
Definition Ghost_init (col row home_col home_row : Z) (beh : Behavior) : Ghost :=
  let '(x, y) := grid_to_world col row in
  mkGhost col row (inject_Z x) (inject_Z y) (TILE_SIZE / 2 - 3)
          (0, 0) (0, 0) (col, row) (home_col, home_row) normal beh 0.

(** Field updates. *)
Definition p_set_pos (p : Pacman) (x y : Q) : Pacman :=
  mkPacman (p_col p) (p_row p) x y (p_radius p) (p_dir p) (p_target_dir p)
           (lives p) (score p) (power_timer p).
Definition p_set_cell (p : Pacman) (c : Z * Z) : Pacman :=
  mkPacman c.1 c.2 (p_x p) (p_y p) (p_radius p) (p_dir p) (p_target_dir p)
           (lives p) (score p) (power_timer p).
Definition p_set_dir (p : Pacman) (d : Z * Z) : Pacman :=
  mkPacman (p_col p) (p_row p) (p_x p) (p_y p) (p_radius p) d (p_target_dir p)
           (lives p) (score p) (power_timer p).
Definition p_set_target_dir (p : Pacman) (d : Z * Z) : Pacman :=
  mkPacman (p_col p) (p_row p) (p_x p) (p_y p) (p_radius p) (p_dir p) d
           (lives p) (score p) (power_timer p).
Definition p_set_lives (p : Pacman) (n : Z) : Pacman :=
  mkPacman (p_col p) (p_row p) (p_x p) (p_y p) (p_radius p) (p_dir p) (p_target_dir p)
           n (score p) (power_timer p).
Definition p_set_score (p : Pacman) (n : Z) : Pacman :=
  mkPacman (p_col p) (p_row p) (p_x p) (p_y p) (p_radius p) (p_dir p) (p_target_dir p)
           (lives p) n (power_timer p).
Definition p_set_power_timer (p : Pacman) (t : Q) : Pacman :=
  mkPacman (p_col p) (p_row p) (p_x p) (p_y p) (p_radius p) (p_dir p) (p_target_dir p)
           (lives p) (score p) t.

Definition g_set_pos (g : Ghost) (x y : Q) : Ghost :=
  mkGhost (g_col g) (g_row g) x y (g_radius g) (g_dir g) (g_target_dir g)
          (spawn g) (home g) (mode g) (behavior g) (flash_timer g).
Definition g_set_cell (g : Ghost) (c : Z * Z) : Ghost :=
  mkGhost c.1 c.2 (g_x g) (g_y g) (g_radius g) (g_dir g) (g_target_dir g)
          (spawn g) (home g) (mode g) (behavior g) (flash_timer g).
Definition g_set_dir (g : Ghost) (d : Z * Z) : Ghost :=
  mkGhost (g_col g) (g_row g) (g_x g) (g_y g) (g_radius g) d (g_target_dir g)
          (spawn g) (home g) (mode g) (behavior g) (flash_timer g).
Definition g_set_mode (g : Ghost) (m : Mode) : Ghost :=
  mkGhost (g_col g) (g_row g) (g_x g) (g_y g) (g_radius g) (g_dir g) (g_target_dir g)
          (spawn g) (home g) m (behavior g) (flash_timer g).
Definition g_set_flash_timer (g : Ghost) (t : Q) : Ghost :=
  mkGhost (g_col g) (g_row g) (g_x g) (g_y g) (g_radius g) (g_dir g) (g_target_dir g)
          (spawn g) (home g) (mode g) (behavior g) t.

(** [Entity.center_in_cell] *)
Definition p_center_in_cell (p : Pacman) : Pacman :=
  let '(x, y) := grid_to_world (p_col p) (p_row p) in
  p_set_pos p (inject_Z x) (inject_Z y).
Definition g_center_in_cell (g : Ghost) : Ghost :=
  let '(x, y) := grid_to_world (g_col g) (g_row g) in
  g_set_pos g (inject_Z x) (inject_Z y).

(** ** The player *)

Definition try_change_dir (col row : Z) (target_dir : Z * Z) : Z * Z :=
  let '(dc, dr) := target_dir in
  if (dc =? 0) && (dr =? 0) then (0, 0)
  else if negb (is_wall (col + dc) (row + dr)) then (dc, dr)
  else (0, 0).

(** [Pacman.set_direction] *)
Definition set_direction (p : Pacman) (dc dr : Z) : Pacman :=
  p_set_target_dir p (dc, dr).

(** The power-timer decay at the end of [Pacman.update]. *)
Definition decay (t dt : Q) : Q :=
  if Qltb 0 t then py_max 0 (t - dt) else t.

(** [Pacman.update] *)
Definition Pacman_update (p : Pacman) (dt : Q) : Pacman :=
  let '(cx, cy) := grid_to_world (p_col p) (p_row p) in
  let p :=
    if near (p_x p) cx && near (p_y p) cy
    then p_set_dir (p_set_pos p (inject_Z cx) (inject_Z cy))
                   (try_change_dir (p_col p) (p_row p) (p_target_dir p))
    else p in
  let speed := PACMAN_SPEED in
  let dx := (inject_Z (p_dir p).1 * inject_Z speed * dt)%Q in
  let dy := (inject_Z (p_dir p).2 * inject_Z speed * dt)%Q in
  let p := p_set_pos p (p_x p + dx) (p_y p) in
  let p := if hits_wall (pacman_rect p) then p_set_pos p (p_x p - dx) (p_y p) else p in
  let p := p_set_pos p (p_x p) (p_y p + dy) in
  let p := if hits_wall (pacman_rect p) then p_set_pos p (p_x p) (p_y p - dy) else p in
  let p := p_set_cell p (grid_pos (p_x p) (p_y p)) in
  p_set_power_timer p (decay (power_timer p) dt).

(** ** The ghosts *)

Definition set_vulnerable (g : Ghost) : Ghost :=
  if bool_decide (mode g ≠ eyes)
  then g_set_flash_timer (g_set_mode g vulnerable) 0
  else g.

Definition set_normal (g : Ghost) : Ghost := g_set_mode g normal.
Definition set_eyes (g : Ghost) : Ghost := g_set_mode g eyes.

(** [Ghost.speed] *)
Definition speed (g : Ghost) : Z :=
  if bool_decide (mode g = vulnerable) then VULNERABLE_SPEED else GHOST_SPEED.

Definition neg_dir (d : Z * Z) : Z * Z := (- d.1, - d.2).

(** The [options] loop of [Ghost.update] (lines 232-238): one pass over
    the four directions, appending to [options] as the source does. *)
Definition candidate_step (col row : Z) (dir : Z * Z)
    (options : list (Z * Z)) (d : Z * Z) : list (Z * Z) :=
  let nc := col + d.1 in
  let nr := row + d.2 in
  if negb (is_wall nc nr)
  then if bool_decide (neg_dir d ≠ dir) || (length options =? 0)%nat
       then options ++ [d]
       else options
  else options.

Definition candidate_dirs (col row : Z) (dir : Z * Z) : list (Z * Z) :=
  fold_left (candidate_step col row dir) DIRS [].

(** The "keep the best so far" loops: [best] starts as Python [None]
    and [best_dist] as a sentinel; [better dist best_dist] is the test
    of the source ([>] or [<]). *)
Definition best_step (better : Z -> Z -> bool) (dist : Z * Z -> Z)
    (acc : option (Z * Z) * Z) (d : Z * Z) : option (Z * Z) * Z :=
  if better (dist d) acc.2 then (Some d, dist d) else acc.

Definition best_of (better : Z -> Z -> bool) (sentinel : Z)
    (dist : Z * Z -> Z) (options : list (Z * Z)) : option (Z * Z) :=
  (fold_left (best_step better dist) options (None, sentinel)).1.

(** Squared distance from the cell reached by [d] to a target cell. *)
Definition dist2 (col row : Z) (target : Z * Z) (d : Z * Z) : Z :=
  (col + d.1 - target.1) ^ 2 + (row + d.2 - target.2) ^ 2.

Definition SENTINEL : Z := 1000000000.

(** [Ghost._choose_dir]; the result [None] is Python's [None] (the
    value [best] keeps when no option beats the sentinel).  [pick] is
    the index drawn by [random.choice]. *)
Definition choose_dir (g : Ghost) (options : list (Z * Z)) (pacman : Pacman)
    (pick : nat) : option (Z * Z) :=
  match options with
  | [] => Some (0, 0)
  | _ =>
    let dist := dist2 (g_col g) (g_row g) (p_col pacman, p_row pacman) in
    if bool_decide (mode g = vulnerable)
    then best_of Z.gtb (-1) dist options
    else if bool_decide (behavior g = random)
    then options !! (pick mod length options)%nat
    else best_of Z.ltb SENTINEL dist options
  end.

(** The axis-by-axis move shared by [Ghost.update] and
    [Ghost._move_towards]; [hits] is the collision test in force. *)
Definition ghost_move (hits : Rect -> bool) (g : Ghost) (d : Z * Z)
    (speed : Z) (dt : Q) : Ghost :=
  let dx := (inject_Z d.1 * inject_Z speed * dt)%Q in
  let dy := (inject_Z d.2 * inject_Z speed * dt)%Q in
  let g := g_set_pos g (g_x g + dx) (g_y g) in
  let g := if hits (ghost_rect g)
           then g_set_dir (g_set_pos g (g_x g - dx) (g_y g)) (0, 0) else g in
  let g := g_set_pos g (g_x g) (g_y g + dy) in
  let g := if hits (ghost_rect g)
           then g_set_dir (g_set_pos g (g_x g) (g_y g - dy)) (0, 0) else g in
  g_set_cell g (grid_pos (g_x g) (g_y g)).

(** The directions open to a ghost in eyes mode (lines 286-291). *)
Definition eyes_options (col row : Z) : list (Z * Z) :=
  filter (fun d : Z * Z =>
            is_inside_grid (col + d.1) (row + d.2) = true
            ∧ MAZE (row + d.2) (col + d.1) ≠ "1"%char) DIRS.

(** [Ghost._move_towards]; [None] is the TypeError raised by
    [self.dir[0]] when [best] stayed [None]. *)
Definition move_towards (g : Ghost) (dt : Q) (target_cell : Z * Z) : option Ghost :=
  let options := eyes_options (g_col g) (g_row g) in
  d ← (match options with
       | [] => Some (g_dir g)
       | _ => best_of Z.ltb SENTINEL (dist2 (g_col g) (g_row g) target_cell) options
       end);
  Some (ghost_move hits_wall_eyes (g_set_dir g d) d (GHOST_SPEED + 30) dt).

(** [Ghost.update]; [None] is the TypeError raised by [self.dir[0]]
    when the chosen direction is [None]. *)
Definition Ghost_update (g : Ghost) (dt : Q) (pacman : Pacman) (pick : nat)
    : option Ghost :=
  if bool_decide (mode g = eyes) then
    g ← move_towards g dt (home g);
    if bool_decide ((g_col g, g_row g) = home g)
    then Some (set_normal (g_center_in_cell (g_set_cell g (spawn g))))
    else Some g
  else
    let '(cx, cy) := grid_to_world (g_col g) (g_row g) in
    g ← (if near (g_x g) cx && near (g_y g) cy
         then
           let g := g_set_pos g (inject_Z cx) (inject_Z cy) in
           let options := candidate_dirs (g_col g) (g_row g) (g_dir g) in
           chosen ← choose_dir g options pacman pick;
           Some (g_set_dir g chosen)
         else Some g);
    Some (ghost_move hits_wall g (g_dir g) (speed g) dt).

(** ** Pellets *)

Abbreviation cells := (gset (Z * Z)).

(** A [for] loop whose body may raise. *)
Fixpoint foldM {A B : Type} (f : B -> A -> option B) (l : list A) (b : B) : option B :=
  match l with
  | [] => Some b
  | a :: l => b' ← f b a; foldM f l b'
  end.

(** The body of the inner loop of [load_dots]. *)
Definition load_cell (layout : list string) (r : Z) (acc : cells * cells) (c : Z)
    : option (cells * cells) :=
  ch ← char_at layout r c;
  Some (if bool_decide (ch = "2"%char) then ({[ (c, r) ]} ∪ acc.1, acc.2)
        else if bool_decide (ch = "3"%char) then (acc.1, {[ (c, r) ]} ∪ acc.2)
        else acc).

(** [load_dots] over an arbitrary table with its [ROWS] and [COLS]. *)
Definition load_dots_of (layout : list string) (rows cols : Z) : option (cells * cells) :=
  foldM (fun acc r => foldM (load_cell layout r) (range 0 cols) acc)
        (range 0 rows) (∅, ∅).

Definition load_dots : option (cells * cells) := load_dots_of MAZE_LAYOUT ROWS COLS.

(** The module-level constants computed from a table (lines 70-78):
    [len(MAZE_LAYOUT[0])] raises IndexError on an empty table and
    [SCREEN_WIDTH // COLS] raises ZeroDivisionError on an empty first
    row. *)
Definition module_init (layout : list string) : option (Z * Z * Z) :=
  cols ← COLS_of layout;
  let rows := ROWS_of layout in
  if (cols =? 0) || (rows =? 0) then None
  else Some (rows, cols, Z.min (SCREEN_WIDTH / cols) (SCREEN_HEIGHT / rows)).

(** Loading a table: the module constants, then [load_dots]. *)
Definition load_maze (layout : list string) : option (cells * cells) :=
  '(rows, cols, _) ← module_init layout;
  load_dots_of layout rows cols.

(** [handle_pacman_eats] *)
Definition handle_pacman_eats (pacman : Pacman) (dots power : cells)
    : bool * Pacman * cells * cells :=
  let cell := (p_col pacman, p_row pacman) in
  let '(ate, pacman, dots) :=
    if bool_decide (cell ∈ dots)
    then (true, p_set_score pacman (score pacman + DOT_SCORE), dots ∖ {[ cell ]})
    else (false, pacman, dots) in
  if bool_decide (cell ∈ power)
  then (true,
        p_set_power_timer (p_set_score pacman (score pacman + POWER_SCORE)) POWER_DURATION,
        dots, power ∖ {[ cell ]})
  else (ate, pacman, dots, power).

(** ** Collisions *)

(** [check_collisions]: the positions in [ghosts] of the ghosts whose
    rectangle overlaps the player's, in list order. *)
Fixpoint collisions_from (i : nat) (pac_rect : Rect) (ghosts : list Ghost) : list nat :=
  match ghosts with
  | [] => []
  | g :: ghosts =>
    if colliderect pac_rect (ghost_rect g)
    then i :: collisions_from (S i) pac_rect ghosts
    else collisions_from (S i) pac_rect ghosts
  end.

Definition check_collisions (pacman : Pacman) (ghosts : list Ghost) : list nat :=
  collisions_from 0 (pacman_rect pacman) ghosts.

Definition reset_ghost (g : Ghost) : Ghost :=
  set_normal (g_set_dir (g_center_in_cell (g_set_cell g (spawn g))) (0, 0)).

(** [reset_positions] *)
Definition reset_positions (pacman : Pacman) (ghosts : list Ghost)
    : Pacman * list Ghost :=
  (p_set_target_dir (p_set_dir (p_center_in_cell pacman) (0, 0)) (0, 0),
   map reset_ghost ghosts).

(** The loop [for g in hits] of [main] (lines 558-568). *)
Fixpoint resolve_hits (hits : list nat) (pacman : Pacman) (ghosts : list Ghost)
    (game_over : bool) : Pacman * list Ghost * bool :=
  match hits with
  | [] => (pacman, ghosts, game_over)
  | i :: hits =>
    match ghosts !! i with
    | None => resolve_hits hits pacman ghosts game_over
    | Some g =>
      match mode g with
      | vulnerable =>
        resolve_hits hits (p_set_score pacman (score pacman + GHOST_SCORE))
                     (<[ i := set_eyes g ]> ghosts) game_over
      | normal =>
        let pacman := p_set_lives pacman (lives pacman - 1) in
        let game_over := if lives pacman <=? 0 then true else game_over in
        let '(pacman, ghosts) := reset_positions pacman ghosts in
        (pacman, ghosts, game_over)
      | eyes => resolve_hits hits pacman ghosts game_over
      end
    end
  end.

(** ** The round *)

(** [create_ghosts] *)
Definition door_cells : list (Z * Z) :=
  r ← range 0 ROWS;
  omap (fun c => if is_char "H" r c then Some (c, r) else None) (range 0 COLS).

Definition spawn_below (h : Z * Z) : Z * Z :=
  let '(c, r) := h in
  (c, if (r + 1 <? ROWS) && bool_decide (MAZE (r + 1) c ≠ "1"%char) then r + 1 else r).

Definition ghost_defs : list Behavior := [chase; random; chase; random].

Definition create_ghosts : option (list Ghost) :=
  let '(homes, spawns) :=
    match door_cells with
    | [] => ([(COLS / 2, ROWS / 2)], [(COLS / 2, ROWS / 2 + 1)])
    | hs => (hs, map spawn_below hs)
    end in
  mapM (fun ib : nat * Behavior =>
          let i := Z.of_nat ib.1 in
          s ← py_index spawns (Z.min i (Z.of_nat (length spawns) - 1));
          h ← py_index homes (Z.min i (Z.of_nat (length homes) - 1));
          Some (Ghost_init s.1 s.2 h.1 h.2 ib.2))
       (imap pair ghost_defs).

(** The search for the player's start cell in [main] (lines 492-500). *)
Fixpoint seek_start (start_row : Z) (dcs : list Z) : Z :=
  match dcs with
  | [] => COLS / 2
  | dc :: dcs =>
    let c := COLS / 2 - dc in
    if c <? 1 then COLS / 2
    else if bool_decide (MAZE start_row c ≠ "1"%char) then c
    else seek_start start_row dcs
  end.

Definition start_cell : Z * Z :=
  let start_row := ROWS - 2 in
  (seek_start start_row (range 0 COLS), start_row).

(** The variables of [main] that the simulation reads and writes. *)
Record Game := mkGame {
  pacman : Pacman;
  dots : cells;
  power : cells;
  ghosts : list Ghost;
  game_over : bool;
  win : bool
}.

(** The initialisation in [main], also run on restart ([K_r]). *)
Definition new_game : option Game :=
  '(dots, power) ← load_dots;
  ghosts ← create_ghosts;
  Some (mkGame (Pacman_init start_cell.1 start_cell.2) dots power ghosts false false).

(** The loop [for g in ghosts: g.update(dt, pacman)]; [rnd i] is the
    index [random.choice] draws for the ghost at position [i]. *)
Fixpoint update_ghosts (gs : list Ghost) (i : nat) (dt : Q) (pacman : Pacman)
    (rnd : nat -> nat) : option (list Ghost) :=
  match gs with
  | [] => Some []
  | g :: gs =>
    g' ← Ghost_update g dt pacman (rnd i);
    gs' ← update_ghosts gs (S i) dt pacman rnd;
    Some (g' :: gs')
  end.

Definition end_power (g : Ghost) : Ghost :=
  if bool_decide (mode g = vulnerable) then set_normal g else g.

(** One iteration of the simulation part of the main loop
    (lines 535-572): "advance the simulation by [dt]". *)
Definition advance (st : Game) (dt : Q) (rnd : nat -> nat) : option Game :=
  if negb (game_over st || win st) then
    let pacman := Pacman_update (pacman st) dt in
    let '(ate, pacman, dots, power) := handle_pacman_eats pacman (dots st) (power st) in
    let ghosts :=
      if ate && Qltb 0 (power_timer pacman)
      then map set_vulnerable (ghosts st) else ghosts st in
    ghosts ← update_ghosts ghosts 0 dt pacman rnd;
    let ghosts :=
      if Qeq_bool (power_timer pacman) 0 then map end_power ghosts else ghosts in
    let hits := check_collisions pacman ghosts in
    let '(pacman, ghosts, game_over) := resolve_hits hits pacman ghosts (game_over st) in
    let win := if (Z.of_nat (size dots) + Z.of_nat (size power) =? 0) then true else win st in
    Some (mkGame pacman dots power ghosts game_over win)
  else Some st.

(** The restart on [K_r], honoured only in a terminal state
    (lines 517-525). *)
Definition restart (st : Game) : option Game :=
  if game_over st || win st then new_game else Some st.

(** A run of the simulation: one [advance] per frame, each with its
    [dt] and its random draws. *)
Fixpoint run (st : Game) (frames : list (Q * (nat -> nat))) : option Game :=
  match frames with
  | [] => Some st
  | (dt, rnd) :: frames => st' ← advance st dt rnd; run st' frames
  end.

(** ** Maze connectivity *)

(** A cell a ghost may occupy in some mode: inside the grid and not a
    ['1'] wall (corridor cells and, for ghosts in eyes mode, doors). *)
Definition passable (cell : Z * Z) : bool :=
  is_inside_grid cell.1 cell.2 && bool_decide (MAZE cell.2 cell.1 ≠ "1"%char).

Definition adjacent (a b : Z * Z) : Prop :=
  ∃ d, d ∈ DIRS ∧ b = (a.1 + d.1, a.2 + d.2).

(** Cells reachable from [a] by steps between adjacent passable cells. *)
Inductive reachable (a : Z * Z) : Z * Z → Prop :=
  | reachable_here : passable a = true → reachable a a
  | reachable_step b c :
      reachable a b → adjacent b c → passable c = true → reachable a c.

Definition on_border (cell : Z * Z) : Prop :=
  is_inside_grid cell.1 cell.2 = true
  ∧ (cell.1 = 0 ∨ cell.1 = COLS - 1 ∨ cell.2 = 0 ∨ cell.2 = ROWS - 1).

(** ** Scenarios *)

(** A frame of 17 ms, as [clock.tick(60)] reports it. *)
Definition frame : Q := 17 # 1000.
Definition no_draw : nat → nat := fun _ => 0%nat.

(** A ghost that has wandered to the centre of [cell]. *)
Definition ghost_in (cell sp hm : Z * Z) (d : Z * Z) (m : Mode) (b : Behavior) : Ghost :=
  mkGhost cell.1 cell.2 (world cell).1 (world cell).2 (TILE_SIZE / 2 - 3)
          d (0, 0) sp hm m b 0.

(** The player standing at the centre of [cell]. *)
Definition pacman_in (cell : Z * Z) (n s : Z) (t : Q) : Pacman :=
  mkPacman cell.1 cell.2 (world cell).1 (world cell).2 (TILE_SIZE / 2 - 2)
           (0, 0) (0, 0) n s t.

(** The player stands in cell (10, 29), four cells left of its start
    cell, and a ghost in normal mode has reached the same cell. *)
Definition caught_state : Game :=
  mkGame (pacman_in (10, 29) 3 120 0)
         {[ (1, 1) ]} ∅
         [ghost_in (10, 29) (12, 21) (12, 21) (1, 0) normal chase]
         false false.

(** The player, with 5 s of power left, moves left from cell (3, 29)
    across the boundary of cell (2, 29), which holds a plain dot; a ghost
    in normal mode sits at its spawn cell. *)
Definition dot_state : Game :=
  mkGame (mkPacman 3 29 (383 # 2) 565 (TILE_SIZE / 2 - 2) (-1, 0) (-1, 0) 3 120 5)
         {[ (2, 29); (1, 29) ]} {[ (1, 26) ]}
         [ghost_in (12, 21) (12, 21) (12, 21) (0, 0) normal chase]
         false false.

(** A chasing ghost at the centre of cell (5, 5), heading left along
    the corridor of row 5 (walls above and below), the player far to its
    right in the same row. *)
Definition corridor_ghost : Ghost :=
  ghost_in (5, 5) (12, 6) (12, 6) (-1, 0) normal chase.
Definition corridor_pacman : Pacman := pacman_in (20, 5) 3 0 0.


(** The player in cell (10, 29) with power left and a single
    vulnerable ghost overlapping it. *)
Definition capture_state : Game :=
  mkGame (pacman_in (10, 29) 3 120 3)
         {[ (1, 1) ]} ∅
         [ghost_in (10, 29) (12, 21) (12, 21) (1, 0) vulnerable random]
         false false.

(** A ghost in eyes mode in cell (12, 5), half a pixel above the door
    cell (12, 6) that is its home (and, in this maze, its spawn cell). *)
Definition homing_ghost : Ghost :=
  mkGhost 12 5 371 (237 # 2) (TILE_SIZE / 2 - 3) (0, 1) (0, 0)
          (12, 6) (12, 6) eyes chase 0.

(** A finished round: every pellet eaten. *)
Definition won_state : Game :=
  mkGame (pacman_in (10, 29) 3 3000 0) ∅ ∅
         [ghost_in (12, 6) (12, 6) (12, 6) (0, 0) normal chase]
         false true.

(** The round just before its last dot is eaten: the player moves left
    into cell (2, 29), which holds the only pellet left. *)
Definition last_dot_state : Game :=
  mkGame (mkPacman 3 29 (383 # 2) 565 (TILE_SIZE / 2 - 2) (-1, 0) (-1, 0) 3 120 0)
         {[ (2, 29) ]} ∅
         [ghost_in (12, 21) (12, 21) (12, 21) (0, 0) normal chase]
         false false.

(** ** Table shapes *)

(** All rows of a table have the same length. *)
Definition rectangular (layout : list string) : Prop :=
  ∀ r1 r2, r1 ∈ layout → r2 ∈ layout → String.length r1 = String.length r2.

(** ** Outcome of the collision loop, read off the list of hits *)

(** The ghosts captured in a tick: the colliding ghosts in vulnerable
    mode that are listed before the first colliding ghost in normal
    mode. *)
Fixpoint captured (hits : list nat) (ghosts : list Ghost) : list nat :=
  match hits with
  | [] => []
  | i :: hits =>
    match mode <$> ghosts !! i with
    | Some normal => []
    | Some vulnerable => i :: captured hits ghosts
    | _ => captured hits ghosts
    end
  end.

(** Some colliding ghost is in normal mode. *)
Definition life_lost (hits : list nat) (ghosts : list Ghost) : bool :=
  existsb (fun i => bool_decide (mode <$> ghosts !! i = Some normal)) hits.

(** ** Predicates used by the further properties *)

(** [q] lies in the tile-wide interval number [c] that starts at [offset]. *)
Definition in_tile (offset : Z) (q : Q) (c : Z) : Prop :=
  (inject_Z (offset + c * TILE_SIZE) <= q)%Q
  ∧ (q < inject_Z (offset + c * TILE_SIZE + TILE_SIZE))%Q.

(** The cell fields agree with the position. *)
Definition p_synced (p : Pacman) : Prop :=
  (p_col p, p_row p) = grid_pos (p_x p) (p_y p).
Definition g_synced (g : Ghost) : Prop :=
  (g_col g, g_row g) = grid_pos (g_x g) (g_y g).

(** ** The phases of a move *)

(** The turn at a cell centre that opens [Pacman.update] (lines 157-161). *)
Definition p_turn (p : Pacman) : Pacman :=
  let '(cx, cy) := grid_to_world (p_col p) (p_row p) in
  if near (p_x p) cx && near (p_y p) cy
  then p_set_dir (p_set_pos p (inject_Z cx) (inject_Z cy))
                 (try_change_dir (p_col p) (p_row p) (p_target_dir p))
  else p.

(** One axis of a move: advance by [d], undo on a hit. *)
Definition slide_x (hits : Rect → bool) (x y : Q) (radius : Z) (d : Q) : Q :=
  if hits (entity_rect (x + d) y radius) then (x + d - d)%Q else (x + d)%Q.
Definition slide_y (hits : Rect → bool) (x y : Q) (radius : Z) (d : Q) : Q :=
  if hits (entity_rect x (y + d) radius) then (y + d - d)%Q else (y + d)%Q.

(** The player's box overlaps no wall or door tile, and its fields are
    the ones [Pacman.__init__] and [Pacman.update] maintain. *)
Definition p_clear (p : Pacman) : Prop :=
  p_radius p = TILE_SIZE / 2 - 2
  ∧ p_synced p
  ∧ hits_wall (pacman_rect p) = false.

(** A ghost outside eyes mode resting at the centre of a door cell. *)
Definition door_bound (g : Ghost) : Prop :=
  is_door (g_col g) (g_row g) = true
  ∧ g_radius g = TILE_SIZE / 2 - 3
  ∧ mode g ≠ eyes
  ∧ (g_x g == (world (g_col g, g_row g)).1)%Q
  ∧ (g_y g == (world (g_col g, g_row g)).2)%Q.

(** Frame times from 0 to 150 ms. *)
Definition calm (dt : Q) : Prop := (0 <= dt)%Q ∧ (dt <= 3 # 20)%Q.

(** A state in which every ghost rests on a door cell and the player
    is clear of the walls. *)
Definition ghosts_held (st : Game) : Prop :=
  p_clear (pacman st) ∧ Forall door_bound (ghosts st).

(** The cells of the ghosts, in list order. *)
Definition ghost_cells (gs : list Ghost) : list (Z * Z) :=
  map (fun g => (g_col g, g_row g)) gs.

(** The pellets marked [ch] among the cells [(c, r)] with [r] in [rs]
    and [c] in [cs]. *)
Definition marked (layout : list string) (ch : ascii) (rs cs : list Z)
    (cell : Z * Z) : Prop :=
  cell.2 ∈ rs ∧ cell.1 ∈ cs ∧ char_at layout cell.2 cell.1 = Some ch.

(** What [create_ghosts] fixes for each ghost, in list order. *)
Definition ghost_roster (gs : list Ghost) : list (Z * Z * (Z * Z) * Behavior * Z) :=
  map (fun g => (spawn g, home g, behavior g, g_radius g)) gs.

(** Lives are not negative, and the game is over exactly at zero. *)
Definition lives_sound (st : Game) : Prop :=
  0 ≤ lives (pacman st) ∧ (game_over st = true ↔ lives (pacman st) = 0).

(** The last frame of a power window: 10 ms of power are left, and the
    ghost at its spawn cell is still vulnerable. *)
Definition fading_state : Game :=
  mkGame (pacman_in (10, 29) 3 120 (1 # 100))
         {[ (1, 1) ]} ∅
         [ghost_in (12, 21) (12, 21) (12, 21) (0, 0) vulnerable chase]
         false false.

(** ** States for the ways out of eyes mode *)

(** The player in cell (10, 29) overlapped by a ghost in normal mode,
    while a second ghost, in eyes mode, is far from its home (12, 21),
    in the corridor cell (5, 5). *)
Definition eyes_reset_state : Game :=
  mkGame (pacman_in (10, 29) 3 120 0)
         {[ (1, 1) ]} ∅
         [ghost_in (10, 29) (12, 6) (12, 6) (1, 0) normal chase;
          ghost_in (5, 5) (12, 21) (12, 21) (-1, 0) eyes chase]
         false false.

(** The player far from a single ghost in eyes mode that is about to
    cross into its home cell. *)
Definition homing_state : Game :=
  mkGame (pacman_in (10, 29) 3 120 0) {[ (1, 1) ]} ∅ [homing_ghost] false false.

(** ** The range of a stored rectangle *)

(** pygame keeps the four fields of a [Rect] in C ints.  A rectangle
    whose edges lie in that range is stored as computed. *)
Definition INT_MAX : Z := 2 ^ 31 - 1.
Definition rect_fits (a : Rect) : Prop :=
  - INT_MAX - 1 ≤ r_left a ∧ r_right a ≤ INT_MAX
  ∧ - INT_MAX - 1 ≤ r_top a ∧ r_bottom a ≤ INT_MAX.

(** * Properties *)

(** ** Basic facts about the table *)

Lemma ROWS_eq : ROWS = 31.
Proof. reflexivity. Qed.

Lemma COLS_eq : COLS = 28.
Proof. reflexivity. Qed.

Lemma elem_of_range (a b i : Z) : i ∈ range a b ↔ a ≤ i < b.
Proof.
  unfold range. rewrite list_elem_of_In, in_map_iff. split.
  - intros (n & <- & Hn). apply in_seq in Hn. lia.
  - intros Hi. exists (Z.to_nat (i - a)). split; [lia|].
    apply in_seq. lia.
Qed.

Lemma inside_grid_spec (c r : Z) :
  is_inside_grid c r = true ↔ 0 ≤ r < ROWS ∧ 0 ≤ c < COLS.
Proof.
  unfold is_inside_grid. rewrite !andb_true_iff, !Z.leb_le, !Z.ltb_lt. lia.
Qed.

Lemma tile_span_inside (rect : Rect) (r c : Z) :
  r ∈ (tile_span rect).1 → c ∈ (tile_span rect).2 → is_inside_grid c r = true.
Proof.
  unfold tile_span. cbn [fst snd]. rewrite !elem_of_range, inside_grid_spec. lia.
Qed.

(** Every guarded lookup finds a character of the table. *)
Lemma MAZE_in_bounds (c r : Z) :
  is_inside_grid c r = true → char_at MAZE_LAYOUT r c = Some (MAZE r c).
Proof.
  intros H. apply inside_grid_spec in H. rewrite ROWS_eq, COLS_eq in H.
  assert (Hall : Forall (fun r => Forall (fun c =>
            char_at MAZE_LAYOUT r c = Some (MAZE r c)) (range 0 28)) (range 0 31)).
  { apply (bool_decide_unpack _). vm_compute. reflexivity. }
  rewrite Forall_forall in Hall.
  specialize (Hall r). rewrite Forall_forall in Hall.
  apply Hall; apply elem_of_range; lia.
Qed.

(** ** Wall tests *)

Lemma existsb_orb_distr {A : Type} (f g : A → bool) (l : list A) :
  existsb (fun a => f a || g a) l = existsb f l || existsb g l.
Proof.
  induction l as [|a l IH]; [reflexivity|]. cbn. rewrite IH.
  destruct (f a), (g a), (existsb f l); reflexivity.
Qed.

Lemma existsb_ext_in {A : Type} (f g : A → bool) (l : list A) :
  (∀ a, a ∈ l → f a = g a) → existsb f l = existsb g l.
Proof.
  induction l as [|a l IH]; intros H; [reflexivity|]. cbn.
  rewrite (H a) by (left). rewrite IH; [reflexivity|].
  intros b Hb. apply H. by right.
Qed.

Lemma scan_tiles_ext (b1 b2 : Z → Z → bool) (rect : Rect) :
  (∀ r c, is_inside_grid c r = true → b1 r c = b2 r c) →
  scan_tiles b1 rect = scan_tiles b2 rect.
Proof.
  intros H. unfold scan_tiles.
  pose proof (tile_span_inside rect) as Hin.
  destruct (tile_span rect) as [rows cols]. cbn [fst snd] in Hin.
  apply existsb_ext_in. intros r Hr.
  apply existsb_ext_in. intros c Hc.
  rewrite (H r c) by auto. reflexivity.
Qed.

Lemma scan_tiles_orb (b1 b2 : Z → Z → bool) (rect : Rect) :
  scan_tiles (fun r c => b1 r c || b2 r c) rect
  = scan_tiles b1 rect || scan_tiles b2 rect.
Proof.
  unfold scan_tiles. destruct (tile_span rect) as [rows cols].
  rewrite <- existsb_orb_distr. apply existsb_ext_in. intros r _.
  rewrite <- existsb_orb_distr. apply existsb_ext_in. intros c _.
  destruct (b1 r c), (b2 r c), (colliderect rect (rect_for_cell c r)); reflexivity.
Qed.

Lemma hits_wall_split (rect : Rect) :
  hits_wall rect = hits_wall_eyes rect || overlaps_door rect.
Proof.
  unfold hits_wall, hits_wall_eyes, overlaps_door.
  rewrite scan_tiles_orb. f_equal.
  apply scan_tiles_ext. intros r c H. unfold is_door. rewrite H. reflexivity.
Qed.

(** C10.  Whenever the eyes-mode test [hits_wall_eyes] reports a
    rectangle as blocked, the ordinary test [hits_wall] reports it as
    blocked too; what [hits_wall] blocks in addition is exactly the
    overlap with a door cell: a cell of the grid is a wall for ordinary
    movement iff it is a ['1'] cell (blocking for eyes) or a door, and
    never both. *)
Theorem hits_wall_eyes_subset (rect : Rect) :
  hits_wall_eyes rect = true →
  hits_wall rect = true
  ∧ (∀ rect', hits_wall rect' = hits_wall_eyes rect' || overlaps_door rect')
  ∧ (∀ c r, is_inside_grid c r = true →
       is_wall c r = is_char "1" r c || is_door c r
       ∧ is_char "1" r c && is_door c r = false).
Proof.
  intros H. split; [|split].
  - rewrite hits_wall_split, H. reflexivity.
  - apply hits_wall_split.
  - intros c r Hin. unfold is_wall, is_door, is_char. rewrite Hin.
    split; [reflexivity|].
    destruct (bool_decide_reflect (MAZE r c = "1"%char)) as [->|]; reflexivity.
Qed.

(** A rectangle over the top-left wall tile blocks both tests; one
    inside the door tile (12, 6) blocks only [hits_wall]. *)
Lemma hits_wall_eyes_subset_witness :
  hits_wall_eyes (rect_for_cell 0 0) = true ∧ hits_wall (rect_for_cell 0 0) = true.
Proof.
  split; [reflexivity|].
  apply (hits_wall_eyes_subset (rect_for_cell 0 0)). reflexivity.
Defined.

Example door_blocks_only_hits_wall :
  hits_wall (rect_for_cell 12 6) = true ∧ hits_wall_eyes (rect_for_cell 12 6) = false.
Proof. split; reflexivity. Qed.

(** ** The power timer *)

Lemma Qltb_lt (a b : Q) : Qltb a b = true ↔ (a < b)%Q.
Proof.
  unfold Qltb. rewrite negb_true_iff, <- not_true_iff_false, Qle_bool_iff.
  split; [apply Qnot_le_lt | apply Qlt_not_le].
Qed.

Lemma Qltb_ge (a b : Q) : Qltb a b = false ↔ (b <= a)%Q.
Proof.
  unfold Qltb. rewrite negb_false_iff. apply Qle_bool_iff.
Qed.

Lemma decay_nonneg (t dt : Q) : (0 <= t)%Q → (0 <= decay t dt)%Q.
Proof.
  intros Ht. unfold decay, py_max.
  destruct (Qltb 0 t); [|exact Ht].
  destruct (Qltb 0 (t - dt)) eqn:E; [|apply Qle_refl].
  apply Qlt_le_weak, Qltb_lt, E.
Qed.

(** Case analysis on every conditional of the goal, outermost first. *)
Ltac case_ifs :=
  repeat match goal with
         | |- context [if ?b then _ else _] => destruct b
         end.

Lemma Pacman_update_power_timer (p : Pacman) (dt : Q) :
  power_timer (Pacman_update p dt) = decay (power_timer p) dt.
Proof.
  unfold Pacman_update. destruct (grid_to_world (p_col p) (p_row p)) as [cx cy].
  case_ifs; reflexivity.
Qed.

Lemma handle_pacman_eats_power_timer (p : Pacman) (d pw : cells) :
  power_timer (handle_pacman_eats p d pw).1.1.2
  = if bool_decide ((p_col p, p_row p) ∈ pw) then POWER_DURATION else power_timer p.
Proof.
  unfold handle_pacman_eats.
  destruct (bool_decide ((p_col p, p_row p) ∈ d));
    destruct (bool_decide ((p_col p, p_row p) ∈ pw)); reflexivity.
Qed.

Lemma reset_positions_pacman (p : Pacman) (gs : list Ghost) :
  let p' := (reset_positions p gs).1 in
  power_timer p' = power_timer p ∧ lives p' = lives p ∧ score p' = score p
  ∧ (p_col p', p_row p') = (p_col p, p_row p).
Proof.
  unfold reset_positions, p_center_in_cell. cbn.
  destruct (grid_to_world (p_col p) (p_row p)). cbn. auto.
Qed.

Lemma resolve_hits_power_timer (hits : list nat) (p : Pacman) (gs : list Ghost)
    (go : bool) :
  power_timer (resolve_hits hits p gs go).1.1 = power_timer p.
Proof.
  revert p gs go. induction hits as [|i hits IH]; intros p gs go; [reflexivity|].
  cbn [resolve_hits]. destruct (gs !! i) as [g|]; [|apply IH].
  destruct (mode g).
  - pose proof (reset_positions_pacman (p_set_lives p (lives p - 1)) gs) as H.
    destruct (reset_positions _ gs) as [p' gs']. cbn in *. tauto.
  - rewrite IH. reflexivity.
  - apply IH.
Qed.

Lemma advance_power_timer (st st' : Game) (dt : Q) (rnd : nat → nat) :
  advance st dt rnd = Some st' →
  game_over st || win st = false →
  power_timer (pacman st')
  = power_timer (handle_pacman_eats (Pacman_update (pacman st) dt) (dots st) (power st)).1.1.2.
Proof.
  unfold advance. intros H Hterm. rewrite Hterm in H. cbn [negb] in H.
  destruct (handle_pacman_eats _ _ _) as [[[ate p2] d2] pw2]. cbn [fst snd].
  destruct (update_ghosts _ 0 dt p2 rnd) as [gs2|]; [|discriminate].
  cbn in H.
  match type of H with
  | context [resolve_hits ?h ?p ?g ?b] =>
      pose proof (resolve_hits_power_timer h p g b) as Hp;
      destruct (resolve_hits h p g b) as [[p3 gs3] go3]
  end.
  injection H as <-. exact Hp.
Qed.

Lemma eats_power_timer_nonneg (p : Pacman) (d pw : cells) :
  (0 <= power_timer p)%Q → (0 <= power_timer (handle_pacman_eats p d pw).1.1.2)%Q.
Proof.
  intros H. rewrite handle_pacman_eats_power_timer.
  destruct (bool_decide _); [discriminate | exact H].
Qed.

Lemma advance_power_timer_nonneg (st st' : Game) (dt : Q) (rnd : nat → nat) :
  advance st dt rnd = Some st' →
  (0 <= power_timer (pacman st))%Q → (0 <= power_timer (pacman st'))%Q.
Proof.
  intros Hadv Ht. destruct (game_over st || win st) eqn:Hterm.
  - unfold advance in Hadv. rewrite Hterm in Hadv. cbn in Hadv.
    injection Hadv as <-. exact Ht.
  - rewrite (advance_power_timer st st' dt rnd Hadv Hterm).
    apply eats_power_timer_nonneg. rewrite Pacman_update_power_timer.
    apply decay_nonneg, Ht.
Qed.

Lemma run_power_timer_nonneg (frames : list (Q * (nat → nat))) (st st' : Game) :
  run st frames = Some st' →
  (0 <= power_timer (pacman st))%Q → (0 <= power_timer (pacman st'))%Q.
Proof.
  revert st. induction frames as [|[dt rnd] frames IH]; intros st; cbn [run].
  - intros [= <-] H. exact H.
  - destruct (advance st dt rnd) as [st1|] eqn:Hadv; [|discriminate].
    cbn [mbind option_bind]. intros Hrun Ht.
    apply (IH st1 Hrun). apply (advance_power_timer_nonneg st st1 dt rnd Hadv Ht).
Qed.

(** C9.  The power timer never becomes negative.  In [Pacman.update] a
    positive timer [t] becomes [t - dt] when that is still positive and
    [0] otherwise (the floor), and a timer at zero stays there; eating a
    power pellet sets it to [POWER_DURATION] whatever time was left (it
    replaces, it does not add), and nothing else in a tick changes it,
    so it is non-negative after every tick and along every run. *)
Theorem power_timer_never_negative (st : Game) (dt : Q) (rnd : nat → nat) :
  (0 <= power_timer (pacman st))%Q →
  let t := power_timer (pacman st) in
  let p1 := Pacman_update (pacman st) dt in
  let p2 := (handle_pacman_eats p1 (dots st) (power st)).1.1.2 in
  (0 <= power_timer p1)%Q
  ∧ ((0 < t)%Q → (0 < t - dt)%Q → power_timer p1 = (t - dt)%Q)
  ∧ ((0 < t)%Q → (t - dt <= 0)%Q → power_timer p1 = 0%Q)
  ∧ ((t <= 0)%Q → power_timer p1 = t)
  ∧ ((p_col p1, p_row p1) ∈ power st → power_timer p2 = POWER_DURATION)
  ∧ ((p_col p1, p_row p1) ∉ power st → power_timer p2 = power_timer p1)
  ∧ (0 <= power_timer p2)%Q
  ∧ (∀ st', advance st dt rnd = Some st' → (0 <= power_timer (pacman st'))%Q)
  ∧ (∀ frames st', run st frames = Some st' → (0 <= power_timer (pacman st'))%Q).
Proof.
  intros Ht t p1 p2.
  assert (H1 : power_timer p1 = decay t dt) by apply Pacman_update_power_timer.
  assert (H2 : power_timer p2
               = if bool_decide ((p_col p1, p_row p1) ∈ power st)
                 then POWER_DURATION else power_timer p1)
    by apply handle_pacman_eats_power_timer.
  assert (Hn1 : (0 <= power_timer p1)%Q) by (rewrite H1; apply decay_nonneg, Ht).
  assert (Hn2 : (0 <= power_timer p2)%Q) by (apply eats_power_timer_nonneg, Hn1).
  repeat split; try assumption.
  - intros Hpos Hrest. rewrite H1. unfold decay, py_max.
    apply Qltb_lt in Hpos, Hrest. rewrite Hpos, Hrest. reflexivity.
  - intros Hpos Hrest. rewrite H1. unfold decay, py_max.
    apply Qltb_lt in Hpos. apply Qltb_ge in Hrest. rewrite Hpos, Hrest. reflexivity.
  - intros Hz. rewrite H1. unfold decay.
    apply Qltb_ge in Hz. rewrite Hz. reflexivity.
  - intros Hin. rewrite H2, bool_decide_eq_true_2 by exact Hin. reflexivity.
  - intros Hin. rewrite H2, bool_decide_eq_false_2 by exact Hin. reflexivity.
  - intros st' Hadv. apply (advance_power_timer_nonneg st st' dt rnd Hadv Ht).
  - intros frames st' Hrun. apply (run_power_timer_nonneg frames st st' Hrun Ht).
Qed.

(** ** The maze table *)

Lemma row_24_is_wall (c : Z) : 0 ≤ c < COLS → MAZE 24 c = "1"%char.
Proof.
  intros Hc.
  assert (Hall : Forall (fun c => MAZE 24 c = "1"%char) (range 0 COLS)).
  { apply (bool_decide_unpack _). vm_compute. reflexivity. }
  rewrite Forall_forall in Hall. apply Hall, elem_of_range. exact Hc.
Qed.

(** Nothing above row 25 is reachable from the start cell: row 24 is a
    solid wall from side to side. *)
Lemma reachable_below_row_24 (b : Z * Z) : reachable start_cell b → 25 ≤ b.2.
Proof.
  induction 1 as [_|b c _ IH (d & Hd & ->) Hpass].
  - vm_compute. discriminate.
  - unfold passable in Hpass. cbn [fst snd] in *.
    apply andb_true_iff in Hpass as [Hin Hch].
    apply bool_decide_eq_true in Hch. apply inside_grid_spec in Hin.
    assert (Hd2 : -1 ≤ d.2).
    { unfold DIRS in Hd. set_unfold in Hd.
      destruct Hd as [->|[->|[->|[->|[]]]]]; cbn; lia. }
    destruct (decide (b.2 + d.2 = 24)) as [E|]; [|lia].
    exfalso. apply Hch. rewrite E. apply row_24_is_wall. lia.
Qed.

(** C4.  The table breaks the well-formedness invariant on both counts.
    The border cell (0, 10) is an empty corridor, not a wall; and the
    dot cell (1, 1) cannot be reached from the player's start cell
    (14, 29), even when doors are taken as passable. *)
Theorem maze_border_open_and_disconnected :
  start_cell = (14, 29)
  ∧ on_border (0, 10) ∧ MAZE 10 0 = "0"%char ∧ is_wall 0 10 = false
  ∧ MAZE 1 1 = "2"%char ∧ passable (1, 1) = true
  ∧ ¬ reachable start_cell (1, 1).
Proof.
  split; [reflexivity|]. split; [split; [reflexivity | left; reflexivity]|].
  do 4 (split; [reflexivity|]).
  intros H. apply reachable_below_row_24 in H. cbn in H. lia.
Qed.

(** ** The candidate directions of a ghost *)

(** C3.  The reverse of the current direction is offered although
    another direction is open.  A ghost at the centre of cell (5, 5)
    heading left has the corridor open ahead of it, yet its candidate
    list holds the reverse direction (right) as well, and a chasing
    ghost whose target lies to the right takes it: a U-turn that is not
    forced by a dead end. *)
Theorem reverse_offered_in_open_corridor :
  g_dir corridor_ghost = (-1, 0)
  ∧ is_wall (5 - 1) 5 = false
  ∧ candidate_dirs 5 5 (-1, 0) = [(1, 0); (-1, 0)]
  ∧ neg_dir (-1, 0) = (1, 0)
  ∧ g_dir <$> Ghost_update corridor_ghost frame corridor_pacman 0 = Some (1, 0).
Proof. repeat split; vm_compute; reflexivity. Qed.

(** ** Collision with a ghost in normal mode *)

(** C1.  On a collision with a ghost in normal mode the player loses one
    life and every ghost is put back on its spawn cell, centred, with
    its direction cleared; the player's direction is cleared too, but
    the player is only centred in the cell it occupies, here (10, 29),
    and is not put back on its start cell (14, 29). *)
Theorem life_loss_leaves_player_in_place :
  ∃ st', advance caught_state frame no_draw = Some st'
    ∧ lives (pacman st') = lives (pacman caught_state) - 1
    ∧ Forall (fun g => (g_col g, g_row g) = spawn g
                       ∧ (g_x g, g_y g) = world (spawn g)
                       ∧ g_dir g = (0, 0) ∧ mode g = normal) (ghosts st')
    ∧ p_dir (pacman st') = (0, 0)
    ∧ (p_col (pacman st'), p_row (pacman st')) = (10, 29)
    ∧ (p_x (pacman st'), p_y (pacman st')) = world (10, 29)
    ∧ start_cell = (14, 29).
Proof.
  eexists. split; [vm_compute; reflexivity|].
  cbn [pacman ghosts lives p_dir p_col p_row p_x p_y].
  repeat split. repeat constructor.
Qed.

(** ** The vulnerability broadcast *)

(** C2.  A plain dot sets a ghost in normal mode vulnerable.  The player
    still has power time left and eats the dot of cell (2, 29): no power
    pellet is consumed in the tick, and the ghost that was in normal
    mode is vulnerable after it. *)
Theorem plain_dot_makes_ghost_vulnerable :
  ∃ st', advance dot_state frame no_draw = Some st'
    ∧ power st' = power dot_state
    ∧ dots st' = dots dot_state ∖ {[ (2, 29) ]}
    ∧ score (pacman st') = score (pacman dot_state) + DOT_SCORE
    ∧ mode <$> ghosts dot_state = [normal]
    ∧ mode <$> ghosts st' = [vulnerable].
Proof.
  eexists. split; [vm_compute; reflexivity|].
  cbn [pacman ghosts power dots score].
  repeat split; vm_compute; reflexivity.
Qed.

(** ** Terminal states *)

Lemma resolve_hits_lives (hits : list nat) (p : Pacman) (gs : list Ghost) (go : bool) :
  let res := resolve_hits hits p gs go in
  (lives res.1.1 = lives p ∧ res.2 = go)
  ∨ (lives res.1.1 = lives p - 1
     ∧ res.2 = if lives p - 1 <=? 0 then true else go).
Proof.
  revert p gs go. induction hits as [|i hits IH]; intros p gs go; [left; done|].
  cbn [resolve_hits]. destruct (gs !! i) as [g|]; [|apply IH].
  destruct (mode g).
  - right.
    pose proof (reset_positions_pacman (p_set_lives p (lives p - 1)) gs) as H.
    destruct (reset_positions _ gs) as [p' gs']. cbn in *.
    destruct H as (_ & -> & _). done.
  - apply (IH (p_set_score p (score p + GHOST_SCORE))).
  - apply IH.
Qed.

Lemma Pacman_update_lives (p : Pacman) (dt : Q) :
  lives (Pacman_update p dt) = lives p.
Proof.
  unfold Pacman_update. destruct (grid_to_world (p_col p) (p_row p)) as [cx cy].
  case_ifs; reflexivity.
Qed.

Lemma handle_pacman_eats_lives (p : Pacman) (d pw : cells) :
  lives (handle_pacman_eats p d pw).1.1.2 = lives p.
Proof.
  unfold handle_pacman_eats.
  destruct (bool_decide ((p_col p, p_row p) ∈ d));
    destruct (bool_decide ((p_col p, p_row p) ∈ pw)); reflexivity.
Qed.

Lemma frozen_advance (st : Game) (dt : Q) (rnd : nat → nat) :
  game_over st || win st = true → advance st dt rnd = Some st.
Proof. intros H. unfold advance. rewrite H. reflexivity. Qed.

Lemma frozen_run (st : Game) (frames : list (Q * (nat → nat))) :
  game_over st || win st = true → run st frames = Some st.
Proof.
  intros H. induction frames as [|[dt rnd] frames IH]; [reflexivity|].
  cbn [run]. rewrite frozen_advance by exact H. exact IH.
Qed.

(** C8.  A tick of a live round ends in Win exactly when both pellet
    sets are empty at its end, and in Game Over exactly when the lives
    have reached zero; in a terminal state [advance] returns the state
    unchanged, for any [dt] and any number of further frames, so nothing
    moves, nothing is eaten, no mode changes and no collision is
    processed; only the restart key replaces the state, by a new
    game. *)
Theorem terminal_states_freeze (st : Game) (dt : Q) (rnd : nat → nat) :
  (game_over st || win st = true →
     advance st dt rnd = Some st
     ∧ (∀ frames, run st frames = Some st)
     ∧ restart st = new_game)
  ∧ (game_over st || win st = false →
     ∀ st', advance st dt rnd = Some st' →
       (win st' = true ↔ dots st' = ∅ ∧ power st' = ∅)
       ∧ (0 < lives (pacman st) →
          (game_over st' = true ↔ lives (pacman st') ≤ 0))).
Proof.
  split.
  - intros H. split; [apply frozen_advance, H|]. split.
    + intros frames. apply frozen_run, H.
    + unfold restart. rewrite H. reflexivity.
  - intros Hlive st' Hadv.
    apply orb_false_iff in Hlive as [Hgo Hwin].
    unfold advance in Hadv. rewrite Hgo, Hwin in Hadv. cbn [orb negb] in Hadv.
    pose proof (handle_pacman_eats_lives (Pacman_update (pacman st) dt)
                  (dots st) (power st)) as Hp2.
    rewrite Pacman_update_lives in Hp2.
    destruct (handle_pacman_eats _ _ _) as [[[ate p2] d2] pw2].
    cbn [fst snd] in Hp2.
    destruct (update_ghosts _ 0 dt p2 rnd) as [gs2|]; [|discriminate].
    cbn [mbind option_bind] in Hadv.
    match type of Hadv with
    | context [resolve_hits ?h ?p ?g ?b] =>
        pose proof (resolve_hits_lives h p g b) as Hres;
        destruct (resolve_hits h p g b) as [[p3 gs3] go3]
    end.
    cbn [fst snd] in Hres. injection Hadv as <-. cbn [win dots power game_over pacman].
    split.
    + destruct (Z.eqb_spec (Z.of_nat (size d2) + Z.of_nat (size pw2)) 0) as [E|E].
      * split; [intros _|reflexivity].
        split; apply leibniz_equiv, size_empty_iff; lia.
      * split; [discriminate|]. intros [-> ->]. exfalso. apply E.
        rewrite size_empty. reflexivity.
    + intros Hpos. rewrite Hp2 in Hres.
      destruct Hres as [[-> ->]|[-> ->]].
      * split; [discriminate | lia].
      * destruct (Z.leb_spec (lives (pacman st) - 1) 0); split; try done; lia.
Qed.

Lemma terminal_states_freeze_witness :
  (game_over won_state || win won_state = true
   ∧ advance won_state frame no_draw = Some won_state)
  ∧ (game_over last_dot_state || win last_dot_state = false
     ∧ ∀ st', advance last_dot_state frame no_draw = Some st' →
         (win st' = true ↔ dots st' = ∅ ∧ power st' = ∅)
         ∧ (0 < lives (pacman last_dot_state) →
            (game_over st' = true ↔ lives (pacman st') ≤ 0))).
Proof.
  split; (split; [reflexivity|]).
  - apply (proj1 (terminal_states_freeze won_state frame no_draw)). reflexivity.
  - apply (proj2 (terminal_states_freeze last_dot_state frame no_draw)). reflexivity.
Defined.

Lemma power_timer_never_negative_witness :
  (0 <= power_timer (pacman dot_state))%Q
  ∧ (0 <= power_timer (Pacman_update (pacman dot_state) frame))%Q
  ∧ ∀ st', advance dot_state frame no_draw = Some st' →
      (0 <= power_timer (pacman st'))%Q.
Proof.
  assert (H0 : (0 <= power_timer (pacman dot_state))%Q) by (vm_compute; discriminate).
  split; [exact H0|].
  destruct (power_timer_never_negative dot_state frame no_draw H0)
    as (H1 & _ & _ & _ & _ & _ & _ & H2 & _).
  split; [exact H1 | exact H2].
Defined.

(** ** Ghosts in eyes mode *)

Lemma best_fold_Some (better : Z → Z → bool) (dist : Z * Z → Z)
    (options : list (Z * Z)) (acc : option (Z * Z) * Z) :
  is_Some acc.1 → is_Some (fold_left (best_step better dist) options acc).1.
Proof.
  revert acc. induction options as [|d options IH]; intros acc H; [exact H|].
  cbn [fold_left]. apply IH. unfold best_step.
  destruct (better (dist d) acc.2); [cbn; eauto | exact H].
Qed.

Lemma best_of_lt_Some (sentinel : Z) (dist : Z * Z → Z) (d : Z * Z)
    (options : list (Z * Z)) :
  dist d < sentinel → is_Some (best_of Z.ltb sentinel dist (d :: options)).
Proof.
  intros H. unfold best_of. cbn [fold_left]. apply best_fold_Some.
  unfold best_step. cbn [snd]. apply Z.ltb_lt in H. rewrite H. cbn. eauto.
Qed.

Lemma dist2_in_grid (col row : Z) (target d : Z * Z) :
  is_inside_grid col row = true →
  is_inside_grid target.1 target.2 = true →
  d ∈ DIRS →
  dist2 col row target d < SENTINEL.
Proof.
  rewrite !inside_grid_spec, ROWS_eq, COLS_eq. intros Hc Ht Hd.
  unfold dist2, SENTINEL. rewrite !Z.pow_2_r.
  unfold DIRS in Hd. set_unfold in Hd.
  destruct Hd as [->|[->|[->|[->|[]]]]]; cbn [fst snd]; nia.
Qed.

Lemma eyes_options_DIRS (col row : Z) (d : Z * Z) :
  d ∈ eyes_options col row → d ∈ DIRS.
Proof. unfold eyes_options. rewrite list_elem_of_filter. tauto. Qed.

Lemma ghost_move_fields (hits : Rect → bool) (g : Ghost) (d : Z * Z)
    (sp : Z) (dt : Q) :
  let g' := ghost_move hits g d sp dt in
  mode g' = mode g ∧ home g' = home g ∧ spawn g' = spawn g.
Proof.
  unfold ghost_move. case_ifs; cbn; auto.
Qed.

(** [_move_towards] returns (it does not raise) for a ghost inside the
    grid whose home is inside the grid, and leaves mode, home and spawn
    as they were. *)
Lemma move_towards_total (g : Ghost) (dt : Q) :
  is_inside_grid (g_col g) (g_row g) = true →
  is_inside_grid (home g).1 (home g).2 = true →
  ∃ moved, move_towards g dt (home g) = Some moved
           ∧ mode moved = mode g ∧ home moved = home g ∧ spawn moved = spawn g.
Proof.
  intros Hc Hh. unfold move_towards.
  pose proof (eyes_options_DIRS (g_col g) (g_row g)) as Hopts.
  destruct (eyes_options (g_col g) (g_row g)) as [|d options].
  - cbn [mbind option_bind]. eexists. split; [reflexivity|].
    apply (ghost_move_fields hits_wall_eyes (g_set_dir g (g_dir g))).
  - destruct (best_of_lt_Some SENTINEL (dist2 (g_col g) (g_row g) (home g)) d options)
      as [best Hbest].
    { apply dist2_in_grid; [exact Hc | exact Hh | apply Hopts; left]. }
    rewrite Hbest. cbn [mbind option_bind]. eexists. split; [reflexivity|].
    apply (ghost_move_fields hits_wall_eyes (g_set_dir g best)).
Qed.

(** [Ghost.update] alone, on a ghost in eyes mode inside the grid: it
    returns, and the ghost is back in normal mode after it exactly when
    the cell it has moved to is its home cell; it is then placed on its
    spawn cell (the [spawn] field, not [home]) at the centre of that
    cell.  Otherwise it stays in eyes mode where the move left it. *)
Lemma eyes_return_home (g : Ghost) (dt : Q) (pacman : Pacman) (pick : nat) :
  mode g = eyes →
  is_inside_grid (g_col g) (g_row g) = true →
  is_inside_grid (home g).1 (home g).2 = true →
  ∃ moved g',
    move_towards g dt (home g) = Some moved
    ∧ Ghost_update g dt pacman pick = Some g'
    ∧ (mode g' = normal ↔ (g_col moved, g_row moved) = home g)
    ∧ (mode g' = normal →
         (g_col g', g_row g') = spawn g ∧ (g_x g', g_y g') = world (spawn g))
    ∧ (mode g' ≠ normal → g' = moved ∧ mode g' = eyes).
Proof.
  intros Hmode Hc Hh.
  destruct (move_towards_total g dt Hc Hh) as (moved & Hmv & Hm & Hhome & Hspawn).
  exists moved. unfold Ghost_update.
  rewrite bool_decide_eq_true_2 by exact Hmode. rewrite Hmv. cbn [mbind option_bind].
  rewrite Hhome.
  destruct (bool_decide_reflect ((g_col moved, g_row moved) = home g)) as [E|E].
  - eexists. split; [reflexivity|]. split; [reflexivity|].
    unfold g_center_in_cell. cbn [g_set_cell g_col g_row].
    destruct (grid_to_world (spawn moved).1 (spawn moved).2) as [x y] eqn:Hw.
    cbn. rewrite <- Hspawn. unfold world. rewrite Hw. cbn.
    split; [tauto|]. split; [|done].
    intros _. split; [|reflexivity]. destruct (spawn moved); reflexivity.
  - exists moved. split; [reflexivity|]. split; [reflexivity|].
    rewrite Hm, Hmode. split; [|split]; [split| |]; try done.
Qed.

(** The ghost [homing_ghost] does arrive: it crosses into its home cell
    (12, 6) and is respawned in normal mode. *)
Example homing_ghost_arrives :
  (fun g => (g_col g, g_row g, mode g)) <$> Ghost_update homing_ghost frame corridor_pacman 0
  = Some (12, 6, normal).
Proof. vm_compute. reflexivity. Qed.

(** ** Loading a table *)

Lemma length_list_ascii (s : string) :
  length (list_ascii_of_string s) = String.length s.
Proof. induction s as [|a s IH]; [reflexivity|]. cbn. rewrite IH. reflexivity. Qed.

Lemma py_index_nonneg {A : Type} (l : list A) (i : Z) :
  0 ≤ i → py_index l i = l !! Z.to_nat i.
Proof. intros H. unfold py_index. apply Z.leb_le in H. rewrite H. reflexivity. Qed.

Lemma char_at_is_Some (layout : list string) (r c : Z) :
  0 ≤ r → 0 ≤ c →
  is_Some (char_at layout r c)
  ↔ ∃ row, layout !! Z.to_nat r = Some row ∧ (Z.to_nat c < String.length row)%nat.
Proof.
  intros Hr Hc. unfold char_at. rewrite py_index_nonneg by exact Hr.
  destruct (layout !! Z.to_nat r) as [row|]; cbn [mbind option_bind].
  - rewrite py_index_nonneg by exact Hc.
    rewrite lookup_lt_is_Some, length_list_ascii. split; [eauto|].
    intros (row' & [= <-] & H). exact H.
  - split; [intros [? [=]] | intros (? & [=] & _)].
Qed.

Section foldM_facts.
Context {A B : Type} (f : B → A → option B) (P : A → Prop).
(** Whether the body raises depends on the element only. *)
Hypothesis body_is_Some : ∀ b a, is_Some (f b a) ↔ P a.

Lemma foldM_is_Some (l : list A) (b : B) :
  is_Some (foldM f l b) ↔ Forall P l.
Proof.
  revert b. induction l as [|a l IH]; intros b; cbn [foldM].
  - split; [constructor | eauto].
  - rewrite Forall_cons. pose proof (body_is_Some b a) as Hf.
    destruct (f b a) as [b'|]; cbn [mbind option_bind].
    + rewrite IH. split; [intros H | tauto]. split; [apply Hf; eauto | exact H].
    + split; [intros [? [=]] | intros [H _]]. apply Hf in H as [? [=]].
Qed.
End foldM_facts.

Lemma load_cell_is_Some (layout : list string) (r : Z) (acc : cells * cells) (c : Z) :
  is_Some (load_cell layout r acc c) ↔ is_Some (char_at layout r c).
Proof.
  unfold load_cell. destruct (char_at layout r c); cbn [mbind option_bind].
  - split; eauto.
  - split; intros [? [=]].
Qed.

Lemma load_dots_of_is_Some (layout : list string) (rows cols : Z) :
  is_Some (load_dots_of layout rows cols)
  ↔ ∀ r c, 0 ≤ r < rows → 0 ≤ c < cols → is_Some (char_at layout r c).
Proof.
  unfold load_dots_of.
  rewrite (foldM_is_Some _
             (fun r => Forall (fun c => is_Some (char_at layout r c)) (range 0 cols))).
  - rewrite Forall_forall. setoid_rewrite Forall_forall.
    setoid_rewrite elem_of_range. split; intros H; intros; apply H; assumption.
  - intros acc r. apply foldM_is_Some. intros acc' c. apply load_cell_is_Some.
Qed.

(** C5.  The table is not validated.  Loading (the module constants,
    then [load_dots]) succeeds exactly when the table has a first row,
    that row is not empty, and no row is shorter than the first; rows
    longer than the first are accepted and their extra characters are
    never read.  Only a row shorter than the first makes loading fail
    (with the IndexError of the lookup). *)
Theorem load_maze_accepts_iff (layout : list string) :
  is_Some (load_maze layout)
  ↔ ∃ row0 rest, layout = row0 :: rest
      ∧ (0 < String.length row0)%nat
      ∧ Forall (fun row => (String.length row0 ≤ String.length row)%nat) layout.
Proof.
  destruct layout as [|row0 rest].
  { cbn. split; [intros [? [=]] | intros (? & ? & [=] & _)]. }
  set (layout := row0 :: rest).
  assert (Hinit : module_init layout
                  = if Z.of_nat (String.length row0) =? 0 then None
                    else Some (Z.of_nat (length layout), Z.of_nat (String.length row0),
                               Z.min (SCREEN_WIDTH / Z.of_nat (String.length row0))
                                     (SCREEN_HEIGHT / Z.of_nat (length layout)))).
  { unfold module_init, COLS_of, ROWS_of. rewrite py_index_nonneg by lia.
    change (layout !! Z.to_nat 0) with (Some row0). cbn [mbind option_bind].
    destruct (Z.of_nat (String.length row0) =? 0); [reflexivity|].
    destruct (Z.eqb_spec (Z.of_nat (length layout)) 0) as [E1|_]; [cbn in E1; lia|].
    reflexivity. }
  unfold load_maze. rewrite Hinit. clear Hinit.
  destruct (Z.eqb_spec (Z.of_nat (String.length row0)) 0) as [E0|E0].
  { cbn [mbind option_bind].
    split; [intros [? [=]] | intros (r & ? & [= <- _] & H & _); lia]. }
  cbn [mbind option_bind]. rewrite load_dots_of_is_Some.
  split.
  - intros H. exists row0, rest. split; [reflexivity|]. split; [lia|].
    apply Forall_lookup. intros i row Hi.
    destruct (H (Z.of_nat i) (Z.of_nat (String.length row0) - 1)) as [ch Hch].
    { apply lookup_lt_Some in Hi. lia. }
    { lia. }
    assert (Hs : is_Some (char_at layout (Z.of_nat i)
                            (Z.of_nat (String.length row0) - 1))) by eauto.
    apply char_at_is_Some in Hs; [|lia..].
    destruct Hs as (row' & Hrow' & Hlt). rewrite Nat2Z.id, Hi in Hrow'.
    injection Hrow' as <-. lia.
  - intros (r & rest' & [= <- <-] & Hpos & Hall) i c Hi Hc.
    apply char_at_is_Some; [lia..|].
    destruct (lookup_lt_is_Some_2 layout (Z.to_nat i)) as [row Hrow]; [lia|].
    exists row. split; [exact Hrow|].
    rewrite Forall_lookup in Hall. specialize (Hall _ _ Hrow). lia.
Qed.

(** The table of the game has rows of 28 and of 29 characters, and it
    loads: the claim that a non-rectangular table is rejected fails on
    the program's own maze. *)
Lemma ragged_maze_is_loaded :
  ¬ rectangular MAZE_LAYOUT ∧ is_Some (load_maze MAZE_LAYOUT) ∧ is_Some new_game.
Proof.
  split; [|split].
  - intros H.
    specialize (H "1111111111111111111111111111"%string
                  "121111211111H1111112111111121"%string).
    cbn in H. assert (28 = 29)%nat as [=].
    apply H; set_solver.
  - apply (bool_decide_unpack _). vm_compute. reflexivity.
  - apply (bool_decide_unpack _). vm_compute. reflexivity.
Qed.

(** ** Collision resolution *)

Lemma collisions_from_spec (i : nat) (r : Rect) (gs : list Ghost) (j : nat) :
  j ∈ collisions_from i r gs
  ↔ (i ≤ j)%nat ∧ ∃ g, gs !! (j - i)%nat = Some g ∧ colliderect r (ghost_rect g) = true.
Proof.
  revert i. induction gs as [|g gs IH]; intros i; cbn [collisions_from].
  - split; [intros H; inversion H | intros (_ & g & [=] & _)].
  - assert (Hrest : j ∈ collisions_from (S i) r gs
              ↔ (i < j)%nat ∧ ∃ g', (g :: gs) !! (j - i)%nat = Some g'
                                    ∧ colliderect r (ghost_rect g') = true).
    { rewrite IH. split.
      - intros (Hle & g' & Hg' & Hc). split; [lia|]. exists g'. split; [|exact Hc].
        replace (j - i)%nat with (S (j - S i)) by lia. exact Hg'.
      - intros (Hlt & g' & Hg' & Hc). split; [lia|]. exists g'. split; [|exact Hc].
        replace (j - i)%nat with (S (j - S i)) in Hg' by lia. exact Hg'. }
    destruct (colliderect r (ghost_rect g)) eqn:Hg.
    + rewrite elem_of_cons, Hrest. split.
      * intros [->|(Hlt & H)]; [|split; [lia | exact H]].
        split; [lia|]. exists g. rewrite Nat.sub_diag. auto.
      * intros (Hle & H). destruct (decide (j = i)) as [->|]; [left; done|].
        right. split; [lia | exact H].
    + rewrite Hrest. split.
      * intros (Hlt & H). split; [lia | exact H].
      * intros (Hle & g' & Hg' & Hc). destruct (decide (j = i)) as [->|].
        { rewrite Nat.sub_diag in Hg'. injection Hg' as <-. congruence. }
        split; [lia|]. eauto.
Qed.

Lemma collisions_from_NoDup (i : nat) (r : Rect) (gs : list Ghost) :
  NoDup (collisions_from i r gs).
Proof.
  revert i. induction gs as [|g gs IH]; intros i; cbn [collisions_from].
  - constructor.
  - destruct (colliderect r (ghost_rect g)); [|apply IH].
    constructor; [|apply IH]. rewrite collisions_from_spec. lia.
Qed.


Lemma captured_insert (hits : list nat) (gs : list Ghost) (i : nat) (g : Ghost) :
  i ∉ hits → captured hits (<[ i := g ]> gs) = captured hits gs.
Proof.
  induction hits as [|j hits IH]; intros Hi; [reflexivity|].
  apply not_elem_of_cons in Hi as [Hij Hi]. cbn [captured].
  rewrite list_lookup_insert_ne by exact Hij. rewrite IH by exact Hi. reflexivity.
Qed.

Lemma life_lost_insert (hits : list nat) (gs : list Ghost) (i : nat) (g : Ghost) :
  i ∉ hits → life_lost hits (<[ i := g ]> gs) = life_lost hits gs.
Proof.
  unfold life_lost. induction hits as [|j hits IH]; intros Hi; [reflexivity|].
  apply not_elem_of_cons in Hi as [Hij Hi]. cbn [existsb].
  rewrite list_lookup_insert_ne by exact Hij. rewrite IH by exact Hi. reflexivity.
Qed.

Lemma captured_subseteq (hits : list nat) (gs : list Ghost) (i : nat) :
  i ∈ captured hits gs → i ∈ hits.
Proof.
  induction hits as [|j hits IH]; cbn [captured]; [done|].
  rewrite elem_of_cons.
  destruct (mode <$> gs !! j) as [[]|]; rewrite ?elem_of_cons.
  - intros H. inversion H.
  - intros [->|H]; auto.
  - auto.
  - auto.
Qed.

(** With no colliding ghost in normal mode, the captured ghosts are all
    the colliding ghosts in vulnerable mode. *)
Lemma captured_all (hits : list nat) (gs : list Ghost) (i : nat) :
  life_lost hits gs = false →
  i ∈ captured hits gs ↔ i ∈ hits ∧ mode <$> gs !! i = Some vulnerable.
Proof.
  unfold life_lost. induction hits as [|j hits IH]; cbn [captured existsb].
  - intros _. split; [intros H | intros [H _]]; inversion H.
  - intros H. apply orb_false_iff in H as [Hj H]. specialize (IH H).
    apply bool_decide_eq_false in Hj.
    destruct (mode <$> gs !! j) as [[]|] eqn:Ej; [done|..];
      rewrite ?elem_of_cons, IH; clear IH.
    + split; [intros [->|[? ?]]; auto | intros [[->|?] ?]; auto].
    + split; [intros [? ?]; auto | intros [[->|?] ?]; [congruence | auto]].
    + split; [intros [? ?]; auto | intros [[->|?] ?]; [congruence | auto]].
Qed.

Lemma reset_ghost_fields (g : Ghost) :
  mode (reset_ghost g) = normal
  ∧ (g_col (reset_ghost g), g_row (reset_ghost g)) = spawn g
  ∧ (g_x (reset_ghost g), g_y (reset_ghost g)) = world (spawn g)
  ∧ g_dir (reset_ghost g) = (0, 0)
  ∧ spawn (reset_ghost g) = spawn g.
Proof.
  unfold reset_ghost, g_center_in_cell, world. cbn [g_set_cell g_col g_row].
  destruct (grid_to_world (spawn g).1 (spawn g).2) as [x y]. cbn.
  destruct (spawn g). auto.
Qed.

Lemma resolve_hits_spec (hits : list nat) :
  NoDup hits →
  ∀ (p : Pacman) (gs : list Ghost) (go : bool),
    let res := resolve_hits hits p gs go in
    score res.1.1 = score p + GHOST_SCORE * Z.of_nat (length (captured hits gs))
    ∧ (life_lost hits gs = false →
         lives res.1.1 = lives p
         ∧ ∀ i g, gs !! i = Some g →
             res.1.2 !! i
             = Some (if bool_decide (i ∈ captured hits gs) then set_eyes g else g))
    ∧ (life_lost hits gs = true →
         lives res.1.1 = lives p - 1
         ∧ Forall (fun g => mode g = normal ∧ (g_col g, g_row g) = spawn g
                            ∧ g_dir g = (0, 0)) res.1.2).
Proof.
  induction 1 as [|i hits Hi Hnd IH]; intros p gs go.
  { cbn. split; [lia|]. split; [|discriminate]. intros _. split; [reflexivity|].
    intros i g Hg. rewrite bool_decide_eq_false_2; [exact Hg|]. intros H. inversion H. }
  cbn [resolve_hits captured life_lost existsb].
  destruct (gs !! i) as [g|] eqn:Hgi; cbn [fmap option_fmap option_map].
  2: { rewrite bool_decide_eq_false_2 by discriminate. apply IH. }
  destruct (mode g) eqn:Hm.
  - (* normal: one life lost, global reset, the loop stops *)
    rewrite bool_decide_eq_true_2 by reflexivity. cbn [orb].
    pose proof (reset_positions_pacman (p_set_lives p (lives p - 1)) gs) as Hp.
    unfold reset_positions in *. cbn [fst snd] in *.
    destruct Hp as (_ & Hl & Hs & _).
    split; [rewrite Hs; cbn; lia|]. split; [discriminate|]. intros _.
    split; [exact Hl|].
    apply Forall_forall. intros g' Hg'. apply list_elem_of_fmap in Hg' as (g0 & -> & _).
    pose proof (reset_ghost_fields g0) as (? & ? & _ & ? & _). auto.
  - (* vulnerable: captured, the loop goes on *)
    rewrite bool_decide_eq_false_2 by discriminate. cbn [orb].
    specialize (IH (p_set_score p (score p + GHOST_SCORE)) (<[ i := set_eyes g ]> gs) go).
    rewrite captured_insert, life_lost_insert in IH by exact Hi.
    fold (life_lost hits gs).
    destruct IH as (IHs & IHa & IHb).
    split; [rewrite IHs; cbn [score p_set_score length]; lia|].
    split; [|exact IHb].
    intros Hll. destruct (IHa Hll) as [IHl IHg]. split; [exact IHl|].
    intros j g' Hj. destruct (decide (j = i)) as [->|Hne].
    + rewrite Hgi in Hj. injection Hj as <-.
      rewrite (IHg i (set_eyes g))
        by (apply list_lookup_insert_eq; apply lookup_lt_Some in Hgi; exact Hgi).
      rewrite bool_decide_eq_false_2
        by (intros Hc; apply captured_subseteq in Hc; contradiction).
      rewrite bool_decide_eq_true_2 by (left). reflexivity.
    + rewrite (IHg j g') by (rewrite list_lookup_insert_ne by auto; exact Hj).
      rewrite (bool_decide_ext (j ∈ i :: captured hits gs) (j ∈ captured hits gs))
        by (rewrite elem_of_cons; tauto).
      reflexivity.
  - (* eyes: ignored *)
    rewrite bool_decide_eq_false_2 by discriminate. apply IH.
Qed.




(** The capture of the witness, computed: the ghost is in eyes mode
    and the score has grown by 200. *)
Example capture_state_resolved :
  (fun res : Pacman * list Ghost * bool =>
     (score res.1.1, lives res.1.1, mode <$> res.1.2))
    (resolve_hits (check_collisions (pacman capture_state) (ghosts capture_state))
                  (pacman capture_state) (ghosts capture_state) false)
  = (320, 3, [eyes]).
Proof. vm_compute. reflexivity. Qed.

(** ** Leaving eyes mode *)

(** The steps of a live tick, named. *)
Lemma advance_live (st st' : Game) (dt : Q) (rnd : nat → nat) :
  advance st dt rnd = Some st' →
  game_over st || win st = false →
  ∃ ate p2 d2 pw2 gs2,
    handle_pacman_eats (Pacman_update (pacman st) dt) (dots st) (power st)
    = (ate, p2, d2, pw2)
    ∧ update_ghosts (if ate && Qltb 0 (power_timer p2)
                     then map set_vulnerable (ghosts st) else ghosts st)
                    0 dt p2 rnd = Some gs2
    ∧ ∃ gs3 res,
        gs3 = (if Qeq_bool (power_timer p2) 0 then map end_power gs2 else gs2)
        ∧ res = resolve_hits (check_collisions p2 gs3) p2 gs3 (game_over st)
        ∧ st' = mkGame res.1.1 d2 pw2 res.1.2 res.2
                       (if Z.of_nat (size d2) + Z.of_nat (size pw2) =? 0
                        then true else win st).
Proof.
  unfold advance. intros H Hterm. rewrite Hterm in H. cbn [negb] in H.
  destruct (handle_pacman_eats _ _ _) as [[[ate p2] d2] pw2].
  exists ate, p2, d2, pw2.
  destruct (update_ghosts _ 0 dt p2 rnd) as [gs2|]; [|discriminate].
  exists gs2. split; [reflexivity|]. split; [reflexivity|].
  cbn [mbind option_bind] in H.
  eexists. eexists. split; [reflexivity|]. split; [reflexivity|].
  destruct (resolve_hits _ p2 _ (game_over st)) as [[p3 gs3] go3].
  apply (inj Some) in H. subst st'. reflexivity.
Qed.

Lemma move_towards_fields (g m : Ghost) (dt : Q) (t : Z * Z) :
  move_towards g dt t = Some m →
  mode m = mode g ∧ home m = home g ∧ spawn m = spawn g.
Proof.
  unfold move_towards.
  destruct (match eyes_options (g_col g) (g_row g) with
            | [] => Some (g_dir g) | _ => _ end) as [d|]; [|discriminate].
  cbn [mbind option_bind]. intros H. apply (inj Some) in H. subst m.
  apply (ghost_move_fields hits_wall_eyes (g_set_dir g d)).
Qed.

(** [Ghost.update] on a ghost in eyes mode, when it returns. *)
Lemma Ghost_update_eyes (g g1 : Ghost) (dt : Q) (pac : Pacman) (pick : nat) :
  mode g = eyes →
  Ghost_update g dt pac pick = Some g1 →
  ∃ moved,
    move_towards g dt (home g) = Some moved
    ∧ (mode g1 = normal ↔ (g_col moved, g_row moved) = home g)
    ∧ (mode g1 = normal →
         (g_col g1, g_row g1) = spawn g ∧ (g_x g1, g_y g1) = world (spawn g))
    ∧ (mode g1 ≠ normal → g1 = moved ∧ mode g1 = eyes)
    ∧ spawn g1 = spawn g.
Proof.
  intros Hmode. unfold Ghost_update.
  rewrite bool_decide_eq_true_2 by exact Hmode.
  destruct (move_towards g dt (home g)) as [moved|] eqn:Hmv; [|discriminate].
  destruct (move_towards_fields _ _ _ _ Hmv) as (Hm & Hhome & Hspawn).
  cbn [mbind option_bind]. rewrite Hhome.
  destruct (bool_decide_reflect ((g_col moved, g_row moved) = home g)) as [E|E];
    intros H; apply (inj Some) in H; subst g1;
    exists moved; (split; [reflexivity|]).
  - unfold g_center_in_cell. cbn [g_set_cell g_col g_row].
    destruct (grid_to_world (spawn moved).1 (spawn moved).2) as [x y] eqn:Hw.
    cbn. rewrite <- Hspawn. unfold world. rewrite Hw. cbn.
    split; [tauto|]. split; [|done].
    intros _. split; [|reflexivity]. destruct (spawn moved); reflexivity.
  - rewrite Hm, Hmode. split; [|split]; [split| |]; try done.
Qed.

Lemma update_ghosts_lookup (dt : Q) (pac : Pacman) (rnd : nat → nat) :
  ∀ gs i gs', update_ghosts gs i dt pac rnd = Some gs' →
    ∀ k g, gs !! k = Some g →
      ∃ g', Ghost_update g dt pac (rnd (i + k)%nat) = Some g' ∧ gs' !! k = Some g'.
Proof.
  induction gs as [|g0 gs IH]; intros i gs'; cbn [update_ghosts].
  - intros _ k g H. inversion H.
  - destruct (Ghost_update g0 dt pac (rnd i)) as [g1|] eqn:E; [|discriminate].
    cbn [mbind option_bind].
    destruct (update_ghosts gs (S i) dt pac rnd) as [gs1|] eqn:Egs; [|discriminate].
    cbn [mbind option_bind]. intros H. apply (inj Some) in H. subst gs'.
    intros [|k] g Hk.
    + apply (inj Some) in Hk. subst g0. exists g1.
      rewrite Nat.add_0_r. split; [exact E | reflexivity].
    + destruct (IH _ _ Egs k g Hk) as (g' & Hg' & Hl).
      exists g'. replace (i + S k)%nat with (S i + k)%nat by lia.
      split; [exact Hg' | exact Hl].
Qed.

(** When a life is lost, every ghost, whatever its mode, ends the loop
    in normal mode at the centre of its spawn cell. *)
Lemma resolve_hits_reset (hits : list nat) :
  NoDup hits →
  ∀ (p : Pacman) (gs : list Ghost) (go : bool),
    life_lost hits gs = true →
    ∀ i g, gs !! i = Some g →
      ∃ g', (resolve_hits hits p gs go).1.2 !! i = Some g'
            ∧ mode g' = normal
            ∧ (g_col g', g_row g') = spawn g
            ∧ (g_x g', g_y g') = world (spawn g)
            ∧ g_dir g' = (0, 0).
Proof.
  induction 1 as [|j hits Hj Hnd IH]; intros p gs go; [discriminate|].
  cbn [resolve_hits life_lost existsb].
  destruct (gs !! j) as [g0|] eqn:Hg0; cbn [fmap option_fmap option_map].
  2: { rewrite bool_decide_eq_false_2 by discriminate. apply IH. }
  destruct (mode g0) eqn:Hm.
  - intros _ i g Hi. unfold reset_positions. cbn [fst snd].
    exists (reset_ghost g). rewrite list_lookup_fmap, Hi.
    split; [reflexivity|].
    pose proof (reset_ghost_fields g) as (? & ? & ? & ? & _). auto.
  - rewrite bool_decide_eq_false_2 by discriminate. cbn [orb].
    fold (life_lost hits gs). intros Hll i g Hi.
    specialize (IH (p_set_score p (score p + GHOST_SCORE)) (<[ j := set_eyes g0 ]> gs) go).
    rewrite life_lost_insert in IH by exact Hj. specialize (IH Hll).
    destruct (decide (i = j)) as [->|Hne].
    + rewrite Hg0 in Hi. apply (inj Some) in Hi. subst g0.
      apply (IH j (set_eyes g)).
      apply list_lookup_insert_eq. apply lookup_lt_Some in Hg0. exact Hg0.
    + apply (IH i g). rewrite list_lookup_insert_ne by auto. exact Hi.
  - rewrite bool_decide_eq_false_2 by discriminate. apply IH.
Qed.

(** C7 (amended).  A ghost in eyes mode has two ways back to normal
    mode.  In its own [Ghost.update], which returns for a ghost inside
    the grid, it turns normal exactly when the cell it has moved to is
    its home cell, and is then placed at the centre of its spawn cell
    (not of its home cell).  In the collision loop of the same tick, the
    loss of a life resets every ghost, eyes or not and wherever it is, to
    normal mode at the centre of its spawn cell.  So after a tick of a
    live round the ghost is in normal mode exactly when its move reached
    its home cell or the player lost a life in that tick; it then sits
    at the centre of its spawn cell, and otherwise it is still in eyes
    mode where its move left it. *)
Theorem eyes_leave_at_home_or_reset (st st' : Game) (dt : Q) (rnd : nat → nat)
    (i : nat) (g : Ghost) :
  ghosts st !! i = Some g →
  mode g = eyes →
  game_over st || win st = false →
  (is_inside_grid (g_col g) (g_row g) = true →
   is_inside_grid (home g).1 (home g).2 = true →
   ∀ pac pick, ∃ moved g1,
     move_towards g dt (home g) = Some moved
     ∧ Ghost_update g dt pac pick = Some g1
     ∧ (mode g1 = normal ↔ (g_col moved, g_row moved) = home g)
     ∧ (mode g1 = normal →
          (g_col g1, g_row g1) = spawn g ∧ (g_x g1, g_y g1) = world (spawn g))
     ∧ (mode g1 ≠ normal → g1 = moved ∧ mode g1 = eyes))
  ∧ (advance st dt rnd = Some st' →
     ∃ moved g',
       move_towards g dt (home g) = Some moved
       ∧ ghosts st' !! i = Some g'
       ∧ (lives (pacman st') = lives (pacman st)
          ∨ lives (pacman st') = lives (pacman st) - 1)
       ∧ (mode g' = normal
          ↔ (g_col moved, g_row moved) = home g
            ∨ lives (pacman st') = lives (pacman st) - 1)
       ∧ (mode g' = normal →
            (g_col g', g_row g') = spawn g ∧ (g_x g', g_y g') = world (spawn g))
       ∧ (mode g' ≠ normal → g' = moved ∧ mode g' = eyes)).
Proof.
  intros Hi Hmode Hlive. split.
  { intros Hc Hh pac pick. apply eyes_return_home; assumption. }
  intros Hadv.
  destruct (advance_live st st' dt rnd Hadv Hlive)
    as (ate & p2 & d2 & pw2 & gs2 & Heat & Hupd & gs3 & res & Hgs3 & Hres & Hst).
  assert (Hl2 : lives p2 = lives (pacman st)).
  { pose proof (handle_pacman_eats_lives (Pacman_update (pacman st) dt) (dots st) (power st))
      as H. rewrite Heat in H. cbn [fst snd] in H.
    rewrite H. apply Pacman_update_lives. }
  (* the broadcast of vulnerability passes over a ghost in eyes mode *)
  assert (Hi1 : (if ate && Qltb 0 (power_timer p2)
                 then map set_vulnerable (ghosts st) else ghosts st) !! i = Some g).
  { destruct (ate && Qltb 0 (power_timer p2)); [|exact Hi].
    rewrite list_lookup_fmap, Hi. cbn. f_equal.
    unfold set_vulnerable. rewrite bool_decide_eq_false_2; [reflexivity|].
    intros H. apply H. exact Hmode. }
  destruct (update_ghosts_lookup dt p2 rnd _ _ _ Hupd i g Hi1) as (g1 & Hg1 & Hl1).
  destruct (Ghost_update_eyes g g1 dt p2 _ Hmode Hg1)
    as (moved & Hmv & Hiff & Hnorm & Heyes & Hspawn).
  assert (Hnv : mode g1 ≠ vulnerable).
  { destruct (decide (mode g1 = normal)) as [E|E]; [congruence|].
    destruct (Heyes E) as [_ E']. congruence. }
  (* the end of power passes over it as well *)
  assert (Hi3 : gs3 !! i = Some g1).
  { subst gs3. destruct (Qeq_bool (power_timer p2) 0); [|exact Hl1].
    rewrite list_lookup_fmap, Hl1. cbn. f_equal.
    unfold end_power. rewrite bool_decide_eq_false_2; [reflexivity | exact Hnv]. }
  exists moved. subst st'. cbn [ghosts pacman lives].
  pose proof (resolve_hits_spec (check_collisions p2 gs3) (collisions_from_NoDup _ _ _)
                p2 gs3 (game_over st)) as Hspec.
  pose proof (resolve_hits_reset (check_collisions p2 gs3) (collisions_from_NoDup _ _ _)
                p2 gs3 (game_over st)) as Hreset.
  cbv zeta in Hspec. rewrite <- Hres in Hspec, Hreset.
  destruct Hspec as (_ & Hkeep & Hlost).
  destruct (life_lost (check_collisions p2 gs3) gs3) eqn:Hll.
  - destruct (Hlost eq_refl) as [Hlives _].
    destruct (Hreset eq_refl i g1 Hi3) as (g' & Hg' & Hm' & Hcell & Hpos & _).
    exists g'. split; [exact Hmv|]. split; [exact Hg'|].
    split; [right; lia|]. split; [split; [intros _; right; lia | intros _; exact Hm']|].
    split; [intros _; rewrite <- Hspawn; auto|].
    intros H. contradiction.
  - destruct (Hkeep eq_refl) as [Hlives Hsame].
    specialize (Hsame i g1 Hi3).
    rewrite bool_decide_eq_false_2 in Hsame.
    2: { intros Hc. apply captured_all in Hc; [|exact Hll].
         destruct Hc as [_ Hc]. rewrite Hi3 in Hc. cbn in Hc.
         apply (inj Some) in Hc. contradiction. }
    exists g1. split; [exact Hmv|]. split; [exact Hsame|].
    split; [left; lia|]. split; [|split; assumption].
    rewrite Hiff. split; [auto|]. intros [H|H]; [exact H | lia].
Qed.

(** The claim as first stated fails: the ghost in eyes mode of
    [eyes_reset_state] moves within the corridor, away from its home
    cell (12, 21), and is in normal mode on its spawn cell at the end of
    the tick, because the player lost a life to the other ghost. *)
Lemma eyes_reset_away_from_home :
  ∃ g moved st',
    ghosts eyes_reset_state !! 1%nat = Some g
    ∧ mode g = eyes
    ∧ move_towards g frame (home g) = Some moved
    ∧ (g_col moved, g_row moved) = (5, 5)
    ∧ (g_col moved, g_row moved) ≠ home g
    ∧ advance eyes_reset_state frame no_draw = Some st'
    ∧ (fun g' => (mode g', g_col g', g_row g')) <$> ghosts st' !! 1%nat
      = Some (normal, 12, 21)
    ∧ lives (pacman st') = lives (pacman eyes_reset_state) - 1.
Proof.
  eexists. eexists. eexists.
  split; [reflexivity|]. split; [reflexivity|].
  split; [vm_compute; reflexivity|]. split; [reflexivity|]. split; [discriminate|].
  split; [vm_compute; reflexivity|]. split; reflexivity.
Qed.

Lemma eyes_leave_at_home_or_reset_witness :
  ∃ st' moved g',
    advance homing_state frame no_draw = Some st'
    ∧ move_towards homing_ghost frame (home homing_ghost) = Some moved
    ∧ ghosts st' !! 0%nat = Some g'
    ∧ (mode g' = normal
       ↔ (g_col moved, g_row moved) = home homing_ghost
         ∨ lives (pacman st') = lives (pacman homing_state) - 1).
Proof.
  assert (Hadv : ∃ st', advance homing_state frame no_draw = Some st')
    by (eexists; vm_compute; reflexivity).
  destruct Hadv as [st' Hadv]. exists st'.
  destruct (eyes_leave_at_home_or_reset homing_state st' frame no_draw 0 homing_ghost)
    as [_ H]; [reflexivity..|].
  destruct (H Hadv) as (moved & g' & Hmv & Hg' & _ & Hiff & _).
  exists moved, g'. auto.
Defined.

(** * Further properties of the simulation *)

(** ** What the wall tests compute *)

Lemma colliderect_tile (rect : Rect) (c r : Z) :
  0 < r_width rect → 0 < r_height rect →
  colliderect rect (rect_for_cell c r) = true
  ↔ r_left rect < OFFSET_X + c * TILE_SIZE + TILE_SIZE
    ∧ OFFSET_X + c * TILE_SIZE < r_right rect
    ∧ r_top rect < OFFSET_Y + r * TILE_SIZE + TILE_SIZE
    ∧ OFFSET_Y + r * TILE_SIZE < r_bottom rect.
Proof.
  intros Hw Hh. unfold colliderect, rect_for_cell, r_right, r_bottom.
  cbn [r_left r_top r_width r_height].
  destruct (Z.eqb_spec (r_width rect) 0); [lia|].
  destruct (Z.eqb_spec (r_height rect) 0); [lia|].
  change (TILE_SIZE =? 0) with false. cbn [orb].
  rewrite !andb_true_iff, !Z.ltb_lt, !Z.gtb_lt.
  unfold TILE_SIZE. lia.
Qed.

Lemma tile_index_le (a c : Z) : a < c * TILE_SIZE + TILE_SIZE → a / TILE_SIZE ≤ c.
Proof.
  intros H. unfold TILE_SIZE in *.
  assert (a / 19 < c + 1); [|lia]. apply Z.div_lt_upper_bound; lia.
Qed.

Lemma tile_index_ge (a c : Z) : c * TILE_SIZE ≤ a → c ≤ a / TILE_SIZE.
Proof.
  intros H. unfold TILE_SIZE in *. apply Z.div_le_lower_bound; lia.
Qed.

Lemma scan_tiles_spec (blocking : Z → Z → bool) (rect : Rect) :
  0 < r_width rect → 0 < r_height rect →
  scan_tiles blocking rect = true
  ↔ ∃ c r, is_inside_grid c r = true ∧ blocking r c = true
           ∧ colliderect rect (rect_for_cell c r) = true.
Proof.
  intros Hw Hh. unfold scan_tiles.
  pose proof (tile_span_inside rect) as Hin.
  destruct (tile_span rect) as [rows cols] eqn:Hspan. cbn [fst snd] in Hin.
  rewrite existsb_exists. split.
  - intros (r & Hr & Hc). apply existsb_exists in Hc as (c & Hc & Hb).
    apply andb_true_iff in Hb as [Hb Hcol].
    exists c, r. rewrite <- list_elem_of_In in Hr, Hc. auto.
  - intros (c & r & Hgrid & Hb & Hcol).
    unfold tile_span in Hspan. injection Hspan as <- <-.
    apply colliderect_tile in Hcol; [|assumption..].
    apply inside_grid_spec in Hgrid. unfold r_right, r_bottom in *.
    exists r. split.
    + apply list_elem_of_In, elem_of_range.
      pose proof (tile_index_le (r_top rect - OFFSET_Y) r).
      pose proof (tile_index_ge (r_top rect + r_height rect - 1 - OFFSET_Y) r).
      lia.
    + apply existsb_exists. exists c. split; [|rewrite Hb; apply colliderect_tile; auto].
      apply list_elem_of_In, elem_of_range.
      pose proof (tile_index_le (r_left rect - OFFSET_X) c).
      pose proof (tile_index_ge (r_left rect + r_width rect - 1 - OFFSET_X) c).
      lia.
Qed.

Lemma hits_wall_tiles (rect : Rect) :
  0 < r_width rect → 0 < r_height rect →
  hits_wall rect = true
  ↔ ∃ c r, is_inside_grid c r = true ∧ is_wall c r = true
           ∧ colliderect rect (rect_for_cell c r) = true.
Proof.
  intros Hw Hh. unfold hits_wall.
  rewrite scan_tiles_spec by assumption.
  split; intros (c & r & Hg & Hb & Hc); exists c, r;
    (split; [exact Hg|]); (split; [|exact Hc]);
    unfold is_wall in *; rewrite Hg in *; exact Hb.
Qed.

(** X1.  The clamped tile window of [hits_wall] misses nothing: for a
    rectangle of positive size, [hits_wall] answers [True] exactly when
    the rectangle overlaps the tile of some wall or door cell of the
    grid, and [hits_wall_eyes] exactly when it overlaps the tile of some
    ['1'] cell. *)
Theorem hits_wall_spec (rect : Rect) :
  0 < r_width rect → 0 < r_height rect →
  (hits_wall rect = true
   ↔ ∃ c r, is_inside_grid c r = true ∧ is_wall c r = true
            ∧ colliderect rect (rect_for_cell c r) = true)
  ∧ (hits_wall_eyes rect = true
     ↔ ∃ c r, is_inside_grid c r = true ∧ MAZE r c = "1"%char
              ∧ colliderect rect (rect_for_cell c r) = true).
Proof.
  intros Hw Hh. unfold hits_wall, hits_wall_eyes.
  rewrite !scan_tiles_spec by assumption. split.
  - split; intros (c & r & Hg & Hb & Hc); exists c, r;
      (split; [exact Hg|]); (split; [|exact Hc]);
      unfold is_wall in *; rewrite Hg in *; exact Hb.
  - split; intros (c & r & Hg & Hb & Hc); exists c, r;
      (split; [exact Hg|]); (split; [|exact Hc]).
    + apply bool_decide_eq_true in Hb. exact Hb.
    + apply bool_decide_eq_true. exact Hb.
Qed.

Lemma hits_wall_spec_witness :
  (0 < r_width (rect_for_cell 12 6) ∧ 0 < r_height (rect_for_cell 12 6))
  ∧ (hits_wall (rect_for_cell 12 6) = true
     ↔ ∃ c r, is_inside_grid c r = true ∧ is_wall c r = true
              ∧ colliderect (rect_for_cell 12 6) (rect_for_cell c r) = true).
Proof.
  split; [split; reflexivity|].
  apply (hits_wall_spec (rect_for_cell 12 6)); reflexivity.
Defined.

(** ** Cells and positions *)

Lemma Qfloor_unique (z : Z) (q : Q) :
  (inject_Z z <= q)%Q → (q < inject_Z (z + 1))%Q → Qfloor q = z.
Proof.
  intros Hle Hlt.
  pose proof (Qfloor_resp_le _ _ Hle) as H1. rewrite Qfloor_Z in H1.
  pose proof (Qle_lt_trans _ _ _ (Qfloor_le q) Hlt) as H2.
  rewrite <- Zlt_Qlt in H2. lia.
Qed.

(** [q // TILE_SIZE] is the index of the tile-wide interval holding [q]. *)
Lemma tile_floordiv_spec (q : Q) (c : Z) :
  py_floordiv q TILE_SIZE = c
  ↔ (inject_Z (c * TILE_SIZE) <= q)%Q ∧ (q < inject_Z (c * TILE_SIZE + TILE_SIZE))%Q.
Proof.
  unfold py_floordiv, TILE_SIZE.
  rewrite inject_Z_plus, inject_Z_mult.
  change (inject_Z 19) with 19%Q.
  assert (Hq : (q == 19 * (q / 19))%Q) by (field; discriminate).
  revert Hq. generalize (q / 19)%Q. intros t Hq. split.
  - intros <-.
    pose proof (Qfloor_le t) as H1. pose proof (Qlt_floor t) as H2.
    rewrite inject_Z_plus in H2. change (inject_Z 1) with 1%Q in H2.
    split; lra.
  - intros [H1 H2]. apply Qfloor_unique.
    + lra.
    + rewrite inject_Z_plus. change (inject_Z 1) with 1%Q. lra.
Qed.

Lemma grid_coord_spec (offset : Z) (q : Q) (c : Z) :
  py_floordiv (q - inject_Z offset) TILE_SIZE = c ↔ in_tile offset q c.
Proof.
  rewrite tile_floordiv_spec. unfold in_tile.
  rewrite !inject_Z_plus. split; intros [H1 H2]; split; lra.
Qed.

Lemma grid_pos_world (cell : Z * Z) : grid_pos (world cell).1 (world cell).2 = cell.
Proof.
  destruct cell as [c r]. unfold grid_pos, world, grid_to_world. cbn [fst snd].
  f_equal; apply grid_coord_spec; unfold in_tile;
    rewrite <- !Zle_Qle, <- !Zlt_Qlt; unfold TILE_SIZE;
    change (19 / 2) with 9; lia.
Qed.

Lemma grid_pos_tiles (x y : Q) (c r : Z) :
  grid_pos x y = (c, r) ↔ in_tile OFFSET_X x c ∧ in_tile OFFSET_Y y r.
Proof.
  unfold grid_pos.
  rewrite <- !grid_coord_spec. split; [intros [= <- <-]; auto | intros [<- <-]; auto].
Qed.

(** X2.  [grid_pos] returns the cell whose tile holds the position: it
    answers [(c, r)] exactly for the positions with
    [OFFSET_X + c*TILE_SIZE <= x < OFFSET_X + (c+1)*TILE_SIZE] and the
    same for [y] and [r]; in particular the centre that [grid_to_world]
    gives for a cell is mapped back to that cell, for every cell, inside
    the grid or not. *)
Theorem grid_pos_spec :
  (∀ x y c r, grid_pos x y = (c, r) ↔ in_tile OFFSET_X x c ∧ in_tile OFFSET_Y y r)
  ∧ (∀ c r, grid_pos (inject_Z (grid_to_world c r).1) (inject_Z (grid_to_world c r).2)
            = (c, r)).
Proof.
  split.
  - intros x y c r. unfold grid_pos.
    rewrite <- !grid_coord_spec. split; [intros [= <- <-]; auto | intros [<- <-]; auto].
  - intros c r. apply (grid_pos_world (c, r)).
Qed.

Lemma p_set_cell_synced (p : Pacman) (t : Q) :
  p_synced (p_set_power_timer (p_set_cell p (grid_pos (p_x p) (p_y p))) t).
Proof. unfold p_synced. symmetry. apply surjective_pairing. Qed.

Lemma g_set_cell_synced (g : Ghost) :
  g_synced (g_set_cell g (grid_pos (g_x g) (g_y g))).
Proof. unfold g_synced. symmetry. apply surjective_pairing. Qed.

Lemma Pacman_update_synced (p : Pacman) (dt : Q) : p_synced (Pacman_update p dt).
Proof.
  unfold Pacman_update.
  destruct (grid_to_world (p_col p) (p_row p)) as [cx cy].
  apply p_set_cell_synced.
Qed.

Lemma ghost_move_synced (hits : Rect → bool) (g : Ghost) (d : Z * Z) (sp : Z) (dt : Q) :
  g_synced (ghost_move hits g d sp dt).
Proof. unfold ghost_move. apply g_set_cell_synced. Qed.

Lemma g_center_in_cell_synced (g : Ghost) : g_synced (g_center_in_cell g).
Proof.
  unfold g_synced, g_center_in_cell.
  pose proof (grid_pos_world (g_col g, g_row g)) as H. unfold world in H.
  cbn [fst snd] in H.
  destruct (grid_to_world (g_col g) (g_row g)) as [x y].
  cbn [fst snd] in H. symmetry. exact H.
Qed.

Lemma p_center_in_cell_synced (p : Pacman) : p_synced (p_center_in_cell p).
Proof.
  unfold p_synced, p_center_in_cell.
  pose proof (grid_pos_world (p_col p, p_row p)) as H. unfold world in H.
  cbn [fst snd] in H.
  destruct (grid_to_world (p_col p) (p_row p)) as [x y].
  cbn [fst snd] in H. symmetry. exact H.
Qed.

Lemma move_towards_synced (g m : Ghost) (dt : Q) (t : Z * Z) :
  move_towards g dt t = Some m → g_synced m.
Proof.
  unfold move_towards.
  destruct (match eyes_options (g_col g) (g_row g) with
            | [] => Some (g_dir g) | _ => _ end) as [d|]; [|discriminate].
  cbn [mbind option_bind]. intros H. apply (inj Some) in H. subst m.
  apply ghost_move_synced.
Qed.

Lemma Ghost_update_synced (g g' : Ghost) (dt : Q) (pac : Pacman) (pick : nat) :
  Ghost_update g dt pac pick = Some g' → g_synced g'.
Proof.
  unfold Ghost_update. destruct (bool_decide (mode g = eyes)).
  - destruct (move_towards g dt (home g)) as [m|] eqn:Hm; [|discriminate].
    cbn [mbind option_bind].
    destruct (bool_decide ((g_col m, g_row m) = home m));
      intros H; apply (inj Some) in H; subst g'.
    + apply (g_center_in_cell_synced (g_set_cell m (spawn m))).
    + apply (move_towards_synced _ _ _ _ Hm).
  - destruct (grid_to_world (g_col g) (g_row g)) as [cx cy].
    destruct (near (g_x g) cx && near (g_y g) cy).
    + destruct (choose_dir _ _ pac pick) as [d|]; [|discriminate].
      cbn [mbind option_bind]. intros H; apply (inj Some) in H; subst g'.
      apply ghost_move_synced.
    + cbn [mbind option_bind]. intros H; apply (inj Some) in H; subst g'.
      apply ghost_move_synced.
Qed.

Lemma handle_pacman_eats_place (p : Pacman) (d pw : cells) :
  let p' := (handle_pacman_eats p d pw).1.1.2 in
  p_col p' = p_col p ∧ p_row p' = p_row p ∧ p_x p' = p_x p ∧ p_y p' = p_y p
  ∧ p_radius p' = p_radius p.
Proof.
  unfold handle_pacman_eats.
  destruct (bool_decide ((p_col p, p_row p) ∈ d));
    destruct (bool_decide ((p_col p, p_row p) ∈ pw)); cbn; auto.
Qed.

Lemma update_ghosts_Forall (P : Ghost → Prop) (dt : Q) (pac : Pacman) (rnd : nat → nat) :
  (∀ g g' pick, Ghost_update g dt pac pick = Some g' → P g') →
  ∀ gs i gs', update_ghosts gs i dt pac rnd = Some gs' → Forall P gs'.
Proof.
  intros HP. induction gs as [|g gs IH]; intros i gs'; cbn [update_ghosts].
  - intros [= <-]. constructor.
  - destruct (Ghost_update g dt pac (rnd i)) as [g1|] eqn:Hg; [|discriminate].
    cbn [mbind option_bind].
    destruct (update_ghosts gs (S i) dt pac rnd) as [gs1|] eqn:Hgs; [|discriminate].
    cbn [mbind option_bind]. intros H. apply (inj Some) in H. subst gs'.
    constructor; [apply (HP _ _ _ Hg) | apply (IH _ _ Hgs)].
Qed.

Lemma resolve_hits_synced (hits : list nat) (p : Pacman) (gs : list Ghost) (go : bool) :
  p_synced p → Forall g_synced gs →
  p_synced (resolve_hits hits p gs go).1.1
  ∧ Forall g_synced (resolve_hits hits p gs go).1.2.
Proof.
  revert p gs. induction hits as [|i hits IH]; intros p gs Hp Hgs; [done|].
  cbn [resolve_hits]. destruct (gs !! i) as [g|] eqn:Hg; [|apply IH; assumption].
  destruct (mode g).
  - unfold reset_positions. cbn [fst snd]. split.
    + apply (p_center_in_cell_synced (p_set_lives p (lives p - 1))).
    + apply Forall_fmap, Forall_true. intros g0.
      apply (g_center_in_cell_synced (g_set_cell g0 (spawn g0))).
  - apply IH; [exact Hp|]. apply Forall_insert; [exact Hgs|].
    apply (Forall_lookup_1 _ _ _ _ Hgs Hg).
  - apply IH; assumption.
Qed.

(** X3.  After every tick of a live round the cell fields of the player
    and of every ghost are the cell their position lies in: the discrete
    cell is always recomputed from (or reset together with) the
    continuous position. *)
Theorem cells_follow_positions (st st' : Game) (dt : Q) (rnd : nat → nat) :
  advance st dt rnd = Some st' →
  game_over st || win st = false →
  p_synced (pacman st') ∧ Forall g_synced (ghosts st').
Proof.
  intros Hadv Hlive.
  destruct (advance_live st st' dt rnd Hadv Hlive)
    as (ate & p2 & d2 & pw2 & gs2 & He & Hu & gs3 & res & -> & -> & ->).
  cbn [pacman ghosts]. apply resolve_hits_synced.
  - pose proof (handle_pacman_eats_place (Pacman_update (pacman st) dt)
                  (dots st) (power st)) as Hpl.
    rewrite He in Hpl. cbn [fst snd] in Hpl.
    destruct Hpl as (Hc & Hr & Hx & Hy & _).
    pose proof (Pacman_update_synced (pacman st) dt) as Hs.
    unfold p_synced in *. rewrite Hc, Hr, Hx, Hy. exact Hs.
  - assert (Hgs2 : Forall g_synced gs2).
    { apply (update_ghosts_Forall g_synced dt p2 rnd) with (2 := Hu).
      intros g g' pick. apply Ghost_update_synced. }
    destruct (Qeq_bool (power_timer p2) 0); [|exact Hgs2].
    apply Forall_fmap. apply (Forall_impl _ _ _ Hgs2).
    intros g Hg. unfold end_power, compose.
    destruct (bool_decide (mode g = vulnerable)); exact Hg.
Qed.

Lemma cells_follow_positions_witness :
  ∃ st', advance dot_state frame no_draw = Some st'
         ∧ p_synced (pacman st') ∧ Forall g_synced (ghosts st').
Proof.
  eexists. split; [vm_compute; reflexivity|].
  apply (cells_follow_positions dot_state _ frame no_draw); vm_compute; reflexivity.
Defined.

(** ** The player stays out of the walls *)

Lemma Pacman_update_pos (p : Pacman) (dt : Q) :
  let p1 := p_turn p in
  let dx := (inject_Z (p_dir p1).1 * inject_Z PACMAN_SPEED * dt)%Q in
  let dy := (inject_Z (p_dir p1).2 * inject_Z PACMAN_SPEED * dt)%Q in
  let x2 := slide_x hits_wall (p_x p1) (p_y p1) (p_radius p1) dx in
  let y2 := slide_y hits_wall x2 (p_y p1) (p_radius p1) dy in
  p_x (Pacman_update p dt) = x2
  ∧ p_y (Pacman_update p dt) = y2
  ∧ p_radius (Pacman_update p dt) = p_radius p1.
Proof.
  unfold Pacman_update, p_turn.
  destruct (grid_to_world (p_col p) (p_row p)) as [cx cy].
  set (p1 := if near (p_x p) cx && near (p_y p) cy then _ else p).
  clearbody p1. destruct p1 as [c r x y rad d td l s t].
  cbv beta iota zeta delta
    [slide_x slide_y pacman_rect p_set_pos p_set_cell p_set_power_timer
     p_x p_y p_radius p_dir p_col p_row p_target_dir lives score power_timer].
  repeat (match goal with
          | |- context [if ?b then _ else _] =>
              lazymatch b with
              | context [if _ then _ else _] => fail
              | _ => destruct b
              end
          end; cbv beta iota);
    repeat split; reflexivity.
Qed.

Lemma py_int_comp (q q' : Q) : (q == q')%Q → py_int q = py_int q'.
Proof.
  intros H. unfold py_int.
  assert (Hb : Qle_bool 0 q = Qle_bool 0 q').
  { apply eq_true_iff_eq. rewrite !Qle_bool_iff, H. reflexivity. }
  rewrite Hb. destruct (Qle_bool 0 q'); [apply Qfloor_comp | apply Qceiling_comp]; exact H.
Qed.

Lemma py_int_Z (a b : Z) : py_int (inject_Z a - inject_Z b) = a - b.
Proof.
  rewrite (py_int_comp _ (inject_Z (a - b))).
  - unfold py_int. destruct (Qle_bool 0 (inject_Z (a - b)));
      [apply Qfloor_Z | apply Qceiling_Z].
  - unfold Z.sub. rewrite inject_Z_plus, inject_Z_opp. reflexivity.
Qed.

Lemma entity_rect_comp (x x' y y' : Q) (rad : Z) :
  (x == x')%Q → (y == y')%Q → entity_rect x y rad = entity_rect x' y' rad.
Proof.
  intros Hx Hy. unfold entity_rect.
  rewrite (py_int_comp (x - inject_Z rad) (x' - inject_Z rad)) by (rewrite Hx; reflexivity).
  rewrite (py_int_comp (y - inject_Z rad) (y' - inject_Z rad)) by (rewrite Hy; reflexivity).
  reflexivity.
Qed.

Lemma slide_x_clear (hits : Rect → bool) (x y : Q) (rad : Z) (d : Q) :
  hits (entity_rect x y rad) = false →
  hits (entity_rect (slide_x hits x y rad d) y rad) = false.
Proof.
  intros H. unfold slide_x.
  destruct (hits (entity_rect (x + d) y rad)) eqn:E; [|exact E].
  rewrite (entity_rect_comp (x + d - d) x y y rad); [exact H | ring | reflexivity].
Qed.

Lemma slide_y_clear (hits : Rect → bool) (x y : Q) (rad : Z) (d : Q) :
  hits (entity_rect x y rad) = false →
  hits (entity_rect x (slide_y hits x y rad d) rad) = false.
Proof.
  intros H. unfold slide_y.
  destruct (hits (entity_rect x (y + d) rad)) eqn:E; [|exact E].
  rewrite (entity_rect_comp x x (y + d - d) y rad); [exact H | reflexivity | ring].
Qed.

(** The box of an entity in tile interval [c] overlaps that interval. *)
Lemma box_overlaps_own_tile (offset : Z) (q : Q) (c rad : Z) :
  1 ≤ rad →
  in_tile offset q c →
  py_int (q - inject_Z rad) < offset + c * TILE_SIZE + TILE_SIZE
  ∧ offset + c * TILE_SIZE < py_int (q - inject_Z rad) + rad * 2.
Proof.
  intros Hr [H1 H2].
  rewrite !inject_Z_plus in H1. rewrite inject_Z_mult in H1.
  rewrite !inject_Z_plus in H2. rewrite inject_Z_mult in H2.
  assert (Hrad : (1 <= inject_Z rad)%Q).
  { change 1%Q with (inject_Z 1). rewrite <- Zle_Qle. exact Hr. }
  assert (HL : (q - inject_Z rad - 1 < inject_Z (py_int (q - inject_Z rad)))%Q
               ∧ (inject_Z (py_int (q - inject_Z rad)) < q - inject_Z rad + 1)%Q).
  { unfold py_int. destruct (Qle_bool 0 (q - inject_Z rad)).
    - pose proof (Qfloor_le (q - inject_Z rad)) as F1.
      pose proof (Qlt_floor (q - inject_Z rad)) as F2.
      rewrite inject_Z_plus in F2. change (inject_Z 1) with 1%Q in F2.
      split; lra.
    - pose proof (Qle_ceiling (q - inject_Z rad)) as F1.
      pose proof (Qceiling_lt (q - inject_Z rad)) as F2.
      unfold Z.sub in F2. rewrite inject_Z_plus, inject_Z_opp in F2.
      change (inject_Z 1) with 1%Q in F2.
      split; lra. }
  set (L := py_int (q - inject_Z rad)) in *. destruct HL as [L1 L2].
  split; rewrite Zlt_Qlt, !inject_Z_plus, !inject_Z_mult;
    change (inject_Z 2) with 2%Q; lra.
Qed.

Lemma centred_rect (c r rad : Z) :
  entity_rect (world (c, r)).1 (world (c, r)).2 rad
  = mkRect (OFFSET_X + c * TILE_SIZE + TILE_SIZE / 2 - rad)
           (OFFSET_Y + r * TILE_SIZE + TILE_SIZE / 2 - rad) (rad * 2) (rad * 2).
Proof.
  unfold entity_rect, world, grid_to_world. cbn [fst snd].
  rewrite !py_int_Z. reflexivity.
Qed.

(** A box centred in a cell touches no other tile: it hits a wall only
    if that cell itself is a wall or door cell of the grid. *)
Lemma centred_box_hits (c r rad : Z) :
  1 ≤ rad ≤ 9 →
  hits_wall (entity_rect (world (c, r)).1 (world (c, r)).2 rad) = true →
  is_inside_grid c r = true ∧ is_wall c r = true.
Proof.
  intros Hrad. rewrite centred_rect.
  intros H. apply hits_wall_tiles in H; [|cbn; lia..].
  destruct H as (c' & r' & Hg & Hw & Hc).
  apply colliderect_tile in Hc; [|cbn; lia..].
  unfold r_right, r_bottom in Hc. cbn [r_left r_top r_width r_height] in Hc.
  unfold TILE_SIZE in Hc. change (19 / 2) with 9 in Hc.
  assert (c' = c) as -> by lia. assert (r' = r) as -> by lia. auto.
Qed.

(** A box that hits no wall does not sit in a wall cell. *)
Lemma clear_box_cell (x y : Q) (rad c r : Z) :
  1 ≤ rad →
  hits_wall (entity_rect x y rad) = false →
  grid_pos x y = (c, r) →
  ¬ (is_inside_grid c r = true ∧ is_wall c r = true).
Proof.
  intros Hrad Hclear Hpos [Hg Hw].
  apply grid_pos_tiles in Hpos as [Hx Hy].
  pose proof (box_overlaps_own_tile OFFSET_X x c rad Hrad Hx) as [X1 X2].
  pose proof (box_overlaps_own_tile OFFSET_Y y r rad Hrad Hy) as [Y1 Y2].
  assert (H : hits_wall (entity_rect x y rad) = true); [|congruence].
  apply hits_wall_tiles; [cbn; lia..|].
  exists c, r. split; [exact Hg|]. split; [exact Hw|].
  apply colliderect_tile; [cbn; lia..|].
  unfold r_right, r_bottom, entity_rect. cbn [r_left r_top r_width r_height]. lia.
Qed.

Lemma centred_box_clear (x y : Q) (rad c r : Z) :
  1 ≤ rad ≤ 9 →
  hits_wall (entity_rect x y rad) = false →
  grid_pos x y = (c, r) →
  hits_wall (entity_rect (world (c, r)).1 (world (c, r)).2 rad) = false.
Proof.
  intros Hrad Hclear Hpos.
  destruct (hits_wall (entity_rect (world (c, r)).1 (world (c, r)).2 rad)) eqn:E;
    [|reflexivity].
  exfalso. apply (clear_box_cell x y rad c r); [lia | assumption..|].
  apply (centred_box_hits c r rad Hrad E).
Qed.

Lemma p_center_in_cell_clear (p : Pacman) : p_clear p → p_clear (p_center_in_cell p).
Proof.
  intros (Hr & Hs & Hc). split; [|split].
  - unfold p_center_in_cell. destruct (grid_to_world _ _). exact Hr.
  - apply p_center_in_cell_synced.
  - pose proof (centred_box_clear (p_x p) (p_y p) (p_radius p) (p_col p) (p_row p)) as H.
    unfold pacman_rect, p_center_in_cell, world in *. cbn [fst snd] in H.
    destruct (grid_to_world (p_col p) (p_row p)) as [cx cy]. cbn [fst snd] in H.
    apply H; [rewrite Hr; vm_compute; split; discriminate | exact Hc |].
    symmetry. exact Hs.
Qed.

Lemma p_turn_clear (p : Pacman) : p_clear p → p_clear (p_turn p).
Proof.
  intros Hp. pose proof (p_center_in_cell_clear p Hp) as (Hr & Hs & Hc).
  unfold p_turn, p_center_in_cell in *.
  destruct (grid_to_world (p_col p) (p_row p)) as [cx cy].
  destruct (near (p_x p) cx && near (p_y p) cy); [|exact Hp].
  split; [exact Hr|]. split; [exact Hs | exact Hc].
Qed.

Lemma Pacman_update_clear (p : Pacman) (dt : Q) :
  p_clear p → p_clear (Pacman_update p dt).
Proof.
  intros Hp. pose proof (p_turn_clear p Hp) as (Hr & _ & Hc).
  pose proof (Pacman_update_pos p dt) as (Hx & Hy & Hrad). cbv zeta in Hx, Hy.
  split; [congruence|]. split; [apply Pacman_update_synced|].
  unfold pacman_rect in *. rewrite Hx, Hy, Hrad.
  apply slide_y_clear, slide_x_clear, Hc.
Qed.

Lemma p_clear_same_place (p p' : Pacman) :
  p_col p' = p_col p → p_row p' = p_row p → p_x p' = p_x p → p_y p' = p_y p →
  p_radius p' = p_radius p →
  p_clear p → p_clear p'.
Proof.
  intros Hc Hr Hx Hy Hrad. unfold p_clear, p_synced, pacman_rect.
  rewrite Hc, Hr, Hx, Hy, Hrad. tauto.
Qed.

Lemma resolve_hits_clear (hits : list nat) (p : Pacman) (gs : list Ghost) (go : bool) :
  p_clear p → p_clear (resolve_hits hits p gs go).1.1.
Proof.
  revert p gs. induction hits as [|i hits IH]; intros p gs Hp; [exact Hp|].
  cbn [resolve_hits]. destruct (gs !! i) as [g|]; [|apply IH, Hp].
  destruct (mode g).
  - unfold reset_positions. cbn [fst snd].
    pose proof (p_center_in_cell_clear (p_set_lives p (lives p - 1))) as H.
    assert (Hl : p_clear (p_set_lives p (lives p - 1)))
      by (apply (p_clear_same_place p); auto).
    specialize (H Hl).
    apply (p_clear_same_place (p_center_in_cell (p_set_lives p (lives p - 1))));
      auto.
  - apply IH. apply (p_clear_same_place p); auto.
  - apply IH, Hp.
Qed.

Lemma advance_clear (st st' : Game) (dt : Q) (rnd : nat → nat) :
  advance st dt rnd = Some st' → p_clear (pacman st) → p_clear (pacman st').
Proof.
  intros Hadv Hp. destruct (game_over st || win st) eqn:Hterm.
  - rewrite frozen_advance in Hadv by exact Hterm. apply (inj Some) in Hadv.
    subst st'. exact Hp.
  - destruct (advance_live st st' dt rnd Hadv Hterm)
      as (ate & p2 & d2 & pw2 & gs2 & He & Hu & gs3 & res & -> & -> & ->).
    cbn [pacman]. apply resolve_hits_clear.
    pose proof (handle_pacman_eats_place (Pacman_update (pacman st) dt)
                  (dots st) (power st)) as Hpl.
    rewrite He in Hpl. cbn [fst snd] in Hpl.
    destruct Hpl as (Hc & Hr & Hx & Hy & Hrad).
    apply (p_clear_same_place (Pacman_update (pacman st) dt)); auto.
    apply Pacman_update_clear, Hp.
Qed.

Lemma run_clear (frames : list (Q * (nat → nat))) (st st' : Game) :
  run st frames = Some st' → p_clear (pacman st) → p_clear (pacman st').
Proof.
  revert st. induction frames as [|[dt rnd] frames IH]; intros st; cbn [run].
  - intros [= <-] H. exact H.
  - destruct (advance st dt rnd) as [st1|] eqn:Hadv; [|discriminate].
    cbn [mbind option_bind]. intros Hrun Hp.
    apply (IH st1 Hrun). apply (advance_clear st st1 dt rnd Hadv Hp).
Qed.

Lemma new_game_pacman (st0 : Game) :
  new_game = Some st0 → pacman st0 = Pacman_init start_cell.1 start_cell.2.
Proof.
  unfold new_game. destruct load_dots as [[d pw]|]; [|discriminate].
  cbn [mbind option_bind]. destruct create_ghosts as [gs|]; [|discriminate].
  cbn [mbind option_bind]. intros H. apply (inj Some) in H. subst st0. reflexivity.
Qed.

(** X4.  The player never overlaps a wall.  A player whose box hits no
    wall or door tile keeps that through [Pacman.update], through every
    tick and through every run, whatever the frame times and the
    collisions; the player of a new game starts that way.  So in every
    state of every run from a new game, [hits_wall] is false on the
    player's box. *)
Theorem player_never_in_wall (st st' : Game) (frames : list (Q * (nat → nat))) :
  p_clear (pacman st) →
  run st frames = Some st' →
  (∀ dt, p_clear (Pacman_update (pacman st) dt))
  ∧ p_clear (pacman st')
  ∧ hits_wall (pacman_rect (pacman st')) = false
  ∧ (∀ st0, new_game = Some st0 → p_clear (pacman st0)).
Proof.
  intros Hp Hrun. split; [intros dt; apply Pacman_update_clear, Hp|].
  pose proof (run_clear frames st st' Hrun Hp) as H'.
  split; [exact H'|]. split; [apply H'|].
  intros st0 H0. rewrite (new_game_pacman st0 H0).
  split; [reflexivity|]. split; vm_compute; reflexivity.
Qed.

Lemma player_never_in_wall_witness :
  p_clear (pacman dot_state)
  ∧ ∃ st', run dot_state [(frame, no_draw); (frame, no_draw)] = Some st'
           ∧ hits_wall (pacman_rect (pacman st')) = false.
Proof.
  assert (H0 : p_clear (pacman dot_state)).
  { split; [reflexivity|]. split; vm_compute; reflexivity. }
  split; [exact H0|].
  assert (Hrun : ∃ st', run dot_state [(frame, no_draw); (frame, no_draw)] = Some st')
    by (eexists; vm_compute; reflexivity).
  destruct Hrun as [st' Hrun]. exists st'. split; [exact Hrun|].
  destruct (player_never_in_wall dot_state st' _ H0 Hrun) as (_ & _ & H & _).
  exact H.
Defined.

(** ** The candidate directions, in general *)

Section candidates.
Context (col row : Z) (dir : Z * Z).

Let open (d : Z * Z) : bool := negb (is_wall (col + d.1) (row + d.2)).
Let step := candidate_step col row dir.

Lemma candidate_step_cases (acc : list (Z * Z)) (d : Z * Z) :
  (step acc d = acc ++ [d]
   ∧ open d = true ∧ (neg_dir d ≠ dir ∨ acc = []))
  ∨ (step acc d = acc ∧ (open d = false ∨ (neg_dir d = dir ∧ acc ≠ []))).
Proof.
  unfold step, candidate_step, open.
  destruct (negb (is_wall (col + d.1) (row + d.2))); [|right; auto].
  destruct (bool_decide_reflect (neg_dir d ≠ dir)) as [Hn|Hn]; cbn [orb].
  - left. auto.
  - destruct acc as [|a acc]; cbn [length Nat.eqb].
    + left. auto.
    + right. split; [reflexivity|]. right. split; [|discriminate].
      destruct (decide (neg_dir d = dir)); [assumption | contradiction].
Qed.

Lemma candidates_fold_app (ds acc : list (Z * Z)) :
  ∃ l, fold_left step ds acc = acc ++ l ∧ l `sublist_of` ds
       ∧ ∀ d, d ∈ l → open d = true.
Proof.
  revert acc. induction ds as [|d ds IH]; intros acc; cbn [fold_left].
  - exists []. rewrite app_nil_r. split; [reflexivity|]. split; [constructor|].
    intros d H. inversion H.
  - destruct (IH (step acc d)) as (l & -> & Hsub & Hopen).
    destruct (candidate_step_cases acc d) as [(-> & Ho & _)|(-> & _)].
    + exists (d :: l). rewrite <- app_assoc. split; [reflexivity|].
      split; [constructor; exact Hsub|].
      intros e He. apply elem_of_cons in He as [->|He]; auto.
    + exists l. split; [reflexivity|]. split; [constructor; exact Hsub | exact Hopen].
Qed.

Lemma candidates_fold_complete (ds acc : list (Z * Z)) (d : Z * Z) :
  d ∈ ds → open d = true → neg_dir d ≠ dir → d ∈ fold_left step ds acc.
Proof.
  revert acc. induction ds as [|e ds IH]; intros acc Hd Ho Hn; [inversion Hd|].
  cbn [fold_left]. apply elem_of_cons in Hd as [<-|Hd]; [|apply IH; assumption].
  destruct (candidates_fold_app ds (step acc d)) as (l & -> & _).
  apply elem_of_app. left.
  destruct (candidate_step_cases acc d) as [(-> & _)|(_ & [Hc|[Hc _]])].
  - apply elem_of_app. right. left.
  - congruence.
  - contradiction.
Qed.

Lemma candidates_fold_nil (ds acc : list (Z * Z)) :
  fold_left step ds acc = [] ↔ acc = [] ∧ ∀ d, d ∈ ds → open d = false.
Proof.
  revert acc. induction ds as [|d ds IH]; intros acc; cbn [fold_left].
  - split; [intros ->; split; [reflexivity|]; intros d H; inversion H | tauto].
  - rewrite IH. split.
    + intros [Hs Hds].
      destruct (candidate_step_cases acc d) as [(E & _)|(E & [Ho|[_ Hne]])];
        rewrite E in Hs.
      * destruct acc; discriminate.
      * split; [exact Hs|]. intros e He.
        apply elem_of_cons in He as [->|He]; auto.
      * contradiction.
    + intros [-> Hds]. split.
      * destruct (candidate_step_cases [] d) as [(_ & Ho & _)|(E & _)]; [|exact E].
        rewrite (Hds d) in Ho by left. discriminate.
      * intros e He. apply Hds. right. exact He.
Qed.

Lemma candidates_reverse (pre post : list (Z * Z)) (r : Z * Z) :
  neg_dir r = dir → r ∉ pre → r ∉ post →
  r ∈ fold_left step (pre ++ r :: post) []
  ↔ open r = true ∧ ∀ e, e ∈ pre → open e = false.
Proof.
  intros Hr Hpre Hpost. rewrite fold_left_app. cbn [fold_left].
  destruct (candidates_fold_app pre []) as (A & HA & HsubA & _).
  cbn [app] in HA. rewrite HA.
  assert (HrA : r ∉ A) by (intros H; apply Hpre, (elem_of_sublist _ _ _ H HsubA)).
  destruct (candidates_fold_app post (step A r)) as (l & -> & Hsubl & _).
  assert (Hrl : r ∉ l) by (intros H; apply Hpost, (elem_of_sublist _ _ _ H Hsubl)).
  pose proof (candidates_fold_nil pre []) as Hnil. rewrite HA in Hnil.
  rewrite elem_of_app.
  destruct (candidate_step_cases A r) as [(-> & Ho & [Hn| ->])|(-> & Hc)].
  - contradiction.
  - split; [intros _|intros _; left; apply elem_of_app; right; left].
    split; [exact Ho|]. apply Hnil. reflexivity.
  - split; [intros [H|H]; contradiction|].
    intros [Ho Hwalls]. exfalso. destruct Hc as [Hc|[_ Hne]]; [congruence|].
    apply Hne, Hnil. auto.
Qed.

End candidates.

Lemma neg_dir_involutive (d : Z * Z) : neg_dir (neg_dir d) = d.
Proof. destruct d as [a b]. unfold neg_dir. cbn. f_equal; lia. Qed.

(** X5.  The candidate list of [Ghost.update], for every cell and every
    current direction: it lists open directions only, in the order
    right, left, down, up and without repetition; every open direction
    other than the reverse of the current one is listed; the list is
    empty exactly when all four neighbours are blocked; and the reverse
    direction is listed exactly when it is open and every direction
    that precedes it in that order is blocked. *)
Theorem candidate_dirs_spec (col row : Z) (dir : Z * Z) :
  let cs := candidate_dirs col row dir in
  NoDup cs
  ∧ cs `sublist_of` DIRS
  ∧ (∀ d, d ∈ cs → d ∈ DIRS ∧ is_wall (col + d.1) (row + d.2) = false)
  ∧ (∀ d, d ∈ DIRS → is_wall (col + d.1) (row + d.2) = false →
          d ≠ neg_dir dir → d ∈ cs)
  ∧ (cs = [] ↔ ∀ d, d ∈ DIRS → is_wall (col + d.1) (row + d.2) = true)
  ∧ (∀ pre post, DIRS = pre ++ neg_dir dir :: post →
       neg_dir dir ∈ cs
       ↔ is_wall (col + (neg_dir dir).1) (row + (neg_dir dir).2) = false
         ∧ ∀ e, e ∈ pre → is_wall (col + e.1) (row + e.2) = true).
Proof.
  intros cs. unfold cs, candidate_dirs.
  assert (Hnd : NoDup DIRS) by (apply (bool_decide_unpack _); reflexivity).
  destruct (candidates_fold_app col row dir DIRS []) as (l & Hl & Hsub & Hopen).
  cbn [app] in Hl.
  split; [rewrite Hl; apply (sublist_NoDup l DIRS); assumption|].
  split; [rewrite Hl; exact Hsub|].
  split; [|split; [|split]].
  - intros d Hd. rewrite Hl in Hd. split; [apply (elem_of_sublist _ _ _ Hd Hsub)|].
    apply negb_true_iff, Hopen, Hd.
  - intros d Hd Ho Hn. apply candidates_fold_complete; [exact Hd | |].
    + apply negb_true_iff, Ho.
    + intros E. apply Hn. rewrite <- E. symmetry. apply neg_dir_involutive.
  - rewrite candidates_fold_nil. split.
    + intros [_ H] d Hd. apply negb_false_iff, H, Hd.
    + intros H. split; [reflexivity|]. intros d Hd. apply negb_false_iff, H, Hd.
  - intros pre post E. rewrite E in Hnd |- *.
    apply NoDup_app in Hnd as (_ & Hpre & Hpost).
    apply NoDup_cons in Hpost as [Hpost _].
    rewrite candidates_reverse.
    + rewrite negb_true_iff. split; intros [H1 H2]; (split; [exact H1|]);
        intros e He; [apply negb_false_iff | apply negb_false_iff]; apply H2, He.
    + apply neg_dir_involutive.
    + intros H. apply (Hpre _ H). left.
    + exact Hpost.
Qed.

Lemma candidate_dirs_spec_witness :
  is_wall (5 + (-1, 0).1) (5 + (-1, 0).2) = false
  ∧ (-1, 0) ≠ neg_dir (0, 1)
  ∧ (-1, 0) ∈ candidate_dirs 5 5 (0, 1).
Proof.
  split; [reflexivity|]. split; [discriminate|].
  destruct (candidate_dirs_spec 5 5 (0, 1)) as (_ & _ & _ & H & _).
  apply H; [right; left | reflexivity | discriminate].
Defined.

(** ** The choice among the candidates *)

Section best.
Context (better : Z → Z → bool) (dist : Z * Z → Z) (sentinel : Z).
Hypothesis better_trans : ∀ a b c,
  better a b = true → better b c = true → better a c = true.
Hypothesis better_neg_trans : ∀ a b c,
  better a b = false → better b c = false → better a c = false.

(** What the loop holds after the options [seen]. *)
Let inv (seen : list (Z * Z)) (acc : option (Z * Z) * Z) : Prop :=
  match acc.1 with
  | None => acc.2 = sentinel ∧ ∀ e, e ∈ seen → better (dist e) sentinel = false
  | Some d =>
      acc.2 = dist d ∧ better (dist d) sentinel = true
      ∧ ∃ pre post, seen = pre ++ d :: post
          ∧ (∀ e, e ∈ pre → better (dist d) (dist e) = true)
          ∧ (∀ e, e ∈ post → better (dist e) (dist d) = false)
  end.

Lemma better_over (a b c : Z) :
  better a b = true → better c b = false → better a c = true.
Proof.
  intros Hab Hcb. destruct (better a c) eqn:E; [reflexivity|].
  rewrite (better_neg_trans a c b E Hcb) in Hab. discriminate.
Qed.

Lemma best_step_inv (seen : list (Z * Z)) (acc : option (Z * Z) * Z) (d : Z * Z) :
  inv seen acc → inv (seen ++ [d]) (best_step better dist acc d).
Proof.
  unfold inv, best_step. destruct acc as [[b|] bd]; cbn [fst snd].
  - intros (-> & Hs & pre & post & -> & Hpre & Hpost).
    destruct (better (dist d) (dist b)) eqn:E; cbn [fst snd].
    + split; [reflexivity|]. split; [apply (better_trans _ _ _ E Hs)|].
      exists (pre ++ b :: post), []. split; [reflexivity|].
      split; [|intros e He; inversion He].
      intros e He. apply elem_of_app in He as [He|He].
      * apply (better_trans _ _ _ E), Hpre, He.
      * apply elem_of_cons in He as [->|He]; [exact E|].
        apply (better_over _ _ _ E), Hpost, He.
    + split; [reflexivity|]. split; [exact Hs|].
      exists pre, (post ++ [d]). rewrite <- app_assoc. split; [reflexivity|].
      split; [exact Hpre|]. intros e He.
      apply elem_of_app in He as [He|He]; [apply Hpost, He|].
      apply list_elem_of_singleton in He as ->. exact E.
  - intros (-> & Hseen).
    destruct (better (dist d) sentinel) eqn:E; cbn [fst snd].
    + split; [reflexivity|]. split; [exact E|].
      exists seen, []. split; [reflexivity|]. split; [|intros e He; inversion He].
      intros e He. apply (better_over _ _ _ E), Hseen, He.
    + split; [reflexivity|]. intros e He.
      apply elem_of_app in He as [He|He]; [apply Hseen, He|].
      apply list_elem_of_singleton in He as ->. exact E.
Qed.

Lemma best_fold_inv (rest seen : list (Z * Z)) (acc : option (Z * Z) * Z) :
  inv seen acc → inv (seen ++ rest) (fold_left (best_step better dist) rest acc).
Proof.
  revert seen acc. induction rest as [|d rest IH]; intros seen acc H; cbn [fold_left].
  - rewrite app_nil_r. exact H.
  - replace (seen ++ d :: rest) with ((seen ++ [d]) ++ rest)
      by (rewrite <- app_assoc; reflexivity).
    apply IH, best_step_inv, H.
Qed.

(** The loop returns the first option that no other option beats, or
    [None] when no option beats the sentinel. *)
Lemma best_of_spec (options : list (Z * Z)) :
  match best_of better sentinel dist options with
  | None => ∀ e, e ∈ options → better (dist e) sentinel = false
  | Some d =>
      better (dist d) sentinel = true
      ∧ ∃ pre post, options = pre ++ d :: post
          ∧ (∀ e, e ∈ pre → better (dist d) (dist e) = true)
          ∧ (∀ e, e ∈ post → better (dist e) (dist d) = false)
  end.
Proof.
  unfold best_of.
  pose proof (best_fold_inv options [] (None, sentinel)) as H.
  cbn [app] in H. unfold inv in H.
  destruct (fold_left (best_step better dist) options (None, sentinel)).1.
  - apply H. cbn. split; [reflexivity|]. intros e He. inversion He.
  - apply H. cbn. split; [reflexivity|]. intros e He. inversion He.
Qed.

End best.

Lemma ltb_trans (a b c : Z) : (a <? b) = true → (b <? c) = true → (a <? c) = true.
Proof. rewrite !Z.ltb_lt. lia. Qed.

Lemma ltb_neg_trans (a b c : Z) : (a <? b) = false → (b <? c) = false → (a <? c) = false.
Proof. rewrite !Z.ltb_ge. lia. Qed.

Lemma gtb_trans (a b c : Z) : (a >? b) = true → (b >? c) = true → (a >? c) = true.
Proof. rewrite !Z.gtb_ltb, !Z.ltb_lt. lia. Qed.

Lemma gtb_neg_trans (a b c : Z) : (a >? b) = false → (b >? c) = false → (a >? c) = false.
Proof. rewrite !Z.gtb_ltb, !Z.ltb_ge. lia. Qed.

Lemma dist2_nonneg (col row : Z) (target d : Z * Z) : 0 ≤ dist2 col row target d.
Proof.
  unfold dist2. apply Z.add_nonneg_nonneg; rewrite Z.pow_2_r; apply Z.square_nonneg.
Qed.

(** X6.  [_choose_dir], for every ghost and option list.  With no
    option it answers [(0, 0)].  A vulnerable ghost always gets an
    option at maximal squared distance from the player, the first such
    in the list; a chasing ghost gets the first option at minimal
    squared distance, or [None] when every option is 10^9 or more away;
    a random ghost gets the option the draw points at. *)
Theorem choose_dir_spec (g : Ghost) (options : list (Z * Z)) (pac : Pacman) (pick : nat) :
  let dist := dist2 (g_col g) (g_row g) (p_col pac, p_row pac) in
  (options = [] → choose_dir g options pac pick = Some (0, 0))
  ∧ (options ≠ [] → mode g = vulnerable →
       ∃ d pre post, choose_dir g options pac pick = Some d
         ∧ options = pre ++ d :: post
         ∧ (∀ e, e ∈ pre → dist e < dist d)
         ∧ (∀ e, e ∈ post → dist e ≤ dist d))
  ∧ (options ≠ [] → mode g ≠ vulnerable → behavior g = random →
       ∃ d, choose_dir g options pac pick = Some d
            ∧ options !! (pick mod length options)%nat = Some d)
  ∧ (options ≠ [] → mode g ≠ vulnerable → behavior g = chase →
       match choose_dir g options pac pick with
       | Some d => ∃ pre post, options = pre ++ d :: post
                     ∧ (∀ e, e ∈ pre → dist d < dist e)
                     ∧ (∀ e, e ∈ post → dist d ≤ dist e)
       | None => ∀ e, e ∈ options → SENTINEL ≤ dist e
       end).
Proof.
  intros dist. split; [intros ->; reflexivity|].
  split; [|split].
  - intros Hne Hm. unfold choose_dir.
    destruct options as [|o options]; [contradiction|].
    rewrite bool_decide_eq_true_2 by exact Hm. fold dist.
    pose proof (best_of_spec Z.gtb dist (-1) gtb_trans gtb_neg_trans (o :: options)) as H.
    destruct (best_of Z.gtb (-1) dist (o :: options)) as [d|].
    + destruct H as (_ & pre & post & E & Hpre & Hpost).
      exists d, pre, post. split; [reflexivity|]. split; [exact E|].
      split; intros e He.
      * specialize (Hpre e He). rewrite Z.gtb_ltb, Z.ltb_lt in Hpre. exact Hpre.
      * specialize (Hpost e He). rewrite Z.gtb_ltb, Z.ltb_ge in Hpost. exact Hpost.
    + exfalso. specialize (H o ltac:(left)).
      rewrite Z.gtb_ltb, Z.ltb_ge in H.
      pose proof (dist2_nonneg (g_col g) (g_row g) (p_col pac, p_row pac) o).
      unfold dist in H. lia.
  - intros Hne Hm Hb. unfold choose_dir.
    destruct options as [|o options]; [contradiction|].
    rewrite bool_decide_eq_false_2 by exact Hm.
    rewrite bool_decide_eq_true_2 by exact Hb.
    destruct (lookup_lt_is_Some_2 (o :: options) (pick mod length (o :: options))%nat)
      as [d Hd].
    { apply Nat.mod_upper_bound. discriminate. }
    exists d. rewrite Hd. auto.
  - intros Hne Hm Hb. unfold choose_dir.
    destruct options as [|o options]; [contradiction|].
    rewrite bool_decide_eq_false_2 by exact Hm.
    rewrite bool_decide_eq_false_2 by (rewrite Hb; discriminate). fold dist.
    pose proof (best_of_spec Z.ltb dist SENTINEL ltb_trans ltb_neg_trans (o :: options)) as H.
    destruct (best_of Z.ltb SENTINEL dist (o :: options)) as [d|].
    + destruct H as (_ & pre & post & E & Hpre & Hpost).
      exists pre, post. split; [exact E|].
      split; intros e He.
      * specialize (Hpre e He). rewrite Z.ltb_lt in Hpre. exact Hpre.
      * specialize (Hpost e He). rewrite Z.ltb_ge in Hpost. exact Hpost.
    + intros e He. specialize (H e He). rewrite Z.ltb_ge in H. exact H.
Qed.

Lemma choose_dir_spec_witness :
  [(1, 0); (-1, 0)] ≠ [] ∧ mode corridor_ghost ≠ vulnerable
  ∧ behavior corridor_ghost = chase
  ∧ match choose_dir corridor_ghost [(1, 0); (-1, 0)] corridor_pacman 0 with
    | Some d => ∃ pre post, [(1, 0); (-1, 0)] = pre ++ d :: post
                  ∧ (∀ e, e ∈ pre → dist2 5 5 (20, 5) d < dist2 5 5 (20, 5) e)
                  ∧ (∀ e, e ∈ post → dist2 5 5 (20, 5) d ≤ dist2 5 5 (20, 5) e)
    | None => ∀ e, e ∈ [(1, 0); (-1, 0)] → SENTINEL ≤ dist2 5 5 (20, 5) e
    end.
Proof.
  split; [discriminate|]. split; [discriminate|]. split; [reflexivity|].
  destruct (choose_dir_spec corridor_ghost [(1, 0); (-1, 0)] corridor_pacman 0)
    as (_ & _ & _ & H).
  apply H; [discriminate | discriminate | reflexivity].
Defined.

(** ** Ghosts on a door cell *)

Lemma ghost_move_pos (hits : Rect → bool) (g : Ghost) (d : Z * Z) (sp : Z) (dt : Q) :
  let dx := (inject_Z d.1 * inject_Z sp * dt)%Q in
  let dy := (inject_Z d.2 * inject_Z sp * dt)%Q in
  let hx := hits (entity_rect (g_x g + dx) (g_y g) (g_radius g)) in
  let x2 := slide_x hits (g_x g) (g_y g) (g_radius g) dx in
  let hy := hits (entity_rect x2 (g_y g + dy) (g_radius g)) in
  let y2 := slide_y hits x2 (g_y g) (g_radius g) dy in
  let g' := ghost_move hits g d sp dt in
  g_x g' = x2 ∧ g_y g' = y2 ∧ g_radius g' = g_radius g
  ∧ g_dir g' = (if hy then (0, 0) else if hx then (0, 0) else g_dir g)
  ∧ (g_col g', g_row g') = grid_pos x2 y2
  ∧ mode g' = mode g ∧ spawn g' = spawn g ∧ home g' = home g
  ∧ behavior g' = behavior g.
Proof.
  destruct g as [c r x y rad gd td s h m b ft].
  cbv beta iota zeta delta
    [ghost_move slide_x slide_y ghost_rect g_set_pos g_set_cell g_set_dir
     g_x g_y g_radius g_dir g_col g_row mode spawn home behavior].
  repeat (match goal with
          | |- context [if ?b then _ else _] =>
              lazymatch b with
              | context [if _ then _ else _] => fail
              | _ => destruct b
              end
          end; cbv beta iota);
    repeat split; try reflexivity; symmetry; apply surjective_pairing.
Qed.

Lemma py_int_bounds (a b : Z) (q : Q) :
  (inject_Z a <= q)%Q → (q <= inject_Z b)%Q → a ≤ py_int q ≤ b.
Proof.
  intros Ha Hb. unfold py_int. destruct (Qle_bool 0 q).
  - pose proof (Qfloor_resp_le _ _ Ha) as H1. pose proof (Qfloor_resp_le _ _ Hb) as H2.
    rewrite Qfloor_Z in H1, H2. lia.
  - pose proof (Qceiling_resp_le _ _ Ha) as H1.
    pose proof (Qceiling_resp_le _ _ Hb) as H2.
    rewrite Qceiling_Z in H1, H2. lia.
Qed.

(** A ghost-sized box within 14 px of the centre of a door cell, on
    both axes, still overlaps that cell: [hits_wall] is true. *)
Lemma door_box_hits (c r : Z) (x y : Q) :
  is_door c r = true →
  ((world (c, r)).1 - 14 <= x)%Q → (x <= (world (c, r)).1 + 14)%Q →
  ((world (c, r)).2 - 14 <= y)%Q → (y <= (world (c, r)).2 + 14)%Q →
  hits_wall (entity_rect x y (TILE_SIZE / 2 - 3)) = true.
Proof.
  intros Hd X1 X2 Y1 Y2.
  unfold is_door in Hd. destruct (is_inside_grid c r) eqn:Hg; [|discriminate].
  unfold world, grid_to_world in *. cbn [fst snd] in *.
  change (TILE_SIZE / 2 - 3) with 6.
  set (cx := OFFSET_X + c * TILE_SIZE + TILE_SIZE / 2) in *.
  set (cy := OFFSET_Y + r * TILE_SIZE + TILE_SIZE / 2) in *.
  assert (HX : cx - 20 ≤ py_int (x - inject_Z 6) ≤ cx + 8).
  { apply py_int_bounds.
    - unfold Z.sub. rewrite inject_Z_plus, inject_Z_opp.
      change (inject_Z 20) with 20%Q. change (inject_Z 6) with 6%Q. lra.
    - rewrite inject_Z_plus. change (inject_Z 8) with 8%Q.
      change (inject_Z 6) with 6%Q. lra. }
  assert (HY : cy - 20 ≤ py_int (y - inject_Z 6) ≤ cy + 8).
  { apply py_int_bounds.
    - unfold Z.sub. rewrite inject_Z_plus, inject_Z_opp.
      change (inject_Z 20) with 20%Q. change (inject_Z 6) with 6%Q. lra.
    - rewrite inject_Z_plus. change (inject_Z 8) with 8%Q.
      change (inject_Z 6) with 6%Q. lra. }
  apply hits_wall_tiles; [reflexivity..|].
  exists c, r. split; [exact Hg|]. split.
  { unfold is_wall. rewrite Hg, Hd. apply orb_true_r. }
  apply colliderect_tile; [reflexivity..|].
  unfold r_right, r_bottom, entity_rect. cbn [r_left r_top r_width r_height].
  unfold cx, cy, TILE_SIZE in HX, HY. change (19 / 2) with 9 in HX, HY.
  unfold TILE_SIZE. lia.
Qed.

Lemma choose_dir_elem (g : Ghost) (options : list (Z * Z)) (pac : Pacman)
    (pick : nat) (d : Z * Z) :
  choose_dir g options pac pick = Some d → d ∈ options ∨ d = (0, 0).
Proof.
  unfold choose_dir. destruct options as [|o options]; [intros [= <-]; auto|].
  set (dist := dist2 (g_col g) (g_row g) (p_col pac, p_row pac)).
  destruct (bool_decide (mode g = vulnerable)).
  - pose proof (best_of_spec Z.gtb dist (-1) gtb_trans gtb_neg_trans (o :: options)) as H.
    intros E. rewrite E in H. destruct H as (_ & pre & post & -> & _).
    left. apply elem_of_app. right. left.
  - destruct (bool_decide (behavior g = random)).
    + intros E. left. apply (list_elem_of_lookup_2 _ _ _ E).
    + pose proof (best_of_spec Z.ltb dist SENTINEL ltb_trans ltb_neg_trans
                    (o :: options)) as H.
      intros E. rewrite E in H. destruct H as (_ & pre & post & -> & _).
      left. apply elem_of_app. right. left.
Qed.

Lemma candidate_dirs_DIRS (col row : Z) (dir d : Z * Z) :
  d ∈ candidate_dirs col row dir → d ∈ DIRS.
Proof.
  unfold candidate_dirs.
  destruct (candidates_fold_app col row dir DIRS []) as (l & -> & Hsub & _).
  cbn [app]. intros H. apply (elem_of_sublist _ _ _ H Hsub).
Qed.

Lemma dir_components (d : Z * Z) :
  d ∈ DIRS ∨ d = (0, 0) → -1 ≤ d.1 ≤ 1 ∧ -1 ≤ d.2 ≤ 1.
Proof.
  intros [H| ->]; [|cbn; lia].
  unfold DIRS in H. set_unfold in H.
  destruct H as [->|[->|[->|[->|[]]]]]; cbn; lia.
Qed.

Lemma step_small (k sp : Z) (dt : Q) :
  -1 ≤ k ≤ 1 → sp = VULNERABLE_SPEED ∨ sp = GHOST_SPEED → calm dt →
  (-14 <= inject_Z k * inject_Z sp * dt)%Q ∧ (inject_Z k * inject_Z sp * dt <= 14)%Q.
Proof.
  intros Hk Hsp [H0 H1].
  assert (k = -1 ∨ k = 0 ∨ k = 1) as [-> | [-> | ->]] by lia;
    destruct Hsp as [->| ->];
    unfold VULNERABLE_SPEED, GHOST_SPEED;
    change (inject_Z (-1)) with (-1)%Q; change (inject_Z 0) with 0%Q;
    change (inject_Z 1) with 1%Q; change (inject_Z 70) with 70%Q;
    change (inject_Z 90) with 90%Q; split; lra.
Qed.

Lemma near_centre (x : Q) (cx : Z) : (x == inject_Z cx)%Q → near x cx = true.
Proof.
  intros H. unfold near. apply Qle_bool_iff.
  assert (E : (x - inject_Z cx == 0)%Q) by (rewrite H; ring).
  rewrite E. discriminate.
Qed.

Lemma speed_values (g : Ghost) : speed g = VULNERABLE_SPEED ∨ speed g = GHOST_SPEED.
Proof. unfold speed. destruct (bool_decide _); auto. Qed.

Lemma in_tile_centre (offset c : Z) (q : Q) :
  (q == inject_Z (offset + c * TILE_SIZE + TILE_SIZE / 2))%Q → in_tile offset q c.
Proof.
  intros H. unfold in_tile. rewrite H, <- Zle_Qle, <- Zlt_Qlt.
  unfold TILE_SIZE. change (19 / 2) with 9. lia.
Qed.

(** A ghost resting on a door cell is held there by [Ghost.update]. *)
Lemma Ghost_update_door (g g' : Ghost) (dt : Q) (pac : Pacman) (pick : nat) :
  door_bound g → calm dt →
  Ghost_update g dt pac pick = Some g' →
  door_bound g'
  ∧ (g_col g', g_row g') = (g_col g, g_row g)
  ∧ g_dir g' = (0, 0) ∧ mode g' = mode g
  ∧ spawn g' = spawn g ∧ home g' = home g ∧ behavior g' = behavior g.
Proof.
  intros (Hdoor & Hrad & Hmode & Hx & Hy) Hcalm. unfold Ghost_update.
  rewrite bool_decide_eq_false_2 by exact Hmode.
  unfold world in Hx, Hy. cbn [fst snd] in Hx, Hy.
  pose proof (door_box_hits (g_col g) (g_row g)) as Hbox.
  unfold world in Hbox. cbn [fst snd] in Hbox.
  destruct (grid_to_world (g_col g) (g_row g)) as [cx cy] eqn:Hw.
  cbn [fst snd] in Hx, Hy, Hbox.
  rewrite (near_centre _ _ Hx), (near_centre _ _ Hy). cbn [andb].
  destruct (choose_dir _ _ pac pick) as [d|] eqn:Hd; [|discriminate].
  cbn [mbind option_bind]. intros H. apply (inj Some) in H. subst g'.
  apply choose_dir_elem in Hd. cbn [g_col g_row g_set_pos g_dir] in Hd.
  assert (Hcomp : -1 ≤ d.1 ≤ 1 ∧ -1 ≤ d.2 ≤ 1).
  { apply dir_components. destruct Hd as [Hd|Hd]; [left|right; exact Hd].
    apply (candidate_dirs_DIRS _ _ _ _ Hd). }
  set (g1 := g_set_dir (g_set_pos g (inject_Z cx) (inject_Z cy)) d).
  pose proof (ghost_move_pos hits_wall g1 (g_dir g1) (speed g1) dt) as Hpos.
  cbv zeta in Hpos.
  change (g_dir g1) with d in *. change (g_x g1) with (inject_Z cx) in *.
  change (g_y g1) with (inject_Z cy) in *. change (g_radius g1) with (g_radius g) in *.
  change (mode g1) with (mode g) in *. change (spawn g1) with (spawn g) in *.
  change (home g1) with (home g) in *. change (behavior g1) with (behavior g) in *.
  rewrite Hrad in Hpos.
  destruct (step_small d.1 (speed g1) dt (proj1 Hcomp) (speed_values g1) Hcalm) as [DX1 DX2].
  destruct (step_small d.2 (speed g1) dt (proj2 Hcomp) (speed_values g1) Hcalm) as [DY1 DY2].
  set (dx := (inject_Z d.1 * inject_Z (speed g1) * dt)%Q) in *.
  set (dy := (inject_Z d.2 * inject_Z (speed g1) * dt)%Q) in *.
  assert (Hhx : hits_wall (entity_rect (inject_Z cx + dx) (inject_Z cy) (TILE_SIZE / 2 - 3))
                = true).
  { apply Hbox; [exact Hdoor | lra..]. }
  assert (Hx2 : (slide_x hits_wall (inject_Z cx) (inject_Z cy) (TILE_SIZE / 2 - 3) dx
                 == inject_Z cx)%Q).
  { unfold slide_x. rewrite Hhx. ring. }
  set (x2 := slide_x hits_wall (inject_Z cx) (inject_Z cy) (TILE_SIZE / 2 - 3) dx) in *.
  assert (Hhy : hits_wall (entity_rect x2 (inject_Z cy + dy) (TILE_SIZE / 2 - 3)) = true).
  { apply Hbox; [exact Hdoor | lra..]. }
  assert (Hy2 : (slide_y hits_wall x2 (inject_Z cy) (TILE_SIZE / 2 - 3) dy
                 == inject_Z cy)%Q).
  { unfold slide_y. rewrite Hhy. ring. }
  set (y2 := slide_y hits_wall x2 (inject_Z cy) (TILE_SIZE / 2 - 3) dy) in *.
  rewrite Hhy in Hpos.
  set (g' := ghost_move hits_wall g1 d (speed g1) dt) in *. clearbody g'.
  destruct Hpos as (Px & Py & Pr & Pd & Pc & Pm & Ps & Ph & Pb).
  assert (Hcell : grid_pos x2 y2 = (g_col g, g_row g)).
  { apply grid_pos_tiles. unfold grid_to_world in Hw. injection Hw as <- <-.
    split; apply in_tile_centre; assumption. }
  rewrite Hcell in Pc. injection Pc as Pc1 Pc2.
  split.
  - unfold door_bound, world. rewrite Pc1, Pc2. cbn [fst snd].
    rewrite Hw, Px, Py, Pr, Pm. cbn [fst snd]. auto.
  - rewrite Pc1, Pc2. auto 10.
Qed.

Lemma choose_dir_total (g : Ghost) (options : list (Z * Z)) (pac : Pacman) (pick : nat) :
  (∀ d, d ∈ options → d ∈ DIRS) →
  is_inside_grid (g_col g) (g_row g) = true →
  is_inside_grid (p_col pac) (p_row pac) = true →
  is_Some (choose_dir g options pac pick).
Proof.
  intros Hopts Hg Hp. unfold choose_dir.
  destruct options as [|o options]; [eauto|].
  set (dist := dist2 (g_col g) (g_row g) (p_col pac, p_row pac)).
  destruct (bool_decide (mode g = vulnerable)).
  - pose proof (best_of_spec Z.gtb dist (-1) gtb_trans gtb_neg_trans (o :: options)) as H.
    destruct (best_of Z.gtb (-1) dist (o :: options)); [eauto|].
    exfalso. specialize (H o ltac:(left)). rewrite Z.gtb_ltb, Z.ltb_ge in H.
    pose proof (dist2_nonneg (g_col g) (g_row g) (p_col pac, p_row pac) o).
    unfold dist in H. lia.
  - destruct (bool_decide (behavior g = random)).
    + apply lookup_lt_is_Some_2, Nat.mod_upper_bound. discriminate.
    + apply best_of_lt_Some. apply dist2_in_grid; [exact Hg | exact Hp |].
      apply Hopts. left.
Qed.

Lemma Ghost_update_door_total (g : Ghost) (dt : Q) (pac : Pacman) (pick : nat) :
  door_bound g →
  is_inside_grid (p_col pac) (p_row pac) = true →
  is_Some (Ghost_update g dt pac pick).
Proof.
  intros (Hdoor & _ & Hmode & _) Hp. unfold Ghost_update.
  rewrite bool_decide_eq_false_2 by exact Hmode.
  destruct (grid_to_world (g_col g) (g_row g)) as [cx cy].
  destruct (near (g_x g) cx && near (g_y g) cy); cbn [mbind option_bind]; [|eauto].
  destruct (choose_dir_total (g_set_pos g (inject_Z cx) (inject_Z cy))
              (candidate_dirs (g_col g) (g_row g) (g_dir g)) pac pick) as [d Hd].
  - intros d. apply candidate_dirs_DIRS.
  - unfold is_door in Hdoor. cbn [g_col g_row g_set_pos].
    destruct (is_inside_grid (g_col g) (g_row g)); [reflexivity | discriminate].
  - exact Hp.
  - cbn [g_col g_row g_dir g_set_pos] in *. rewrite Hd. cbn [mbind option_bind]. eauto.
Qed.

Lemma create_ghosts_door_bound (gs : list Ghost) :
  create_ghosts = Some gs → Forall door_bound gs.
Proof.
  intros H. vm_compute in H. apply (inj Some) in H. subst gs.
  repeat constructor; try discriminate; vm_compute; reflexivity.
Qed.

(** X7.  A door cell holds a ghost.  A ghost outside eyes mode that
    rests at the centre of a door cell is still there after
    [Ghost.update], with its direction cleared, for every frame time up
    to 150 ms, every player position and every random draw: each axis
    move leaves its box over the door tile, [hits_wall] reports a hit
    and the move is undone.  The update returns when the player is
    inside the grid.  [create_ghosts] puts every ghost of this maze on
    such a cell. *)
Theorem door_holds_ghost (g : Ghost) (dt : Q) (pac : Pacman) (pick : nat) :
  door_bound g → calm dt →
  (∀ g', Ghost_update g dt pac pick = Some g' →
     door_bound g'
     ∧ (g_col g', g_row g') = (g_col g, g_row g)
     ∧ g_dir g' = (0, 0) ∧ mode g' = mode g)
  ∧ (is_inside_grid (p_col pac) (p_row pac) = true →
     is_Some (Ghost_update g dt pac pick))
  ∧ (∀ gs, create_ghosts = Some gs → Forall door_bound gs).
Proof.
  intros Hg Hdt. split; [|split].
  - intros g' H.
    destruct (Ghost_update_door g g' dt pac pick Hg Hdt H) as (H1 & H2 & H3 & H4 & _).
    auto.
  - apply Ghost_update_door_total, Hg.
  - apply create_ghosts_door_bound.
Qed.

Lemma door_holds_ghost_witness :
  door_bound (ghost_in (12, 21) (12, 21) (12, 21) (0, 0) normal chase)
  ∧ calm frame
  ∧ is_Some (Ghost_update (ghost_in (12, 21) (12, 21) (12, 21) (0, 0) normal chase)
                          frame corridor_pacman 0).
Proof.
  assert (Hg : door_bound (ghost_in (12, 21) (12, 21) (12, 21) (0, 0) normal chase)).
  { repeat split; try discriminate; vm_compute; reflexivity. }
  assert (Hc : calm frame) by (split; vm_compute; discriminate).
  split; [exact Hg|]. split; [exact Hc|].
  destruct (door_holds_ghost _ frame corridor_pacman 0 Hg Hc) as (_ & H & _).
  apply H. reflexivity.
Defined.

(** ** No ghost reaches the player *)

Lemma colliderect_pos (a b : Rect) :
  0 < r_width a → 0 < r_height a → 0 < r_width b → 0 < r_height b →
  colliderect a b = true
  ↔ r_left a < r_right b ∧ r_top a < r_bottom b
    ∧ r_left b < r_right a ∧ r_top b < r_bottom a.
Proof.
  intros Hwa Hha Hwb Hhb. unfold colliderect, r_right, r_bottom.
  destruct (Z.eqb_spec (r_width a) 0); [lia|].
  destruct (Z.eqb_spec (r_height a) 0); [lia|].
  destruct (Z.eqb_spec (r_width b) 0); [lia|].
  destruct (Z.eqb_spec (r_height b) 0); [lia|].
  cbn [orb]. rewrite !andb_true_iff, !Z.ltb_lt, !Z.gtb_lt. lia.
Qed.

Lemma door_bound_rect (g : Ghost) :
  door_bound g →
  ghost_rect g
  = mkRect (OFFSET_X + g_col g * TILE_SIZE + TILE_SIZE / 2 - 6)
           (OFFSET_Y + g_row g * TILE_SIZE + TILE_SIZE / 2 - 6) 12 12.
Proof.
  intros (_ & Hr & _ & Hx & Hy). unfold ghost_rect.
  rewrite (entity_rect_comp _ _ _ _ _ Hx Hy), centred_rect, Hr. reflexivity.
Qed.

Lemma no_touch (p : Pacman) (g : Ghost) :
  p_clear p → door_bound g →
  colliderect (pacman_rect p) (ghost_rect g) = false.
Proof.
  intros (Hr & _ & Hclear) Hg.
  destruct (colliderect (pacman_rect p) (ghost_rect g)) eqn:E; [|reflexivity].
  exfalso. rewrite (door_bound_rect g Hg) in E.
  destruct Hg as (Hdoor & _).
  unfold is_door in Hdoor.
  destruct (is_inside_grid (g_col g) (g_row g)) eqn:Hin; [|discriminate].
  assert (Hw : 0 < r_width (pacman_rect p) ∧ 0 < r_height (pacman_rect p)).
  { unfold pacman_rect, entity_rect. cbn [r_width r_height]. rewrite Hr.
    split; reflexivity. }
  destruct Hw as [Hw Hh].
  apply colliderect_pos in E; [|assumption || reflexivity..].
  unfold r_right, r_bottom in E. cbn [r_left r_top r_width r_height] in E.
  assert (H : hits_wall (pacman_rect p) = true); [|congruence].
  apply hits_wall_tiles; [assumption..|].
  exists (g_col g), (g_row g). split; [exact Hin|]. split.
  { unfold is_wall. rewrite Hin, Hdoor. apply orb_true_r. }
  apply colliderect_tile; [assumption..|].
  unfold r_right, r_bottom. unfold TILE_SIZE in *. change (19 / 2) with 9 in E. lia.
Qed.

Lemma collisions_from_nil (i : nat) (p : Pacman) (gs : list Ghost) :
  p_clear p → Forall door_bound gs → collisions_from i (pacman_rect p) gs = [].
Proof.
  intros Hp Hgs. revert i. induction Hgs as [|g gs Hg _ IH]; intros i; [reflexivity|].
  cbn [collisions_from]. rewrite (no_touch p g Hp Hg). apply IH.
Qed.

Lemma set_vulnerable_door (g : Ghost) : door_bound g → door_bound (set_vulnerable g).
Proof.
  intros (H1 & H2 & H3 & H4 & H5). unfold set_vulnerable.
  rewrite bool_decide_eq_true_2 by exact H3.
  repeat split; try assumption. discriminate.
Qed.

Lemma end_power_door (g : Ghost) : door_bound g → door_bound (end_power g).
Proof.
  intros (H1 & H2 & H3 & H4 & H5). unfold end_power.
  destruct (bool_decide (mode g = vulnerable)); repeat split; try assumption.
  discriminate.
Qed.

Lemma update_ghosts_Forall_rel (P R : Ghost → Prop) (dt : Q) (pac : Pacman)
    (rnd : nat → nat) :
  (∀ g g' pick, P g → Ghost_update g dt pac pick = Some g' → R g') →
  ∀ gs i gs', Forall P gs → update_ghosts gs i dt pac rnd = Some gs' → Forall R gs'.
Proof.
  intros HP. induction gs as [|g gs IH]; intros i gs' Hgs; cbn [update_ghosts].
  - intros [= <-]. constructor.
  - apply Forall_cons in Hgs as [Hg Hgs].
    destruct (Ghost_update g dt pac (rnd i)) as [g1|] eqn:E; [|discriminate].
    cbn [mbind option_bind].
    destruct (update_ghosts gs (S i) dt pac rnd) as [gs1|] eqn:Egs; [|discriminate].
    cbn [mbind option_bind]. intros H. apply (inj Some) in H. subst gs'.
    constructor; [apply (HP _ _ _ Hg E) | apply (IH _ _ Hgs Egs)].
Qed.

Lemma update_ghosts_held (dt : Q) (pac : Pacman) (rnd : nat → nat) :
  calm dt →
  ∀ gs i gs', Forall door_bound gs → update_ghosts gs i dt pac rnd = Some gs' →
    Forall door_bound gs' ∧ ghost_cells gs' = ghost_cells gs.
Proof.
  intros Hdt. induction gs as [|g gs IH]; intros i gs' Hgs; cbn [update_ghosts].
  - intros [= <-]. split; [constructor | reflexivity].
  - apply Forall_cons in Hgs as [Hg Hgs].
    destruct (Ghost_update g dt pac (rnd i)) as [g1|] eqn:E; [|discriminate].
    cbn [mbind option_bind].
    destruct (update_ghosts gs (S i) dt pac rnd) as [gs1|] eqn:Egs; [|discriminate].
    cbn [mbind option_bind]. intros H. apply (inj Some) in H. subst gs'.
    destruct (Ghost_update_door g g1 dt pac (rnd i) Hg Hdt E) as (Hd & Hc & _).
    destruct (IH _ _ Hgs Egs) as [IH1 IH2].
    split; [constructor; assumption|].
    unfold ghost_cells in *. cbn [map]. rewrite Hc, IH2. reflexivity.
Qed.

Lemma ghost_cells_map (f : Ghost → Ghost) (gs : list Ghost) :
  (∀ g, (g_col (f g), g_row (f g)) = (g_col g, g_row g)) →
  ghost_cells (map f gs) = ghost_cells gs.
Proof.
  intros Hf. unfold ghost_cells. rewrite map_map. apply map_ext. exact Hf.
Qed.

Lemma set_vulnerable_cell (g : Ghost) :
  (g_col (set_vulnerable g), g_row (set_vulnerable g)) = (g_col g, g_row g).
Proof. unfold set_vulnerable. destruct (bool_decide _); reflexivity. Qed.

Lemma end_power_cell (g : Ghost) :
  (g_col (end_power g), g_row (end_power g)) = (g_col g, g_row g).
Proof. unfold end_power. destruct (bool_decide _); reflexivity. Qed.

Lemma advance_held (st st' : Game) (dt : Q) (rnd : nat → nat) :
  ghosts_held st → calm dt → advance st dt rnd = Some st' →
  ghosts_held st'
  ∧ ghost_cells (ghosts st') = ghost_cells (ghosts st)
  ∧ lives (pacman st') = lives (pacman st)
  ∧ game_over st' = game_over st.
Proof.
  intros [Hp Hgs] Hdt Hadv. destruct (game_over st || win st) eqn:Hterm.
  - rewrite frozen_advance in Hadv by exact Hterm. apply (inj Some) in Hadv.
    subst st'. split; [split; assumption|]. split; [reflexivity|].
    split; reflexivity.
  - destruct (advance_live st st' dt rnd Hadv Hterm)
      as (ate & p2 & d2 & pw2 & gs2 & He & Hu & gs3 & res & Hgs3 & Hres & ->).
    assert (Hp2 : p_clear p2 ∧ lives p2 = lives (pacman st)).
    { pose proof (handle_pacman_eats_place (Pacman_update (pacman st) dt)
                    (dots st) (power st)) as Hpl.
      pose proof (handle_pacman_eats_lives (Pacman_update (pacman st) dt)
                    (dots st) (power st)) as Hl.
      rewrite He in Hpl, Hl. cbn [fst snd] in Hpl, Hl.
      destruct Hpl as (Hc & Hr & Hx & Hy & Hrad). split.
      - apply (p_clear_same_place (Pacman_update (pacman st) dt)); auto.
        apply Pacman_update_clear, Hp.
      - rewrite Hl. apply Pacman_update_lives. }
    destruct Hp2 as [Hp2 Hl2].
    assert (H1 : Forall door_bound
                   (if ate && Qltb 0 (power_timer p2)
                    then map set_vulnerable (ghosts st) else ghosts st)
                 ∧ ghost_cells (if ate && Qltb 0 (power_timer p2)
                                then map set_vulnerable (ghosts st) else ghosts st)
                   = ghost_cells (ghosts st)).
    { destruct (ate && Qltb 0 (power_timer p2)); [|auto]. split.
      - apply Forall_fmap. apply (Forall_impl _ _ _ Hgs). intros g.
        apply set_vulnerable_door.
      - apply ghost_cells_map, set_vulnerable_cell. }
    destruct H1 as [H1 C1].
    destruct (update_ghosts_held dt p2 rnd Hdt _ _ _ H1 Hu) as [H2 C2].
    assert (H3 : Forall door_bound gs3 ∧ ghost_cells gs3 = ghost_cells gs2).
    { subst gs3. destruct (Qeq_bool (power_timer p2) 0); [|auto]. split.
      - apply Forall_fmap. apply (Forall_impl _ _ _ H2). intros g.
        apply end_power_door.
      - apply ghost_cells_map, end_power_cell. }
    destruct H3 as [H3 C3].
    assert (Hnil : check_collisions p2 gs3 = [])
      by (apply collisions_from_nil; assumption).
    rewrite Hnil in Hres. cbn [resolve_hits] in Hres. subst res.
    cbn [pacman ghosts game_over fst snd].
    split; [split; assumption|]. split; [congruence|]. split; [exact Hl2 | reflexivity].
Qed.

Lemma run_held (frames : list (Q * (nat → nat))) (st st' : Game) :
  ghosts_held st → Forall (fun f => calm f.1) frames → run st frames = Some st' →
  ghosts_held st'
  ∧ ghost_cells (ghosts st') = ghost_cells (ghosts st)
  ∧ lives (pacman st') = lives (pacman st)
  ∧ game_over st' = game_over st.
Proof.
  revert st. induction frames as [|[dt rnd] frames IH]; intros st Hst Hfr; cbn [run].
  - intros [= <-]. auto.
  - apply Forall_cons in Hfr as [Hdt Hfr]. cbn [fst] in Hdt.
    destruct (advance st dt rnd) as [st1|] eqn:Hadv; [|discriminate].
    cbn [mbind option_bind]. intros Hrun.
    destruct (advance_held st st1 dt rnd Hst Hdt Hadv) as (H1 & C1 & L1 & G1).
    destruct (IH st1 H1 Hfr Hrun) as (H2 & C2 & L2 & G2).
    split; [exact H2|]. repeat split; congruence.
Qed.

Lemma new_game_fields (st0 : Game) :
  new_game = Some st0 →
  create_ghosts = Some (ghosts st0) ∧ game_over st0 = false ∧ win st0 = false.
Proof.
  unfold new_game. destruct load_dots as [[d pw]|]; [|discriminate].
  cbn [mbind option_bind]. destruct create_ghosts as [gs|]; [|discriminate].
  cbn [mbind option_bind]. intros H. apply (inj Some) in H. subst st0. auto.
Qed.

Lemma Pacman_init_clear : p_clear (Pacman_init start_cell.1 start_cell.2).
Proof. split; [reflexivity|]. split; vm_compute; reflexivity. Qed.

Lemma new_game_held (st0 : Game) : new_game = Some st0 → ghosts_held st0.
Proof.
  intros H. split.
  - rewrite (new_game_pacman st0 H). apply Pacman_init_clear.
  - apply create_ghosts_door_bound. apply (new_game_fields st0 H).
Qed.

(** X8.  In this maze no ghost ever reaches the player.  From a state
    in which the player is clear of the walls and every ghost rests on a
    door cell (every new game starts so), and for frame times up to
    150 ms, every run keeps the ghosts on their cells, finds no collision
    at all, and so never takes a life and never ends in Game Over. *)
Theorem ghosts_never_reach_player (st st' : Game) (frames : list (Q * (nat → nat))) :
  ghosts_held st →
  Forall (fun f => calm f.1) frames →
  run st frames = Some st' →
  ghosts_held st'
  ∧ ghost_cells (ghosts st') = ghost_cells (ghosts st)
  ∧ check_collisions (pacman st') (ghosts st') = []
  ∧ lives (pacman st') = lives (pacman st)
  ∧ game_over st' = game_over st
  ∧ (∀ st0, new_game = Some st0 →
       ghosts_held st0 ∧ lives (pacman st0) = START_LIVES ∧ game_over st0 = false).
Proof.
  intros Hst Hfr Hrun.
  destruct (run_held frames st st' Hst Hfr Hrun) as (H & C & L & G).
  split; [exact H|]. split; [exact C|].
  split; [destruct H; apply collisions_from_nil; assumption|].
  split; [exact L|]. split; [exact G|].
  intros st0 H0. split; [apply new_game_held, H0|].
  rewrite (new_game_pacman st0 H0). split; [reflexivity|].
  apply (new_game_fields st0 H0).
Qed.

Lemma ghosts_never_reach_player_witness :
  ghosts_held dot_state
  ∧ Forall (fun f : Q * (nat → nat) => calm f.1) [(frame, no_draw); (frame, no_draw)]
  ∧ ∃ st', run dot_state [(frame, no_draw); (frame, no_draw)] = Some st'
           ∧ check_collisions (pacman st') (ghosts st') = []
           ∧ lives (pacman st') = lives (pacman dot_state).
Proof.
  assert (Hst : ghosts_held dot_state).
  { split.
    - split; [reflexivity|]. split; vm_compute; reflexivity.
    - repeat constructor; try discriminate; vm_compute; reflexivity. }
  assert (Hfr : Forall (fun f : Q * (nat → nat) => calm f.1)
                  [(frame, no_draw); (frame, no_draw)]).
  { repeat constructor; vm_compute; discriminate. }
  split; [exact Hst|]. split; [exact Hfr|].
  assert (Hrun : ∃ st', run dot_state [(frame, no_draw); (frame, no_draw)] = Some st')
    by (eexists; vm_compute; reflexivity).
  destruct Hrun as [st' Hrun]. exists st'. split; [exact Hrun|].
  destruct (ghosts_never_reach_player dot_state st' _ Hst Hfr Hrun)
    as (_ & _ & H1 & H2 & _).
  split; assumption.
Defined.

(** ** What [load_dots] collects *)

Section foldM_inv.
Context {A B : Type} (f : B → A → option B) (I : list A → B → Prop).
Hypothesis step_inv : ∀ seen a b b',
  I seen b → f b a = Some b' → I (seen ++ [a]) b'.

Lemma foldM_inv (l seen : list A) (b b' : B) :
  I seen b → foldM f l b = Some b' → I (seen ++ l) b'.
Proof.
  revert seen b. induction l as [|a l IH]; intros seen b Hb; cbn [foldM].
  - intros [= <-]. rewrite app_nil_r. exact Hb.
  - destruct (f b a) as [b1|] eqn:E; [|discriminate]. cbn [mbind option_bind].
    intros H. replace (seen ++ a :: l) with ((seen ++ [a]) ++ l)
      by (rewrite <- app_assoc; reflexivity).
    apply (IH _ b1); [apply (step_inv _ _ _ _ Hb E) | exact H].
Qed.
End foldM_inv.

Lemma load_cell_inv (layout : list string) (r : Z) (acc0 : cells * cells)
    (seen : list Z) (c : Z) (acc acc' : cells * cells) :
  (∀ cell, (cell ∈ acc.1 ↔ cell ∈ acc0.1 ∨ marked layout "2" [r] seen cell)
           ∧ (cell ∈ acc.2 ↔ cell ∈ acc0.2 ∨ marked layout "3" [r] seen cell)) →
  load_cell layout r acc c = Some acc' →
  ∀ cell, (cell ∈ acc'.1 ↔ cell ∈ acc0.1 ∨ marked layout "2" [r] (seen ++ [c]) cell)
          ∧ (cell ∈ acc'.2 ↔ cell ∈ acc0.2 ∨ marked layout "3" [r] (seen ++ [c]) cell).
Proof.
  intros Hacc. unfold load_cell.
  destruct (char_at layout r c) as [ch|] eqn:Hch; [|discriminate].
  cbn [mbind option_bind]. intros H. apply (inj Some) in H. subst acc'.
  intros [c' r']. specialize (Hacc (c', r')). destruct Hacc as [H2 H3].
  unfold marked in *. cbn [fst snd] in *.
  assert (Hnew : ∀ k, (r' ∈ [r] ∧ c' ∈ seen ++ [c] ∧ char_at layout r' c' = Some k)
                      ↔ (r' ∈ [r] ∧ c' ∈ seen ∧ char_at layout r' c' = Some k)
                        ∨ ((c', r') = (c, r) ∧ ch = k)).
  { intros k. rewrite elem_of_app, !list_elem_of_singleton. split.
    - intros (-> & [Hc| ->] & Hk); [left; auto|]. right. split; [reflexivity|congruence].
    - intros [(-> & Hc & Hk)|([= -> ->] & <-)]; auto. }
  rewrite !Hnew.
  destruct (bool_decide_reflect (ch = "2"%char)) as [->|N2]; cbn [fst snd].
  - rewrite elem_of_union, elem_of_singleton, H2, H3. split.
    + split; [intros [->|[?|?]]; auto | intros [?|[?|[-> _]]]; auto].
    + split; [intros [?|?]; auto | intros [?|[?|[_ [=]]]]; auto].
  - destruct (bool_decide_reflect (ch = "3"%char)) as [->|N3]; cbn [fst snd].
    + rewrite elem_of_union, elem_of_singleton, H2, H3. split.
      * split; [intros [?|?]; auto | intros [?|[?|[_ [=]]]]; auto].
      * split; [intros [->|[?|?]]; auto | intros [?|[?|[-> _]]]; auto].
    + rewrite H2, H3. split.
      * split; [intros [?|?]; auto | intros [?|[?|[_ E]]]; auto; contradiction].
      * split; [intros [?|?]; auto | intros [?|[?|[_ E]]]; auto; contradiction].
Qed.

Lemma load_row_inv (layout : list string) (cols : Z) (seen : list Z) (r : Z)
    (acc acc' : cells * cells) :
  (∀ cell, (cell ∈ acc.1 ↔ marked layout "2" seen (range 0 cols) cell)
           ∧ (cell ∈ acc.2 ↔ marked layout "3" seen (range 0 cols) cell)) →
  foldM (load_cell layout r) (range 0 cols) acc = Some acc' →
  ∀ cell, (cell ∈ acc'.1 ↔ marked layout "2" (seen ++ [r]) (range 0 cols) cell)
          ∧ (cell ∈ acc'.2 ↔ marked layout "3" (seen ++ [r]) (range 0 cols) cell).
Proof.
  intros Hacc Hrow.
  pose proof (foldM_inv (load_cell layout r)
                (fun cs a => ∀ cell,
                   (cell ∈ a.1 ↔ cell ∈ acc.1 ∨ marked layout "2" [r] cs cell)
                   ∧ (cell ∈ a.2 ↔ cell ∈ acc.2 ∨ marked layout "3" [r] cs cell))
                (load_cell_inv layout r acc) (range 0 cols) [] acc acc') as H.
  cbn [app] in H. specialize (H ltac:(
    intros cell; unfold marked; split; (split; [auto | intros [?|(_ & Hc & _)]; [auto | inversion Hc]]))
    Hrow).
  intros cell. destruct (H cell) as [H2 H3]. destruct (Hacc cell) as [A2 A3].
  rewrite H2, H3, A2, A3. unfold marked. rewrite !elem_of_app, !list_elem_of_singleton.
  split; split; tauto.
Qed.

Lemma load_dots_of_marked (layout : list string) (rows cols : Z) (d pw : cells) :
  load_dots_of layout rows cols = Some (d, pw) →
  ∀ cell, (cell ∈ d ↔ marked layout "2" (range 0 rows) (range 0 cols) cell)
          ∧ (cell ∈ pw ↔ marked layout "3" (range 0 rows) (range 0 cols) cell).
Proof.
  unfold load_dots_of. intros H.
  pose proof (foldM_inv
                (fun acc r => foldM (load_cell layout r) (range 0 cols) acc)
                (fun rs a => ∀ cell,
                   (cell ∈ a.1 ↔ marked layout "2" rs (range 0 cols) cell)
                   ∧ (cell ∈ a.2 ↔ marked layout "3" rs (range 0 cols) cell))
                (fun seen r acc acc' => load_row_inv layout cols seen r acc acc')
                (range 0 rows) [] (∅, ∅) (d, pw)) as Hinv.
  cbn [app fst snd] in Hinv. apply Hinv; [|exact H].
  intros cell. unfold marked. split; (split; [intros Hc | intros (Hc & _)]).
  - apply not_elem_of_empty in Hc. contradiction.
  - inversion Hc.
  - apply not_elem_of_empty in Hc. contradiction.
  - inversion Hc.
Qed.

(** X9.  [load_dots] collects exactly the marked cells of the
    [ROWS] x [COLS] window: a cell is a dot iff it lies in the window and
    its character is ['2'], a power pellet iff its character is ['3'];
    no cell is both, and characters beyond [COLS] in a longer row are
    ignored.  For the maze of the game the window is the grid. *)
Theorem load_dots_spec (layout : list string) (rows cols : Z) (d pw : cells) :
  load_dots_of layout rows cols = Some (d, pw) →
  (∀ c r, ((c, r) ∈ d ↔ 0 ≤ r < rows ∧ 0 ≤ c < cols
                        ∧ char_at layout r c = Some "2"%char)
          ∧ ((c, r) ∈ pw ↔ 0 ≤ r < rows ∧ 0 ≤ c < cols
                           ∧ char_at layout r c = Some "3"%char)
          ∧ ¬ ((c, r) ∈ d ∧ (c, r) ∈ pw))
  ∧ (layout = MAZE_LAYOUT → rows = ROWS → cols = COLS →
     ∀ c r, ((c, r) ∈ d ↔ is_inside_grid c r = true ∧ MAZE r c = "2"%char)
            ∧ ((c, r) ∈ pw ↔ is_inside_grid c r = true ∧ MAZE r c = "3"%char)).
Proof.
  intros H. pose proof (load_dots_of_marked layout rows cols d pw H) as Hm.
  assert (Hgen : ∀ c r,
            ((c, r) ∈ d ↔ 0 ≤ r < rows ∧ 0 ≤ c < cols
                          ∧ char_at layout r c = Some "2"%char)
            ∧ ((c, r) ∈ pw ↔ 0 ≤ r < rows ∧ 0 ≤ c < cols
                             ∧ char_at layout r c = Some "3"%char)).
  { intros c r. destruct (Hm (c, r)) as [H2 H3]. unfold marked in H2, H3.
    cbn [fst snd] in H2, H3. rewrite !elem_of_range in H2, H3. tauto. }
  split.
  - intros c r. destruct (Hgen c r) as [H2 H3]. split; [exact H2|].
    split; [exact H3|]. rewrite H2, H3. intros [(_ & _ & E2) (_ & _ & E3)]. congruence.
  - intros -> -> -> c r. destruct (Hgen c r) as [H2 H3]. rewrite H2, H3.
    rewrite inside_grid_spec. split; split.
    + intros (Hr & Hc & E).
      assert (Hin : is_inside_grid c r = true) by (apply inside_grid_spec; auto).
      rewrite (MAZE_in_bounds c r Hin) in E. injection E as E. auto.
    + intros [[Hr Hc] E]. split; [exact Hr|]. split; [exact Hc|].
      rewrite (MAZE_in_bounds c r) by (apply inside_grid_spec; auto). congruence.
    + intros (Hr & Hc & E).
      assert (Hin : is_inside_grid c r = true) by (apply inside_grid_spec; auto).
      rewrite (MAZE_in_bounds c r Hin) in E. injection E as E. auto.
    + intros [[Hr Hc] E]. split; [exact Hr|]. split; [exact Hc|].
      rewrite (MAZE_in_bounds c r) by (apply inside_grid_spec; auto). congruence.
Qed.

Lemma load_dots_spec_witness :
  ∃ d pw, load_dots_of ["23x"; "1200"]%string 2 2 = Some (d, pw)
          ∧ ((0, 0) ∈ d ↔ 0 ≤ 0 < 2 ∧ 0 ≤ 0 < 2
                          ∧ char_at ["23x"; "1200"]%string 0 0 = Some "2"%char).
Proof.
  eexists. eexists. split; [vm_compute; reflexivity|].
  eapply load_dots_spec. vm_compute. reflexivity.
Defined.

(** ** Eating *)

Lemma difference_absent (X : cells) (cell : Z * Z) : cell ∉ X → X = X ∖ {[ cell ]}.
Proof.
  intros H. apply set_eq. intros x. rewrite elem_of_difference, elem_of_singleton.
  split; [intros Hx; split; [exact Hx | congruence] | tauto].
Qed.

Lemma handle_pacman_eats_absent (p : Pacman) (d pw : cells) :
  (p_col p, p_row p) ∉ d → (p_col p, p_row p) ∉ pw →
  handle_pacman_eats p d pw = (false, p, d, pw).
Proof.
  intros Hd Hp. unfold handle_pacman_eats.
  rewrite (bool_decide_eq_false_2 _ Hd), (bool_decide_eq_false_2 _ Hp). reflexivity.
Qed.

(** X10.  [handle_pacman_eats] removes the player's cell, and nothing
    else, from both pellet sets; the score grows by 10 for a dot there
    and by 50 for a power pellet there, and by nothing otherwise; the
    answer is [True] exactly when something was there; lives are
    untouched.  Calling it again on the result eats nothing and changes
    nothing: a pellet is collected at most once. *)
Theorem pellet_eaten_once (p : Pacman) (d pw : cells) :
  let cell := (p_col p, p_row p) in
  let res := handle_pacman_eats p d pw in
  res.1.2 = d ∖ {[ cell ]}
  ∧ res.2 = pw ∖ {[ cell ]}
  ∧ score res.1.1.2
    = score p + (if bool_decide (cell ∈ d) then DOT_SCORE else 0)
      + (if bool_decide (cell ∈ pw) then POWER_SCORE else 0)
  ∧ res.1.1.1 = bool_decide (cell ∈ d ∨ cell ∈ pw)
  ∧ lives res.1.1.2 = lives p
  ∧ handle_pacman_eats res.1.1.2 res.1.2 res.2 = (false, res.1.1.2, res.1.2, res.2).
Proof.
  intros cell res.
  assert (Hplace : (p_col res.1.1.2, p_row res.1.1.2) = cell).
  { destruct (handle_pacman_eats_place p d pw) as (Hc & Hr & _).
    unfold res, cell. rewrite Hc, Hr. reflexivity. }
  assert (Hsets : res.1.2 = d ∖ {[ cell ]} ∧ res.2 = pw ∖ {[ cell ]}
                  ∧ score res.1.1.2
                    = score p + (if bool_decide (cell ∈ d) then DOT_SCORE else 0)
                      + (if bool_decide (cell ∈ pw) then POWER_SCORE else 0)
                  ∧ res.1.1.1 = bool_decide (cell ∈ d ∨ cell ∈ pw)).
  { unfold res, handle_pacman_eats. fold cell.
    destruct (bool_decide_reflect (cell ∈ d)) as [Hd|Hd];
      destruct (bool_decide_reflect (cell ∈ pw)) as [Hp|Hp]; cbn [fst snd score
        p_set_score p_set_power_timer].
    - split; [reflexivity|]. split; [reflexivity|]. split; [lia|].
      symmetry. apply bool_decide_eq_true. auto.
    - split; [reflexivity|]. split; [apply difference_absent, Hp|]. split; [lia|].
      symmetry. apply bool_decide_eq_true. auto.
    - split; [apply difference_absent, Hd|]. split; [reflexivity|]. split; [lia|].
      symmetry. apply bool_decide_eq_true. auto.
    - split; [apply difference_absent, Hd|]. split; [apply difference_absent, Hp|].
      split; [lia|]. symmetry. apply bool_decide_eq_false. tauto. }
  destruct Hsets as (Hd & Hp & Hs & Ha).
  split; [exact Hd|]. split; [exact Hp|]. split; [exact Hs|]. split; [exact Ha|].
  split; [apply handle_pacman_eats_lives|].
  apply handle_pacman_eats_absent; rewrite Hplace.
  - rewrite Hd, elem_of_difference, elem_of_singleton. tauto.
  - rewrite Hp, elem_of_difference, elem_of_singleton. tauto.
Qed.

(** ** What a round only ever does in one direction *)

Lemma Pacman_update_score (p : Pacman) (dt : Q) : score (Pacman_update p dt) = score p.
Proof.
  unfold Pacman_update. destruct (grid_to_world (p_col p) (p_row p)) as [cx cy].
  case_ifs; reflexivity.
Qed.

Lemma handle_pacman_eats_mono (p : Pacman) (d pw : cells) :
  let res := handle_pacman_eats p d pw in
  score p ≤ score res.1.1.2 ∧ res.1.2 ⊆ d ∧ res.2 ⊆ pw.
Proof.
  unfold handle_pacman_eats.
  destruct (bool_decide ((p_col p, p_row p) ∈ d));
    destruct (bool_decide ((p_col p, p_row p) ∈ pw)); cbn [fst snd score
      p_set_score p_set_power_timer]; unfold DOT_SCORE, POWER_SCORE;
    (split; [lia|]); split;
    try reflexivity; intros x Hx; try exact Hx;
    apply elem_of_difference in Hx; tauto.
Qed.

Lemma resolve_hits_score (hits : list nat) (p : Pacman) (gs : list Ghost) (go : bool) :
  score p ≤ score (resolve_hits hits p gs go).1.1.
Proof.
  revert p gs. induction hits as [|i hits IH]; intros p gs; [reflexivity|].
  cbn [resolve_hits]. destruct (gs !! i) as [g|]; [|apply IH].
  destruct (mode g).
  - destruct (reset_positions_pacman (p_set_lives p (lives p - 1)) gs) as (_ & _ & Hs & _).
    destruct (reset_positions _ gs) as [p' gs']. cbn [fst snd] in *. rewrite Hs.
    reflexivity.
  - etransitivity; [|apply IH]. cbn. unfold GHOST_SCORE. lia.
  - apply IH.
Qed.

Lemma ghost_move_roster (hits : Rect → bool) (g : Ghost) (d : Z * Z) (sp : Z) (dt : Q) :
  (spawn (ghost_move hits g d sp dt), home (ghost_move hits g d sp dt),
   behavior (ghost_move hits g d sp dt), g_radius (ghost_move hits g d sp dt))
  = (spawn g, home g, behavior g, g_radius g).
Proof.
  pose proof (ghost_move_pos hits g d sp dt) as H. cbv zeta in H.
  destruct H as (_ & _ & Hr & _ & _ & _ & Hs & Hh & Hb).
  rewrite Hr, Hs, Hh, Hb. reflexivity.
Qed.

Lemma respawn_roster (m : Ghost) :
  (spawn (set_normal (g_center_in_cell (g_set_cell m (spawn m)))),
   home (set_normal (g_center_in_cell (g_set_cell m (spawn m)))),
   behavior (set_normal (g_center_in_cell (g_set_cell m (spawn m)))),
   g_radius (set_normal (g_center_in_cell (g_set_cell m (spawn m)))))
  = (spawn m, home m, behavior m, g_radius m).
Proof.
  unfold set_normal, g_center_in_cell. cbn [g_set_cell g_col g_row].
  destruct (grid_to_world (spawn m).1 (spawn m).2). reflexivity.
Qed.

Lemma Ghost_update_roster (g g' : Ghost) (dt : Q) (pac : Pacman) (pick : nat) :
  Ghost_update g dt pac pick = Some g' →
  (spawn g', home g', behavior g', g_radius g') = (spawn g, home g, behavior g, g_radius g).
Proof.
  unfold Ghost_update. destruct (bool_decide (mode g = eyes)).
  - unfold move_towards.
    destruct (match eyes_options (g_col g) (g_row g) with
              | [] => Some (g_dir g) | _ => _ end) as [d|]; [|discriminate].
    cbn [mbind option_bind].
    pose proof (ghost_move_roster hits_wall_eyes (g_set_dir g d) d (GHOST_SPEED + 30) dt)
      as H.
    revert H. generalize (ghost_move hits_wall_eyes (g_set_dir g d) d (GHOST_SPEED + 30) dt).
    intros m H. change (spawn (g_set_dir g d)) with (spawn g) in H.
    change (home (g_set_dir g d)) with (home g) in H.
    change (behavior (g_set_dir g d)) with (behavior g) in H.
    change (g_radius (g_set_dir g d)) with (g_radius g) in H.
    destruct (bool_decide ((g_col m, g_row m) = home m));
      intros E; apply (inj Some) in E; subst g'.
    + rewrite respawn_roster. exact H.
    + exact H.
  - destruct (grid_to_world (g_col g) (g_row g)) as [cx cy].
    destruct (near (g_x g) cx && near (g_y g) cy).
    + destruct (choose_dir _ _ pac pick) as [d|]; [|discriminate].
      cbn [mbind option_bind]. intros E. apply (inj Some) in E. subst g'.
      apply (ghost_move_roster hits_wall
               (g_set_dir (g_set_pos g (inject_Z cx) (inject_Z cy)) d)).
    + cbn [mbind option_bind]. intros E. apply (inj Some) in E. subst g'.
      apply ghost_move_roster.
Qed.

Lemma update_ghosts_roster (dt : Q) (pac : Pacman) (rnd : nat → nat) :
  ∀ gs i gs', update_ghosts gs i dt pac rnd = Some gs' →
    ghost_roster gs' = ghost_roster gs.
Proof.
  induction gs as [|g gs IH]; intros i gs'; cbn [update_ghosts].
  - intros [= <-]. reflexivity.
  - destruct (Ghost_update g dt pac (rnd i)) as [g1|] eqn:E; [|discriminate].
    cbn [mbind option_bind].
    destruct (update_ghosts gs (S i) dt pac rnd) as [gs1|] eqn:Egs; [|discriminate].
    cbn [mbind option_bind]. intros H. apply (inj Some) in H. subst gs'.
    unfold ghost_roster in *. cbn [map].
    rewrite (Ghost_update_roster _ _ _ _ _ E), (IH _ _ Egs). reflexivity.
Qed.

Lemma ghost_roster_map (f : Ghost → Ghost) (gs : list Ghost) :
  (∀ g, (spawn (f g), home (f g), behavior (f g), g_radius (f g))
        = (spawn g, home g, behavior g, g_radius g)) →
  ghost_roster (map f gs) = ghost_roster gs.
Proof.
  intros Hf. unfold ghost_roster. rewrite map_map. apply map_ext. exact Hf.
Qed.

Lemma reset_ghost_roster (g : Ghost) :
  (spawn (reset_ghost g), home (reset_ghost g), behavior (reset_ghost g),
   g_radius (reset_ghost g)) = (spawn g, home g, behavior g, g_radius g).
Proof.
  unfold reset_ghost, g_center_in_cell. cbn [g_set_cell g_col g_row].
  destruct (grid_to_world (spawn g).1 (spawn g).2). reflexivity.
Qed.

Lemma resolve_hits_roster (hits : list nat) (p : Pacman) (gs : list Ghost) (go : bool) :
  ghost_roster (resolve_hits hits p gs go).1.2 = ghost_roster gs.
Proof.
  revert p gs. induction hits as [|i hits IH]; intros p gs; [reflexivity|].
  cbn [resolve_hits]. destruct (gs !! i) as [g|] eqn:Hg; [|apply IH].
  destruct (mode g).
  - unfold reset_positions. cbn [fst snd]. apply ghost_roster_map, reset_ghost_roster.
  - rewrite IH. unfold ghost_roster. rewrite list_fmap_insert.
    apply list_insert_id. rewrite list_lookup_fmap, Hg. reflexivity.
  - apply IH.
Qed.

Lemma advance_monotone (st st' : Game) (dt : Q) (rnd : nat → nat) :
  advance st dt rnd = Some st' →
  score (pacman st) ≤ score (pacman st')
  ∧ lives (pacman st) - 1 ≤ lives (pacman st') ≤ lives (pacman st)
  ∧ dots st' ⊆ dots st ∧ power st' ⊆ power st
  ∧ ghost_roster (ghosts st') = ghost_roster (ghosts st)
  ∧ (lives_sound st → lives_sound st').
Proof.
  intros Hadv. destruct (game_over st || win st) eqn:Hterm.
  - rewrite frozen_advance in Hadv by exact Hterm. apply (inj Some) in Hadv.
    subst st'. split; [lia|]. split; [lia|]. auto.
  - destruct (advance_live st st' dt rnd Hadv Hterm)
      as (ate & p2 & d2 & pw2 & gs2 & He & Hu & gs3 & res & Hgs3 & Hres & ->).
    cbn [pacman dots power ghosts game_over].
    pose proof (handle_pacman_eats_mono (Pacman_update (pacman st) dt)
                  (dots st) (power st)) as Hm.
    pose proof (handle_pacman_eats_lives (Pacman_update (pacman st) dt)
                  (dots st) (power st)) as Hl.
    rewrite He in Hm, Hl. cbn [fst snd] in Hm, Hl.
    rewrite Pacman_update_score in Hm. rewrite Pacman_update_lives in Hl.
    destruct Hm as (Hs & Hd & Hp).
    pose proof (resolve_hits_score (check_collisions p2 gs3) p2 gs3 (game_over st)) as Rs.
    pose proof (resolve_hits_lives (check_collisions p2 gs3) p2 gs3 (game_over st)) as Rl.
    pose proof (resolve_hits_roster (check_collisions p2 gs3) p2 gs3 (game_over st)) as Rr.
    cbv zeta in Rl. rewrite <- Hres in Rs, Rl, Rr.
    apply orb_false_iff in Hterm as [Hgo _].
    split; [lia|]. split; [destruct Rl as [[-> _]|[-> _]]; lia|].
    split; [exact Hd|]. split; [exact Hp|]. split.
    + rewrite Rr, Hgs3.
      assert (E : ghost_roster gs2 = ghost_roster (ghosts st)).
      { rewrite (update_ghosts_roster dt p2 rnd _ _ _ Hu).
        destruct (ate && Qltb 0 (power_timer p2)); [|reflexivity].
        apply ghost_roster_map. intros g. unfold set_vulnerable.
        destruct (bool_decide (mode g ≠ eyes)); reflexivity. }
      rewrite <- E. destruct (Qeq_bool (power_timer p2) 0); [|reflexivity].
      apply ghost_roster_map. intros g. unfold end_power.
      destruct (bool_decide (mode g = vulnerable)); reflexivity.
    + intros [H0 Hiff]. unfold lives_sound. cbn [pacman game_over].
      assert (Hpos : 0 < lives (pacman st)).
      { destruct (decide (lives (pacman st) = 0)) as [E|]; [|lia].
        apply Hiff in E. congruence. }
      rewrite Hl in Rl. destruct Rl as [[-> ->]|[-> ->]].
      * split; [lia|]. rewrite Hgo. split; [discriminate | lia].
      * split; [lia|]. rewrite Hgo.
        destruct (Z.leb_spec (lives (pacman st) - 1) 0); split; try done; lia.
Qed.

(** X11.  Along every run the score never goes down, lives never go up
    and drop by at most one per frame, the two pellet sets only shrink,
    and the roster of ghosts (their number, spawn and home cells,
    behaviour and radius) never changes. *)
Theorem round_monotone (frames : list (Q * (nat → nat))) (st st' : Game) :
  run st frames = Some st' →
  score (pacman st) ≤ score (pacman st')
  ∧ lives (pacman st) - Z.of_nat (length frames) ≤ lives (pacman st') ≤ lives (pacman st)
  ∧ dots st' ⊆ dots st ∧ power st' ⊆ power st
  ∧ ghost_roster (ghosts st') = ghost_roster (ghosts st)
  ∧ length (ghosts st') = length (ghosts st).
Proof.
  revert st. induction frames as [|[dt rnd] frames IH]; intros st; cbn [run].
  - intros [= <-]. cbn [length]. split; [lia|]. split; [lia|]. auto.
  - destruct (advance st dt rnd) as [st1|] eqn:Hadv; [|discriminate].
    cbn [mbind option_bind]. intros Hrun.
    destruct (advance_monotone st st1 dt rnd Hadv) as (S1 & L1 & D1 & P1 & R1 & _).
    destruct (IH st1 Hrun) as (S2 & L2 & D2 & P2 & R2 & N2).
    split; [lia|]. split; [cbn [length]; lia|].
    split; [etransitivity; eassumption|]. split; [etransitivity; eassumption|].
    split; [congruence|].
    apply (f_equal length) in R1. unfold ghost_roster in R1.
    rewrite !length_map in R1. congruence.
Qed.

Lemma round_monotone_witness :
  ∃ st', run dot_state [(frame, no_draw); (frame, no_draw)] = Some st'
         ∧ score (pacman dot_state) ≤ score (pacman st')
         ∧ dots st' ⊆ dots dot_state.
Proof.
  assert (Hrun : ∃ st', run dot_state [(frame, no_draw); (frame, no_draw)] = Some st')
    by (eexists; vm_compute; reflexivity).
  destruct Hrun as [st' Hrun]. exists st'. split; [exact Hrun|].
  destruct (round_monotone _ dot_state st' Hrun) as (H1 & _ & H2 & _).
  split; assumption.
Defined.

Lemma run_lives_sound (frames : list (Q * (nat → nat))) (st st' : Game) :
  run st frames = Some st' → lives_sound st → lives_sound st'.
Proof.
  revert st. induction frames as [|[dt rnd] frames IH]; intros st; cbn [run].
  - intros [= <-] H. exact H.
  - destruct (advance st dt rnd) as [st1|] eqn:Hadv; [|discriminate].
    cbn [mbind option_bind]. intros Hrun Hst. apply (IH st1 Hrun).
    apply (advance_monotone st st1 dt rnd Hadv), Hst.
Qed.

(** X12.  Lives are never negative and the game is over exactly when
    they are zero: a new game starts with 3 lives and not over, and
    every tick keeps "lives >= 0, and game over iff lives = 0"; so in
    every state of every run from a new game lives lie between 0 and 3,
    and a life is only ever taken from a player that has one. *)
Theorem lives_never_negative (frames : list (Q * (nat → nat))) (st st' : Game) :
  lives_sound st →
  run st frames = Some st' →
  lives_sound st'
  ∧ 0 ≤ lives (pacman st') ≤ lives (pacman st)
  ∧ (∀ st0, new_game = Some st0 → lives_sound st0 ∧ lives (pacman st0) = START_LIVES).
Proof.
  intros Hst Hrun. pose proof (run_lives_sound frames st st' Hrun Hst) as H'.
  split; [exact H'|]. split.
  - destruct H' as [H0 _]. split; [exact H0|].
    clear Hst. revert st Hrun. induction frames as [|[dt rnd] frames IH];
      intros st; cbn [run].
    + intros [= <-]. lia.
    + destruct (advance st dt rnd) as [st1|] eqn:Hadv; [|discriminate].
      cbn [mbind option_bind]. intros Hrun.
      destruct (advance_monotone st st1 dt rnd Hadv) as (_ & L1 & _).
      specialize (IH st1 Hrun). lia.
  - intros st0 H0. rewrite (new_game_pacman st0 H0).
    destruct (new_game_fields st0 H0) as (_ & Hgo & _).
    unfold lives_sound. rewrite (new_game_pacman st0 H0), Hgo.
    split; [|reflexivity]. split; [vm_compute; discriminate|].
    split; [discriminate | vm_compute; discriminate].
Qed.

Lemma lives_never_negative_witness :
  lives_sound caught_state
  ∧ ∃ st', run caught_state [(frame, no_draw)] = Some st'
           ∧ lives_sound st' ∧ 0 ≤ lives (pacman st') ≤ lives (pacman caught_state).
Proof.
  assert (H0 : lives_sound caught_state).
  { split; [vm_compute; discriminate|]. split; [discriminate | vm_compute; discriminate]. }
  split; [exact H0|].
  assert (Hrun : ∃ st', run caught_state [(frame, no_draw)] = Some st')
    by (eexists; vm_compute; reflexivity).
  destruct Hrun as [st' Hrun]. exists st'. split; [exact Hrun|].
  destruct (lives_never_negative _ caught_state st' H0 Hrun) as (H1 & H2 & _).
  split; assumption.
Defined.

(** ** Vulnerability and the power timer *)

Lemma resolve_hits_not_vulnerable (hits : list nat) (p : Pacman) (gs : list Ghost)
    (go : bool) :
  Forall (fun g => mode g ≠ vulnerable) gs →
  Forall (fun g => mode g ≠ vulnerable) (resolve_hits hits p gs go).1.2.
Proof.
  revert p gs. induction hits as [|i hits IH]; intros p gs Hgs; [exact Hgs|].
  cbn [resolve_hits]. destruct (gs !! i) as [g|] eqn:Hg; [|apply IH, Hgs].
  destruct (mode g) eqn:Hm.
  - unfold reset_positions. cbn [fst snd]. apply Forall_fmap, Forall_true.
    intros g0. unfold compose. rewrite (proj1 (reset_ghost_fields g0)). discriminate.
  - exfalso. apply (Forall_lookup_1 _ _ _ _ Hgs Hg). exact Hm.
  - apply IH, Hgs.
Qed.

(** X13.  Vulnerability does not outlast the power timer: when a tick
    of a live round ends with the power timer at zero, no ghost is in
    vulnerable mode at the end of that tick. *)
Theorem power_bounds_vulnerability (st st' : Game) (dt : Q) (rnd : nat → nat) :
  advance st dt rnd = Some st' →
  game_over st || win st = false →
  (power_timer (pacman st') == 0)%Q →
  Forall (fun g => mode g ≠ vulnerable) (ghosts st').
Proof.
  intros Hadv Hlive Hzero.
  destruct (advance_live st st' dt rnd Hadv Hlive)
    as (ate & p2 & d2 & pw2 & gs2 & He & Hu & gs3 & res & Hgs3 & Hres & ->).
  cbn [pacman ghosts] in *. subst res.
  rewrite resolve_hits_power_timer in Hzero.
  apply resolve_hits_not_vulnerable. subst gs3.
  apply Qeq_bool_iff in Hzero. rewrite Hzero.
  apply Forall_fmap, Forall_true. intros g. unfold compose, end_power.
  destruct (bool_decide_reflect (mode g = vulnerable)) as [E|E]; [discriminate | exact E].
Qed.

Lemma power_bounds_vulnerability_witness :
  mode <$> ghosts fading_state = [vulnerable]
  ∧ ∃ st', advance fading_state frame no_draw = Some st'
           ∧ (power_timer (pacman st') == 0)%Q
           ∧ Forall (fun g => mode g ≠ vulnerable) (ghosts st').
Proof.
  split; [reflexivity|].
  assert (Hadv : ∃ st', advance fading_state frame no_draw = Some st')
    by (eexists; vm_compute; reflexivity).
  destruct Hadv as [st' Hadv]. exists st'. split; [exact Hadv|].
  assert (Hz : (power_timer (pacman st') == 0)%Q).
  { assert (E : power_timer <$> (pacman <$> advance fading_state frame no_draw)
                = Some 0%Q) by (vm_compute; reflexivity).
    rewrite Hadv in E. cbn in E. injection E as ->. reflexivity. }
  split; [exact Hz|].
  apply (power_bounds_vulnerability fading_state st' frame no_draw Hadv); [reflexivity|].
  exact Hz.
Defined.

(** ** Neighbours *)

Lemma is_wall_outside (c r : Z) : is_inside_grid c r = false → is_wall c r = true.
Proof. intros H. unfold is_wall. rewrite H. reflexivity. Qed.

Lemma neighbors_fold (col row : Z) (ds acc : list (Z * Z)) :
  (∀ d, d ∈ ds → d ≠ (0, 0)) →
  map (fun d : Z * Z => (col + d.1, row + d.2))
      (fold_left (candidate_step col row (0, 0)) ds acc)
  = map (fun d : Z * Z => (col + d.1, row + d.2)) acc
    ++ omap (fun d : Z * Z =>
               if is_inside_grid (col + d.1) (row + d.2)
                  && negb (is_wall (col + d.1) (row + d.2))
               then Some (col + d.1, row + d.2) else None) ds.
Proof.
  set (f := fun d : Z * Z =>
              if is_inside_grid (col + d.1) (row + d.2)
                 && negb (is_wall (col + d.1) (row + d.2))
              then Some (col + d.1, row + d.2) else None).
  revert acc. induction ds as [|d ds IH]; intros acc Hds; cbn [fold_left].
  - change (omap f []) with (@nil (Z * Z)). rewrite app_nil_r. reflexivity.
  - rewrite IH by (intros e He; apply Hds; right; exact He).
    change (omap f (d :: ds))
      with (match f d with Some y => y :: omap f ds | None => omap f ds end).
    assert (Hd : neg_dir d ≠ (0, 0)).
    { intros E. apply (Hds d); [left|]. rewrite <- (neg_dir_involutive d), E. reflexivity. }
    unfold candidate_step, f at 2. rewrite (bool_decide_eq_true_2 _ Hd). cbn [orb].
    destruct (is_inside_grid (col + d.1) (row + d.2)) eqn:Hin.
    + destruct (is_wall (col + d.1) (row + d.2)); cbn [negb andb].
      * reflexivity.
      * rewrite map_app, <- app_assoc. reflexivity.
    + rewrite (is_wall_outside _ _ Hin). reflexivity.
Qed.

(** X14.  [neighbors] yields exactly the adjacent cells that are inside
    the grid and not blocking, in the order right, left, down, up; they
    are the cells a ghost with no current direction is offered by the
    candidate loop of [Ghost.update]. *)
Theorem neighbors_spec (col row : Z) :
  neighbors col row
  = map (fun d : Z * Z => (col + d.1, row + d.2)) (candidate_dirs col row (0, 0))
  ∧ ∀ n, n ∈ neighbors col row
         ↔ adjacent (col, row) n ∧ is_inside_grid n.1 n.2 = true
           ∧ is_wall n.1 n.2 = false.
Proof.
  split.
  - unfold candidate_dirs. rewrite neighbors_fold; [reflexivity|].
    intros d Hd. unfold DIRS in Hd. set_unfold in Hd.
    destruct Hd as [->|[->|[->|[->|[]]]]]; discriminate.
  - intros n. unfold neighbors, adjacent. rewrite list_elem_of_omap. cbn [fst snd].
    split.
    + intros (d & Hd & Hf).
      destruct (is_inside_grid (col + d.1) (row + d.2)) eqn:Hin; [|discriminate].
      destruct (is_wall (col + d.1) (row + d.2)) eqn:Hw; [discriminate|].
      cbn in Hf. injection Hf as <-. cbn [fst snd]. eauto.
    + intros ((d & Hd & ->) & Hin & Hw). cbn [fst snd] in *.
      exists d. split; [exact Hd|]. rewrite Hin, Hw. reflexivity.
Qed.

(** ** Ghosts and walls *)

Lemma ghost_move_clear (hits : Rect → bool) (g : Ghost) (d : Z * Z) (sp : Z) (dt : Q) :
  hits (ghost_rect g) = false → hits (ghost_rect (ghost_move hits g d sp dt)) = false.
Proof.
  intros H. pose proof (ghost_move_pos hits g d sp dt) as Hpos. cbv zeta in Hpos.
  destruct Hpos as (Hx & Hy & Hr & _). unfold ghost_rect in *.
  rewrite Hx, Hy, Hr. apply slide_y_clear, slide_x_clear, H.
Qed.

Lemma ghost_rect_set_dir (g : Ghost) (d : Z * Z) :
  ghost_rect (g_set_dir g d) = ghost_rect g.
Proof. destruct g; reflexivity. Qed.

Lemma ghost_rect_set_pos (g : Ghost) (x y : Q) :
  ghost_rect (g_set_pos g x y) = entity_rect x y (g_radius g).
Proof. destruct g; reflexivity. Qed.

Lemma Ghost_update_clear (g g' : Ghost) (dt : Q) (pac : Pacman) (pick : nat) :
  Ghost_update g dt pac pick = Some g' →
  mode g ≠ eyes → g_radius g = TILE_SIZE / 2 - 3 → g_synced g →
  hits_wall (ghost_rect g) = false → hits_wall (ghost_rect g') = false.
Proof.
  intros Hup Hm Hr Hs Hc. unfold Ghost_update in Hup.
  rewrite bool_decide_eq_false_2 in Hup by exact Hm.
  assert (Hcen : ∀ cx cy, grid_to_world (g_col g) (g_row g) = (cx, cy) →
            hits_wall (entity_rect (inject_Z cx) (inject_Z cy) (g_radius g)) = false).
  { intros cx cy E.
    pose proof (centred_box_clear (g_x g) (g_y g) (g_radius g) (g_col g) (g_row g)) as H.
    unfold world in H. cbn [fst snd] in H. rewrite E in H. cbn [fst snd] in H. apply H.
    - rewrite Hr. vm_compute. split; discriminate.
    - exact Hc.
    - symmetry. exact Hs. }
  destruct (grid_to_world (g_col g) (g_row g)) as [cx cy].
  specialize (Hcen cx cy eq_refl).
  destruct (near (g_x g) cx && near (g_y g) cy).
  - destruct (choose_dir _ _ pac pick) as [d|]; [|discriminate].
    cbn [mbind option_bind] in Hup. apply (inj Some) in Hup. subst g'.
    apply ghost_move_clear.
    rewrite ghost_rect_set_dir, ghost_rect_set_pos. exact Hcen.
  - cbn [mbind option_bind] in Hup. apply (inj Some) in Hup. subst g'.
    apply ghost_move_clear. exact Hc.
Qed.

Lemma respawn_mode (m : Ghost) :
  mode (set_normal (g_center_in_cell (g_set_cell m (spawn m)))) = normal.
Proof.
  unfold set_normal, g_center_in_cell. cbn [g_set_cell g_col g_row].
  destruct (grid_to_world (spawn m).1 (spawn m).2). reflexivity.
Qed.

Lemma Ghost_update_eyes_clear (g g' : Ghost) (dt : Q) (pac : Pacman) (pick : nat) :
  Ghost_update g dt pac pick = Some g' →
  mode g = eyes → mode g' = eyes →
  hits_wall_eyes (ghost_rect g) = false → hits_wall_eyes (ghost_rect g') = false.
Proof.
  intros Hup Hm Hm' Hc. revert Hup. unfold Ghost_update.
  destruct (bool_decide_reflect (mode g = eyes)) as [_|Hn]; [|contradiction].
  unfold move_towards.
  destruct (match eyes_options (g_col g) (g_row g) with
            | [] => Some (g_dir g) | _ => _ end) as [d|]; [|discriminate].
  cbn [mbind option_bind].
  rewrite <- (ghost_rect_set_dir g d) in Hc.
  pose proof (ghost_move_clear hits_wall_eyes (g_set_dir g d) d (GHOST_SPEED + 30) dt Hc)
    as Hmv.
  revert Hmv.
  generalize (ghost_move hits_wall_eyes (g_set_dir g d) d (GHOST_SPEED + 30) dt).
  intros m Hmv.
  destruct (bool_decide ((g_col m, g_row m) = home m));
    intros Hup; apply (inj Some) in Hup; subst g'; [|exact Hmv].
  rewrite respawn_mode in Hm'. discriminate Hm'.
Qed.

(** X15.  Ghosts do not move into walls.  A ghost outside eyes mode
    whose box hits no wall or door tile still hits none after
    [Ghost.update]; a ghost in eyes mode whose box hits no ['1'] tile
    still hits none after a move that leaves it in eyes mode. *)
Theorem ghost_never_enters_wall (g g' : Ghost) (dt : Q) (pac : Pacman) (pick : nat) :
  Ghost_update g dt pac pick = Some g' →
  (mode g ≠ eyes → g_radius g = TILE_SIZE / 2 - 3 → g_synced g →
   hits_wall (ghost_rect g) = false → hits_wall (ghost_rect g') = false)
  ∧ (mode g = eyes → mode g' = eyes →
     hits_wall_eyes (ghost_rect g) = false → hits_wall_eyes (ghost_rect g') = false).
Proof.
  intros Hup. split.
  - apply (Ghost_update_clear g g' dt pac pick Hup).
  - apply (Ghost_update_eyes_clear g g' dt pac pick Hup).
Qed.

Lemma ghost_never_enters_wall_witness :
  ∃ g', Ghost_update corridor_ghost frame corridor_pacman 0 = Some g'
        ∧ hits_wall (ghost_rect corridor_ghost) = false
        ∧ hits_wall (ghost_rect g') = false.
Proof.
  assert (Hup : ∃ g', Ghost_update corridor_ghost frame corridor_pacman 0 = Some g')
    by (eexists; vm_compute; reflexivity).
  destruct Hup as [g' Hup]. exists g'. split; [exact Hup|].
  assert (Hc : hits_wall (ghost_rect corridor_ghost) = false)
    by (vm_compute; reflexivity).
  split; [exact Hc|].
  apply (ghost_never_enters_wall corridor_ghost g' frame corridor_pacman 0 Hup);
    [discriminate | reflexivity | vm_compute; reflexivity | exact Hc].
Defined.

(** ** The reach of a collision *)

Lemma py_int_shift (q : Q) (r : Z) :
  (inject_Z r <= q)%Q → py_int (q - inject_Z r) = Qfloor q - r.
Proof.
  intros Hr. unfold py_int.
  assert (H0 : Qle_bool 0 (q - inject_Z r) = true) by (apply Qle_bool_iff; lra).
  rewrite H0. apply Qfloor_unique.
  - unfold Z.sub. rewrite inject_Z_plus, inject_Z_opp.
    pose proof (Qfloor_le q). lra.
  - pose proof (Qlt_floor q) as H.
    replace (Qfloor q - r + 1) with (Qfloor q + 1 + - r) by lia.
    rewrite inject_Z_plus, inject_Z_opp. lra.
Qed.

Lemma in_tile_floor (offset : Z) (q : Q) (c : Z) :
  in_tile offset q c →
  offset + c * TILE_SIZE ≤ Qfloor q ≤ offset + c * TILE_SIZE + TILE_SIZE - 1.
Proof.
  intros [H1 H2]. split.
  - pose proof (Qfloor_resp_le _ _ H1) as H. rewrite Qfloor_Z in H. exact H.
  - pose proof (Qle_lt_trans _ _ _ (Qfloor_le q) H2) as H.
    rewrite <- Zlt_Qlt in H. lia.
Qed.

(** X16.  The reach of a collision.  For a player (box 14 wide) and a
    ghost (box 12 wide) whose boxes lie in the positive quadrant of the
    window and within the range of the ints a [Rect] is stored in,
    [colliderect] holds exactly when the whole-pixel parts of their
    positions differ by at most 12 on both axes; hence a ghost two or
    more cells away along a row or a column never collides with the
    player. *)
Theorem collision_reach (p : Pacman) (g : Ghost) :
  p_radius p = TILE_SIZE / 2 - 2 → g_radius g = TILE_SIZE / 2 - 3 →
  (7 <= p_x p)%Q → (7 <= p_y p)%Q → (6 <= g_x g)%Q → (6 <= g_y g)%Q →
  rect_fits (pacman_rect p) → rect_fits (ghost_rect g) →
  (colliderect (pacman_rect p) (ghost_rect g) = true
   ↔ Z.abs (Qfloor (p_x p) - Qfloor (g_x g)) ≤ 12
     ∧ Z.abs (Qfloor (p_y p) - Qfloor (g_y g)) ≤ 12)
  ∧ (p_synced p → g_synced g →
     2 ≤ Z.abs (p_col p - g_col g) ∨ 2 ≤ Z.abs (p_row p - g_row g) →
     colliderect (pacman_rect p) (ghost_rect g) = false).
Proof.
  intros Hp Hg Hpx Hpy Hgx Hgy _ _.
  assert (Hiff : colliderect (pacman_rect p) (ghost_rect g) = true
            ↔ Z.abs (Qfloor (p_x p) - Qfloor (g_x g)) ≤ 12
              ∧ Z.abs (Qfloor (p_y p) - Qfloor (g_y g)) ≤ 12).
  { unfold pacman_rect, ghost_rect, entity_rect. rewrite Hp, Hg.
    change (TILE_SIZE / 2 - 2) with 7. change (TILE_SIZE / 2 - 3) with 6.
    rewrite !py_int_shift by assumption.
    rewrite colliderect_pos by (cbn; lia).
    unfold r_right, r_bottom. cbn [r_left r_top r_width r_height]. lia. }
  split; [exact Hiff|].
  intros Hps Hgs Hfar.
  apply not_true_is_false. intros E. apply Hiff in E as [Ex Ey].
  unfold p_synced, grid_pos in Hps. unfold g_synced, grid_pos in Hgs.
  apply (inj2 pair) in Hps as [Hpc Hpr]. apply (inj2 pair) in Hgs as [Hgc Hgr].
  symmetry in Hpc, Hpr, Hgc, Hgr.
  apply grid_coord_spec, in_tile_floor in Hpc, Hpr, Hgc, Hgr.
  unfold TILE_SIZE in *. lia.
Qed.

Lemma collision_reach_witness :
  (rect_fits (pacman_rect (pacman_in (10, 29) 3 0 0))
   ∧ rect_fits (ghost_rect (ghost_in (12, 29) (12, 6) (12, 6) (0, 0) normal chase)))
  ∧ colliderect (pacman_rect (pacman_in (10, 29) 3 0 0))
                (ghost_rect (ghost_in (12, 29) (12, 6) (12, 6) (0, 0) normal chase))
    = false.
Proof.
  assert (Hp : rect_fits (pacman_rect (pacman_in (10, 29) 3 0 0)))
    by (vm_compute; repeat split; discriminate).
  assert (Hg : rect_fits
                 (ghost_rect (ghost_in (12, 29) (12, 6) (12, 6) (0, 0) normal chase)))
    by (vm_compute; repeat split; discriminate).
  split; [split; assumption|].
  apply (collision_reach (pacman_in (10, 29) 3 0 0)
           (ghost_in (12, 29) (12, 6) (12, 6) (0, 0) normal chase));
    try reflexivity; try assumption; try (vm_compute; discriminate).
  left. vm_compute. discriminate.
Defined.

(** ** The player's step from a cell centre *)

Lemma Pacman_update_dir (p : Pacman) (dt : Q) :
  p_dir (Pacman_update p dt) = p_dir (p_turn p)
  ∧ p_target_dir (Pacman_update p dt) = p_target_dir p.
Proof.
  unfold Pacman_update, p_turn.
  destruct (grid_to_world (p_col p) (p_row p)) as [cx cy].
  assert (Ht : p_target_dir (if near (p_x p) cx && near (p_y p) cy
                             then p_set_dir (p_set_pos p (inject_Z cx) (inject_Z cy))
                                    (try_change_dir (p_col p) (p_row p) (p_target_dir p))
                             else p) = p_target_dir p)
    by (destruct (near (p_x p) cx && near (p_y p) cy); reflexivity).
  revert Ht.
  set (p1 := if near (p_x p) cx && near (p_y p) cy then _ else p).
  clearbody p1. intros <-. destruct p1 as [c r x y rad d td l s t].
  cbv beta iota zeta delta
    [pacman_rect p_set_pos p_set_cell p_set_power_timer
     p_x p_y p_radius p_dir p_col p_row p_target_dir lives score power_timer].
  repeat (match goal with
          | |- context [if ?b then _ else _] =>
              lazymatch b with
              | context [if _ then _ else _] => fail
              | _ => destruct b
              end
          end; cbv beta iota);
    split; reflexivity.
Qed.

(** A player's box moved by at most 17 pixels from a cell centre along
    a direction touches only that cell's tile and the next one. *)
Lemma shifted_box_clear (c r : Z) (d : Z * Z) (t x y : Q) :
  d ∈ DIRS → (0 <= t)%Q → (t <= 17)%Q →
  (x == (world (c, r)).1 + inject_Z d.1 * t)%Q →
  (y == (world (c, r)).2 + inject_Z d.2 * t)%Q →
  ¬ (is_inside_grid c r = true ∧ is_wall c r = true) →
  is_wall (c + d.1) (r + d.2) = false →
  hits_wall (entity_rect x y 7) = false.
Proof.
  intros Hd Ht0 Ht1 Hx Hy Hown Hnext.
  apply not_true_is_false. intros H.
  apply hits_wall_tiles in H; [|reflexivity..].
  destruct H as (c' & r' & Hg & Hw & Hc).
  apply colliderect_tile in Hc; [|reflexivity..].
  unfold r_right, r_bottom, entity_rect in Hc. cbn [r_left r_top r_width r_height] in Hc.
  unfold world, grid_to_world in Hx, Hy. cbn [fst snd] in Hx, Hy.
  set (cx := OFFSET_X + c * TILE_SIZE + TILE_SIZE / 2) in *.
  set (cy := OFFSET_Y + r * TILE_SIZE + TILE_SIZE / 2) in *.
  assert (HX : cx - 7 + Z.min 0 (17 * d.1) ≤ py_int (x - inject_Z 7)
               ≤ cx - 7 + Z.max 0 (17 * d.1)
             ∧ cy - 7 + Z.min 0 (17 * d.2) ≤ py_int (y - inject_Z 7)
               ≤ cy - 7 + Z.max 0 (17 * d.2)).
  { unfold DIRS in Hd. set_unfold in Hd.
    destruct Hd as [-> | [-> | [-> | [-> | []]]]]; cbn [fst snd] in *;
      change (inject_Z 1) with 1%Q in *; change (inject_Z 0) with 0%Q in *;
      change (inject_Z (-1)) with (-1)%Q in *;
      change (Z.min 0 (17 * 1)) with 0; change (Z.max 0 (17 * 1)) with 17;
      change (Z.min 0 (17 * 0)) with 0; change (Z.max 0 (17 * 0)) with 0;
      change (Z.min 0 (17 * -1)) with (-17); change (Z.max 0 (17 * -1)) with 0;
      (split; apply py_int_bounds;
       unfold Z.sub; rewrite ?inject_Z_plus, ?inject_Z_opp;
       change (inject_Z 7) with 7%Q; change (inject_Z 17) with 17%Q;
       change (inject_Z 0) with 0%Q; change (inject_Z (-17)) with (-17)%Q; lra). }
  assert (Hcell : (c', r') = (c, r) ∨ (c', r') = (c + d.1, r + d.2)).
  { subst cx cy. unfold TILE_SIZE, OFFSET_X, OFFSET_Y in *. change (19 / 2) with 9 in *.
    unfold DIRS in Hd. set_unfold in Hd.
    destruct Hd as [-> | [-> | [-> | [-> | []]]]]; cbn [fst snd] in *;
      [ assert (r' = r) as -> by lia; assert (c' = c ∨ c' = c + 1) as [-> | ->] by lia
      | assert (r' = r) as -> by lia; assert (c' = c ∨ c' = c + -1) as [-> | ->] by lia
      | assert (c' = c) as -> by lia; assert (r' = r ∨ r' = r + 1) as [-> | ->] by lia
      | assert (c' = c) as -> by lia; assert (r' = r ∨ r' = r + -1) as [-> | ->] by lia ];
      first [left; f_equal; lia | right; f_equal; lia]. }
  destruct Hcell as [[= -> ->] | [= -> ->]]; [apply Hown; auto | congruence].
Qed.

(** X17.  From the centre of its cell the player steps into the cell
    its pending direction points to exactly when that cell is open: it
    then takes the direction and advances by [speed * dt] along it;
    when the cell is a wall, a door or outside the grid, it stops and
    stays at the centre. *)
Theorem player_steps_iff_open (p : Pacman) (dt : Q) :
  p_clear p → calm dt →
  (p_x p == (world (p_col p, p_row p)).1)%Q →
  (p_y p == (world (p_col p, p_row p)).2)%Q →
  p_target_dir p ∈ DIRS →
  (is_wall (p_col p + (p_target_dir p).1) (p_row p + (p_target_dir p).2) = false →
   p_dir (Pacman_update p dt) = p_target_dir p
   ∧ (p_x (Pacman_update p dt)
      == p_x p + inject_Z (p_target_dir p).1 * inject_Z PACMAN_SPEED * dt)%Q
   ∧ (p_y (Pacman_update p dt)
      == p_y p + inject_Z (p_target_dir p).2 * inject_Z PACMAN_SPEED * dt)%Q)
  ∧ (is_wall (p_col p + (p_target_dir p).1) (p_row p + (p_target_dir p).2) = true →
     p_dir (Pacman_update p dt) = (0, 0)
     ∧ (p_x (Pacman_update p dt) == p_x p)%Q
     ∧ (p_y (Pacman_update p dt) == p_y p)%Q).
Proof.
  intros Hp [Hdt0 Hdt1] Hx Hy Hd.
  pose proof (Pacman_update_pos p dt) as (Px & Py & _). cbv zeta in Px, Py.
  pose proof (Pacman_update_dir p dt) as [Pd _].
  rewrite Px, Py, Pd. clear Px Py Pd.
  pose proof (p_center_in_cell_clear p Hp) as (_ & _ & Hcen).
  destruct Hp as (Hr & Hs & Hc).
  assert (Hown : ¬ (is_inside_grid (p_col p) (p_row p) = true
                    ∧ is_wall (p_col p) (p_row p) = true)).
  { apply (clear_box_cell (p_x p) (p_y p) (p_radius p));
      [rewrite Hr; vm_compute; discriminate | exact Hc | symmetry; exact Hs]. }
  unfold pacman_rect, p_center_in_cell in Hcen. unfold p_turn.
  unfold world in Hx, Hy. cbn [fst snd] in Hx, Hy.
  assert (Hw : world (p_col p, p_row p)
               = (inject_Z (grid_to_world (p_col p) (p_row p)).1,
                  inject_Z (grid_to_world (p_col p) (p_row p)).2)) by reflexivity.
  destruct (grid_to_world (p_col p) (p_row p)) as [cx cy]. cbn [fst snd] in Hx, Hy, Hw.
  rewrite (near_centre _ _ Hx), (near_centre _ _ Hy). cbn [andb].
  cbn [p_x p_y p_radius p_dir p_set_dir p_set_pos] in Hcen |- *.
  rewrite Hr in *. change (TILE_SIZE / 2 - 2) with 7 in *.
  unfold try_change_dir. destruct (p_target_dir p) as [dc dr] eqn:Etd.
  cbn [fst snd].
  assert (Hnz : (dc =? 0) && (dr =? 0) = false).
  { unfold DIRS in Hd. set_unfold in Hd.
    destruct Hd as [[= -> ->] | [[= -> ->] | [[= -> ->] | [[= -> ->] | []]]]]; reflexivity. }
  rewrite Hnz.
  assert (Hstep : (0 <= inject_Z PACMAN_SPEED * dt)%Q ∧ (inject_Z PACMAN_SPEED * dt <= 17)%Q).
  { unfold PACMAN_SPEED. change (inject_Z 100) with 100%Q. split; lra. }
  destruct Hstep as [Hs0 Hs1].
  split; intros Hopen; rewrite Hopen; cbn [negb fst snd].
  - assert (Hbox : ∀ x y,
              (x == inject_Z cx + inject_Z dc * (inject_Z PACMAN_SPEED * dt))%Q →
              (y == inject_Z cy + inject_Z dr * (inject_Z PACMAN_SPEED * dt))%Q →
              hits_wall (entity_rect x y 7) = false).
    { intros x y Ex Ey.
      apply (shifted_box_clear (p_col p) (p_row p) (dc, dr) (inject_Z PACMAN_SPEED * dt));
        try assumption; rewrite Hw; cbn [fst snd]; assumption. }
    assert (Hdr : (inject_Z dc * inject_Z dr == 0)%Q).
    { unfold DIRS in Hd. set_unfold in Hd.
      destruct Hd as [[= -> ->] | [[= -> ->] | [[= -> ->] | [[= -> ->] | []]]]]; reflexivity. }
    split; [reflexivity|].
    assert (E1 : hits_wall (entity_rect
                   (inject_Z cx + inject_Z dc * inject_Z PACMAN_SPEED * dt)
                   (inject_Z cy) 7) = false).
    { destruct (Z.eq_dec dr 0) as [-> | Hne].
      - apply Hbox; [ring | change (inject_Z 0) with 0%Q; ring].
      - assert (dc = 0) as ->.
        { unfold DIRS in Hd. set_unfold in Hd.
          destruct Hd as [[= -> ->] | [[= -> ->] | [[= -> ->] | [[= -> ->] | []]]]];
            congruence. }
        rewrite (entity_rect_comp _ (inject_Z cx) _ (inject_Z cy));
          [exact Hcen | change (inject_Z 0) with 0%Q; ring | reflexivity]. }
    unfold slide_x. rewrite E1.
    assert (E2 : hits_wall (entity_rect
                   (inject_Z cx + inject_Z dc * inject_Z PACMAN_SPEED * dt)
                   (inject_Z cy + inject_Z dr * inject_Z PACMAN_SPEED * dt) 7) = false).
    { destruct (Z.eq_dec dc 0) as [-> | Hne].
      - apply Hbox; [change (inject_Z 0) with 0%Q; ring | ring].
      - apply Hbox; ring. }
    unfold slide_y. rewrite E2. rewrite Hx, Hy. split; reflexivity.
  - split; [reflexivity|].
    change (inject_Z 0) with 0%Q.
    assert (E1 : hits_wall (entity_rect (inject_Z cx + 0 * inject_Z PACMAN_SPEED * dt)
                                        (inject_Z cy) 7) = false).
    { rewrite (entity_rect_comp _ (inject_Z cx) _ (inject_Z cy));
        [exact Hcen | ring | reflexivity]. }
    unfold slide_x. rewrite E1.
    assert (E2 : hits_wall (entity_rect (inject_Z cx + 0 * inject_Z PACMAN_SPEED * dt)
                                        (inject_Z cy + 0 * inject_Z PACMAN_SPEED * dt) 7)
                 = false).
    { rewrite (entity_rect_comp _ (inject_Z cx) _ (inject_Z cy));
        [exact Hcen | ring | ring]. }
    unfold slide_y. rewrite E2. rewrite Hx, Hy. split; ring.
Qed.

Lemma player_steps_iff_open_witness :
  p_dir (Pacman_update (set_direction (pacman_in (10, 29) 3 0 0) 1 0) frame) = (1, 0).
Proof.
  destruct (player_steps_iff_open (set_direction (pacman_in (10, 29) 3 0 0) 1 0) frame)
    as [H _].
  - split; [reflexivity|]. split; vm_compute; reflexivity.
  - split; vm_compute; discriminate.
  - reflexivity.
  - reflexivity.
  - vm_compute. set_solver.
  - apply H. vm_compute. reflexivity.
Defined.

(** ** The heading of a ghost in eyes mode *)

(** X18.  [_move_towards].  The directions open to a ghost in eyes mode
    are the directions of [DIRS] whose cell is inside the grid and not a
    ['1'] wall: doors and the reverse direction count.  The ghost heads
    for the first open direction at minimal squared distance from the
    target, keeps its direction when none is open, and ends the move
    with that heading or stopped. *)
Theorem eyes_heading_spec (g m : Ghost) (dt : Q) (t : Z * Z) :
  move_towards g dt t = Some m →
  (∀ e, e ∈ eyes_options (g_col g) (g_row g)
        ↔ e ∈ DIRS ∧ is_inside_grid (g_col g + e.1) (g_row g + e.2) = true
          ∧ MAZE (g_row g + e.2) (g_col g + e.1) ≠ "1"%char)
  ∧ ∃ d, m = ghost_move hits_wall_eyes (g_set_dir g d) d (GHOST_SPEED + 30) dt
      ∧ (g_dir m = d ∨ g_dir m = (0, 0))
      ∧ (eyes_options (g_col g) (g_row g) = [] → d = g_dir g)
      ∧ (eyes_options (g_col g) (g_row g) ≠ [] →
         ∃ pre post, eyes_options (g_col g) (g_row g) = pre ++ d :: post
           ∧ (∀ e, e ∈ pre →
                dist2 (g_col g) (g_row g) t d < dist2 (g_col g) (g_row g) t e)
           ∧ (∀ e, e ∈ post →
                dist2 (g_col g) (g_row g) t d ≤ dist2 (g_col g) (g_row g) t e)).
Proof.
  intros Hm. split.
  { intros e. unfold eyes_options. rewrite list_elem_of_filter. tauto. }
  revert Hm. unfold move_towards.
  pose proof (best_of_spec Z.ltb (dist2 (g_col g) (g_row g) t) SENTINEL
                ltb_trans ltb_neg_trans (eyes_options (g_col g) (g_row g))) as Hbest.
  destruct (eyes_options (g_col g) (g_row g)) as [|o opts] eqn:Eo.
  - cbn [mbind option_bind]. intros H. apply (inj Some) in H.
    exists (g_dir g). split; [symmetry; exact H|]. split; [|split; [reflexivity | congruence]].
    subst m.
    pose proof (ghost_move_pos hits_wall_eyes (g_set_dir g (g_dir g)) (g_dir g)
                  (GHOST_SPEED + 30) dt) as Hpos.
    cbv zeta in Hpos. destruct Hpos as (_ & _ & _ & Hd & _).
    rewrite Hd. repeat destruct (hits_wall_eyes _); auto.
  - destruct (best_of Z.ltb SENTINEL (dist2 (g_col g) (g_row g) t) (o :: opts))
      as [d|]; [|discriminate].
    cbn [mbind option_bind]. intros H. apply (inj Some) in H.
    exists d. split; [symmetry; exact H|]. split; [|split; [discriminate|]].
    + subst m.
      pose proof (ghost_move_pos hits_wall_eyes (g_set_dir g d) d
                    (GHOST_SPEED + 30) dt) as Hpos.
      cbv zeta in Hpos. destruct Hpos as (_ & _ & _ & Hd & _).
      rewrite Hd. repeat destruct (hits_wall_eyes _); auto.
    + intros _. destruct Hbest as (_ & pre & post & E & Hpre & Hpost).
      exists pre, post. split; [exact E|].
      split; intros e He.
      * apply Z.ltb_lt. apply Hpre. exact He.
      * apply Z.ltb_ge. apply Hpost. exact He.
Qed.

Lemma eyes_heading_spec_witness :
  ∃ m, move_towards homing_ghost frame (12, 6) = Some m
       ∧ ((0, 1) ∈ eyes_options (g_col homing_ghost) (g_row homing_ghost)
          ↔ (0, 1) ∈ DIRS
            ∧ is_inside_grid (g_col homing_ghost + 0) (g_row homing_ghost + 1) = true
            ∧ MAZE (g_row homing_ghost + 1) (g_col homing_ghost + 0) ≠ "1"%char).
Proof.
  assert (Hm : ∃ m, move_towards homing_ghost frame (12, 6) = Some m)
    by (eexists; vm_compute; reflexivity).
  destruct Hm as [m Hm]. exists m. split; [exact Hm|].
  destruct (eyes_heading_spec homing_ghost m frame (12, 6) Hm) as [H _].
  apply (H (0, 1)).
Defined.
